(** * StoryScript front end: lexer and recursive-descent parser

    A shallow embedding of [src/lexer.cpp] and [src/parser.cpp], with the
    token model of [include/token.h] and the node classes of the AST
    header, of the token descriptions of [src/token.cpp] and of the driver
    [src/main.cpp], followed by the properties of the lexer/parser
    pipeline.

    - [std::string] is [string]; an index into it ([size_t position],
      [start]) is a [nat], which never exceeds the length of the source.
    - [int line] and [int column] are [Z] values kept in the 32-bit range
      by [int_wrap]; the mixed [int]/[size_t] subtraction of [makeToken] is
      written out with both conversions.
    - the static keyword table ([std::unordered_map]) is a [gmap].
    - [std::unique_ptr<Expression>] is [option Expression]: the parser does
      return [nullptr] for a missing expression, and dereferencing it is
      the outcome [Crash].
    - the member functions of [Parser] run in a monad over the parser
      state with four outcomes: a value, a thrown exception, a crash, and
      fuel exhausted.  Fuel bounds recursion depth and loop iterations;
      section "More fuel never changes a result" shows that a result, once
      obtained, is the result for every larger fuel.
    - the driver takes the file system as a function from paths to file
      contents and returns its exit code with the lines written to the
      standard output and to the standard error. *)

From Stdlib Require Import ZArith Strings.String Strings.Ascii List Lia.
From Stdlib Require Import Floats.SpecFloat.
From Stdlib Require Import DecimalString.
From stdpp Require Import base strings gmap relations.
Import ListNotations.

Local Open Scope string_scope.

(** ** Machine integers *)

(** [int] is 32 bits wide, two's complement; [size_t] is 64 bits wide. *)
Definition int_wrap (z : Z) : Z := ((z + 2 ^ 31) mod 2 ^ 32 - 2 ^ 31)%Z.
Definition size_t_wrap (z : Z) : Z := (z mod 2 ^ 64)%Z.

(** ** Token model ([include/token.h]) *)

Inductive TokenType : Type :=
  (* Keywords *)
  | ROOM | ITEM | VAR | FUNCTION | IF | ELSE | WHILE | FOR | RETURN | WHEN
  | ENTERED | SAY | GOTO | TRUE | FALSE | NOT | AND | OR
  (* Names and values *)
  | IDENTIFIER | STRING | NUMBER
  (* Operators *)
  | PLUS | MINUS | MULTIPLY | DIVIDE | MODULO | ASSIGN | EQ | NEQ | LT | GT
  | LTE | GTE
  (* Structure symbols *)
  | LPAREN | RPAREN | LBRACE | RBRACE | COLON | COMMA | SEMICOLON | DOT
  (* Special *)
  | EOF_TOKEN | UNKNOWN | COMMENT.

(** [static_cast<int>(type)]: the position in the enumeration. *)
Definition TokenType_index (t : TokenType) : nat :=
  match t with
  | ROOM => 0 | ITEM => 1 | VAR => 2 | FUNCTION => 3 | IF => 4 | ELSE => 5
  | WHILE => 6 | FOR => 7 | RETURN => 8 | WHEN => 9 | ENTERED => 10
  | SAY => 11 | GOTO => 12 | TRUE => 13 | FALSE => 14 | NOT => 15
  | AND => 16 | OR => 17 | IDENTIFIER => 18 | STRING => 19 | NUMBER => 20
  | PLUS => 21 | MINUS => 22 | MULTIPLY => 23 | DIVIDE => 24 | MODULO => 25
  | ASSIGN => 26 | EQ => 27 | NEQ => 28 | LT => 29 | GT => 30 | LTE => 31
  | GTE => 32 | LPAREN => 33 | RPAREN => 34 | LBRACE => 35 | RBRACE => 36
  | COLON => 37 | COMMA => 38 | SEMICOLON => 39 | DOT => 40
  | EOF_TOKEN => 41 | UNKNOWN => 42 | COMMENT => 43
  end.

(** Comparison of two token kinds, as [==] on the enumeration does it. *)
Definition TokenType_eqb (a b : TokenType) : bool :=
  Nat.eqb (TokenType_index a) (TokenType_index b).

Module Token.
Record Token : Type := mk {
  type : TokenType;   (* Kind of token *)
  lexeme : string;    (* The text from the code *)
  line : Z;           (* Line number (1-based) *)
  column : Z          (* Column number (1-based) *)
}.
End Token.

Module SourceLocation.
Record SourceLocation : Type := mk {
  filename : string;
  line : Z;
  column : Z
}.
End SourceLocation.

(** ** Lexer ([src/lexer.cpp]) *)

(** [<cctype>] classification in the "C" locale. *)
Definition isdigit (c : ascii) : bool :=
  let n := nat_of_ascii c in Nat.leb 48 n && Nat.leb n 57.
Definition isalpha (c : ascii) : bool :=
  let n := nat_of_ascii c in
  (Nat.leb 65 n && Nat.leb n 90) || (Nat.leb 97 n && Nat.leb n 122).
Definition isalnum (c : ascii) : bool := isalpha c || isdigit c.

(** The string delimiter, character 34. *)
Definition dquote : ascii := "034"%char.

Module Lexer.

Record Lexer : Type := mk {
  source : string;     (* Code text *)
  filename : string;   (* File name *)
  position : nat;      (* Current character index *)
  start : nat;         (* Token start index *)
  line : Z;            (* Current line *)
  column : Z           (* Current column *)
}.

(** The constructor, with the in-class initialisers of the fields. *)
Definition new (src fname : string) : Lexer :=
  mk src fname 0 0 1 1.

(** The static keyword table, filled in the order of [initKeywords]. *)
Definition initKeywords : gmap string TokenType :=
  <["or" := OR]> (<["and" := AND]> (<["not" := NOT]> (
  <["false" := FALSE]> (<["true" := TRUE]> (<["goto" := GOTO]> (
  <["say" := SAY]> (<["entered" := ENTERED]> (<["when" := WHEN]> (
  <["return" := RETURN]> (<["for" := FOR]> (<["while" := WHILE]> (
  <["else" := ELSE]> (<["if" := IF]> (<["function" := FUNCTION]> (
  <["var" := VAR]> (<["item" := ITEM]> (<["room" := ROOM]>
  (∅ : gmap string TokenType)))))))))))))))))).

Definition keywords : gmap string TokenType := initKeywords.

Definition getCurrentLocation (l : Lexer) : SourceLocation.SourceLocation :=
  SourceLocation.mk (filename l) (line l) (column l).

(** *** Character utilities *)

(** [source[i]]; reading at [source.length()] yields the null character. *)
Definition char_at (s : string) (i : nat) : ascii :=
  match String.get i s with Some c => c | None => "000"%char end.

Definition isAtEnd (l : Lexer) : bool :=
  Nat.leb (String.length (source l)) (position l).

(** Number of characters not yet consumed. *)
Definition remaining (l : Lexer) : nat :=
  String.length (source l) - position l.

Definition advance (l : Lexer) : ascii * Lexer :=
  (char_at (source l) (position l),
   mk (source l) (filename l) (S (position l)) (start l) (line l)
      (int_wrap (column l + 1))).

Definition peek (l : Lexer) : ascii :=
  if isAtEnd l then "000"%char else char_at (source l) (position l).

Definition peekNext (l : Lexer) : ascii :=
  if Nat.leb (String.length (source l)) (position l + 1) then "000"%char
  else char_at (source l) (position l + 1).

Definition match_ (expected : ascii) (l : Lexer) : bool * Lexer :=
  if isAtEnd l || negb (Ascii.eqb (char_at (source l) (position l)) expected)
  then (false, l)
  else (true,
        mk (source l) (filename l) (S (position l)) (start l) (line l)
           (int_wrap (column l + 1))).

(** [line++; column = 1;] as done on a newline. *)
Definition newline (l : Lexer) : Lexer :=
  mk (source l) (filename l) (position l) (start l)
     (int_wrap (line l + 1)) 1.

(** *** Token creation *)

(** [source.substr(start, position - start)]. *)
Definition current_lexeme (l : Lexer) : string :=
  String.substring (start l) (position l - start l) (source l).

(** [column - lexeme.length()] is computed in [size_t] and narrowed back
    to the [int] that the [Token] constructor takes. *)
Definition makeToken (ty : TokenType) (l : Lexer) : Token.Token :=
  let lexeme := current_lexeme l in
  Token.mk ty lexeme (line l)
    (int_wrap (size_t_wrap (size_t_wrap (column l)
                            - Z.of_nat (String.length lexeme)))).

Definition errorToken (message : string) (l : Lexer) : Token.Token :=
  Token.mk UNKNOWN message (line l) (column l).

(** *** Loops

    Every scanning loop consumes one character per iteration and stops at
    the end of the source, so it runs at most [remaining l] times; the
    loops recurse on that bound, and their case [O] is never reached with
    the condition true: lemma [loops_exit] below shows that each of them
    stops with its C++ condition false. *)

Fixpoint advance_while (cond : Lexer -> bool) (n : nat) (l : Lexer) : Lexer :=
  if cond l then
    match n with
    | O => l
    | S n' => advance_while cond n' (snd (advance l))
    end
  else l.

(** [while (isalnum(peek()) || peek() == '_') advance();] *)
Definition identifier_cond (l : Lexer) : bool :=
  isalnum (peek l) || Ascii.eqb (peek l) "_".

(** [while (isdigit(peek())) advance();] *)
Definition digits_cond (l : Lexer) : bool := isdigit (peek l).

(** [while (peek() != '\n' && !isAtEnd()) advance();] *)
Definition comment_cond (l : Lexer) : bool :=
  negb (Ascii.eqb (peek l) "010") && negb (isAtEnd l).

(** The condition of the loop of [string()]: the current character is
    not the closing quote and the source is not exhausted. *)
Definition string_cond (l : Lexer) : bool :=
  negb (Ascii.eqb (peek l) dquote) && negb (isAtEnd l).

Definition identifierType (l : Lexer) : TokenType :=
  match keywords !! current_lexeme l with
  | Some ty => ty
  | None => IDENTIFIER
  end.

Definition identifier (l : Lexer) : Token.Token * Lexer :=
  let l := advance_while identifier_cond (remaining l) l in
  let text := current_lexeme l in
  let ty := match keywords !! text with
            | Some ty => ty
            | None => IDENTIFIER
            end in
  (makeToken ty l, l).

Definition number (l : Lexer) : Token.Token * Lexer :=
  let l := advance_while digits_cond (remaining l) l in
  let l := if Ascii.eqb (peek l) "." && isdigit (peekNext l)
           then let l := snd (advance l) in
                advance_while digits_cond (remaining l) l
           else l in
  (makeToken NUMBER l, l).

Fixpoint string_loop (n : nat) (l : Lexer) : Lexer :=
  if string_cond l then
    match n with
    | O => l
    | S n' =>
        let l := if Ascii.eqb (peek l) "010" then newline l else l in
        string_loop n' (snd (advance l))
    end
  else l.

Definition string (l : Lexer) : Token.Token * Lexer :=
  let l := string_loop (remaining l) l in
  if isAtEnd l then (errorToken "Unterminated string." l, l)
  else let l := snd (advance l) in (makeToken STRING l, l).

Fixpoint skipWhitespace_loop (n : nat) (l : Lexer) : Lexer :=
  let c := peek l in
  if Ascii.eqb c " " || Ascii.eqb c "013" || Ascii.eqb c "009" then
    match n with
    | O => l
    | S n' => skipWhitespace_loop n' (snd (advance l))
    end
  else if Ascii.eqb c "010" then
    match n with
    | O => l
    | S n' => skipWhitespace_loop n' (snd (advance (newline l)))
    end
  else l.

Definition skipWhitespace (l : Lexer) : Lexer :=
  skipWhitespace_loop (remaining l) l.

(** [start = position;] *)
Definition mark_start (l : Lexer) : Lexer :=
  mk (source l) (filename l) (position l) (position l) (line l) (column l).

(** *** [nextToken]

    The only recursion is the tail call after a line comment, taken after
    at least two characters were consumed.  [fuel] bounds the number of
    such calls; [None] means the bound was too small, which
    [nextToken_aux_total] excludes for the bound that [nextToken] uses. *)
Fixpoint nextToken_aux (fuel : nat) (l : Lexer)
  : option (Token.Token * Lexer) :=
  let l := skipWhitespace l in  (* Skip spaces and comments *)
  let l := mark_start l in      (* Mark token start *)
  if isAtEnd l then Some (makeToken EOF_TOKEN l, l)
  else
    let '(c, l) := advance l in (* Get next char *)
    if isalpha c || Ascii.eqb c "_" then Some (identifier l)
    else if isdigit c then Some (number l)
    else if Ascii.eqb c "(" then Some (makeToken LPAREN l, l)
    else if Ascii.eqb c ")" then Some (makeToken RPAREN l, l)
    else if Ascii.eqb c "{" then Some (makeToken LBRACE l, l)
    else if Ascii.eqb c "}" then Some (makeToken RBRACE l, l)
    else if Ascii.eqb c ":" then Some (makeToken COLON l, l)
    else if Ascii.eqb c "," then Some (makeToken COMMA l, l)
    else if Ascii.eqb c ";" then Some (makeToken SEMICOLON l, l)
    else if Ascii.eqb c "." then Some (makeToken DOT l, l)
    else if Ascii.eqb c "+" then Some (makeToken PLUS l, l)
    else if Ascii.eqb c "-" then Some (makeToken MINUS l, l)
    else if Ascii.eqb c "*" then Some (makeToken MULTIPLY l, l)
    else if Ascii.eqb c "/" then
      let '(b, l) := match_ "/" l in
      if b then
        let l := advance_while comment_cond (remaining l) l in
        match fuel with
        | O => None
        | S fuel' => nextToken_aux fuel' l
        end
      else Some (makeToken DIVIDE l, l)
    else if Ascii.eqb c "=" then
      let '(b, l) := match_ "=" l in
      Some (makeToken (if b then EQ else ASSIGN) l, l)
    else if Ascii.eqb c "!" then
      let '(b, l) := match_ "=" l in
      Some (makeToken (if b then NEQ else NOT) l, l)
    else if Ascii.eqb c "<" then
      let '(b, l) := match_ "=" l in
      Some (makeToken (if b then LTE else LT) l, l)
    else if Ascii.eqb c ">" then
      let '(b, l) := match_ "=" l in
      Some (makeToken (if b then GTE else GT) l, l)
    else if Ascii.eqb c dquote then Some (string l)
    else Some (errorToken "Unexpected character." l, l).

(** [remaining l] calls are enough (lemma [nextToken_aux_total]), so the
    second case below never applies. *)
Definition nextToken (l : Lexer) : Token.Token * Lexer :=
  match nextToken_aux (remaining l) l with
  | Some r => r
  | None => (makeToken EOF_TOKEN l, l)
  end.

(** Save state, get token, restore state. *)
Definition peekToken (l : Lexer) : Token.Token * Lexer :=
  let savedPosition := position l in
  let savedStart := start l in
  let savedLine := line l in
  let savedColumn := column l in
  let '(token, l') := nextToken l in
  (token,
   mk (source l') (filename l') savedPosition savedStart savedLine
      savedColumn).

(** [tokenize]: the do-while loop pulls tokens up to and including the
    first end-of-input token.  [None]: the bound [fuel] was too small. *)
Fixpoint tokenize_loop (fuel : nat) (l : Lexer) (tokens : list Token.Token)
  : option (list Token.Token * Lexer) :=
  match fuel with
  | O => None
  | S fuel' =>
      let '(token, l) := nextToken l in
      let tokens := (tokens ++ [token])%list in
      if TokenType_eqb (Token.type token) EOF_TOKEN then Some (tokens, l)
      else tokenize_loop fuel' l tokens
  end.

Definition tokenize (fuel : nat) (l : Lexer)
  : option (list Token.Token * Lexer) :=
  tokenize_loop fuel l [].

(** The lexer after [n] calls of [nextToken], and the token that call
    number [n] (counted from 0) returns. *)
Fixpoint run (n : nat) (l : Lexer) : Lexer :=
  match n with
  | O => l
  | S n' => run n' (snd (nextToken l))
  end.

Definition nth_token (n : nat) (l : Lexer) : Token.Token :=
  fst (nextToken (run n l)).

End Lexer.

(** ** AST model (the AST header) *)

Set Warnings "-register-all".

(** [std::variant<double, std::string, bool>]; a [double] is an IEEE 754
    binary64 value, kept in the specification format of the standard
    library (precision 53, maximal exponent 1024). *)
Inductive Value : Type :=
  | VDouble (d : spec_float)
  | VString (s : string)
  | VBool (b : bool).

(** The expression classes.  Every child is a [std::unique_ptr], which the
    parser may leave null. *)
Inductive Expression : Type :=
  | LiteralExpr (location : SourceLocation.SourceLocation) (value : Value)
  | VariableExpr (location : SourceLocation.SourceLocation)
      (name : Token.Token)
  | BinaryExpr (location : SourceLocation.SourceLocation)
      (left : option Expression) (op : Token.Token)
      (right : option Expression)
  | UnaryExpr (location : SourceLocation.SourceLocation) (op : Token.Token)
      (right : option Expression)
  | CallExpr (location : SourceLocation.SourceLocation)
      (callee : option Expression) (paren : Token.Token)
      (arguments : list (option Expression)).

(** [expr->location] on a non-null expression. *)
Definition Expression_location (e : Expression)
  : SourceLocation.SourceLocation :=
  match e with
  | LiteralExpr loc _ | VariableExpr loc _ | BinaryExpr loc _ _ _
  | UnaryExpr loc _ _ | CallExpr loc _ _ _ => loc
  end.

(** The statement classes.  [parseStatement] and [parseBlock] only ever
    return the result of [std::make_unique], so a statement pointer is the
    statement itself; the optional [elseBranch] and all expression pointers
    stay nullable.  [Block] is a [BlockStmt] seen as a [Statement]. *)
Inductive Statement : Type :=
  | ExpressionStmt (location : SourceLocation.SourceLocation)
      (expression : option Expression)
  | VarStmt (location : SourceLocation.SourceLocation) (name : Token.Token)
      (initializer : option Expression)
  | Block (b : BlockStmt)
  | IfStmt (location : SourceLocation.SourceLocation)
      (condition : option Expression) (thenBranch : Statement)
      (elseBranch : option Statement)
  | WhileStmt (location : SourceLocation.SourceLocation)
      (condition : option Expression) (body : Statement)
  | ReturnStmt (location : SourceLocation.SourceLocation)
      (keyword : Token.Token) (value : option Expression)
  | SayStmt (location : SourceLocation.SourceLocation)
      (message : option Expression)
  | GotoStmt (location : SourceLocation.SourceLocation)
      (destination : option Expression)
with BlockStmt : Type :=
  | mkBlockStmt (location : SourceLocation.SourceLocation)
      (statements : list Statement).

(** [FunctionStmt] derives from [Statement] in the source, but the parser
    only stores functions in [Program::functions]. *)
Record FunctionStmt : Type := mkFunctionStmt {
  function_location : SourceLocation.SourceLocation;
  function_name : Token.Token;
  function_params : list Token.Token;
  function_body : BlockStmt
}.

Record Item : Type := mkItem {
  item_location : SourceLocation.SourceLocation;
  item_name : Token.Token;
  item_properties : list (string * option Expression)
}.

Record Room : Type := mkRoom {
  room_location : SourceLocation.SourceLocation;
  room_name : Token.Token;
  room_properties : list (string * option Expression);
  room_items : list Item;
  room_events : list (string * BlockStmt)
}.

Record Program : Type := mkProgram {
  program_location : SourceLocation.SourceLocation;
  rooms : list Room;
  statements : list Statement;
  functions : list FunctionStmt
}.

Definition addRoom (room : Room) (p : Program) : Program :=
  mkProgram (program_location p) (rooms p ++ [room])%list (statements p)
    (functions p).
Definition addStatement (stmt : Statement) (p : Program) : Program :=
  mkProgram (program_location p) (rooms p) (statements p ++ [stmt])%list
    (functions p).
Definition addFunction (func : FunctionStmt) (p : Program) : Program :=
  mkProgram (program_location p) (rooms p) (statements p)
    (functions p ++ [func])%list.

(** ** [std::stod] on the lexeme of a number token

    The lexer only produces number lexemes of the form digits, optionally
    followed by a dot and digits.  [stod] returns the binary64 value nearest
    to that decimal (ties to even), or [None] where [std::stod] throws:
    [std::out_of_range] when [strtod] reports [ERANGE] (the value overflows,
    or is tiny and inexact), [std::invalid_argument] on a text that is not
    of the form above. *)

Definition digit_value (c : ascii) : option Z :=
  if isdigit c then Some (Z.of_nat (nat_of_ascii c) - 48)%Z else None.

(** Reads the digits of [s] into [acc]; [frac] counts the digits after the
    dot once [seen_dot] holds. *)
Fixpoint decimal_digits (s : string) (acc : Z) (seen_dot : bool) (frac : nat)
  : option (Z * nat) :=
  match s with
  | EmptyString => Some (acc, frac)
  | String c rest =>
      if Ascii.eqb c "." then
        if seen_dot then None else decimal_digits rest acc true frac
      else
        match digit_value c with
        | Some d =>
            decimal_digits rest (10 * acc + d)%Z seen_dot
              (if seen_dot then S frac else frac)
        | None => None
        end
  end.

Definition spec_float_of_Z (z : Z) : spec_float :=
  match z with
  | Zpos p => S754_finite false p 0
  | Z0 => S754_zero false
  | Zneg p => S754_finite true p 0
  end.

(** Is the binary64 value [d] exactly [m / 10 ^ k]? *)
Definition decimal_exact (d : spec_float) (m : Z) (k : nat) : bool :=
  match d with
  | S754_zero _ => Z.eqb m 0
  | S754_finite false md ed =>
      if Z.leb 0 ed then Z.eqb m (Zpos md * 2 ^ ed * 10 ^ Z.of_nat k)
      else Z.eqb (m * 2 ^ (- ed)) (Zpos md * 10 ^ Z.of_nat k)
  | _ => false
  end.

(** Zero and the subnormal numbers of binary64. *)
Definition tiny (d : spec_float) : bool :=
  match d with
  | S754_zero _ => true
  | S754_finite _ md _ => Z.ltb (Zpos md) (2 ^ 52)
  | _ => false
  end.

Definition stod (lexeme : string) : option spec_float :=
  match lexeme with
  | EmptyString => None
  | String c _ =>
      if isdigit c then
        match decimal_digits lexeme 0 false 0 with
        | None => None
        | Some (m, k) =>
            let d := SFdiv 53 1024 (spec_float_of_Z m)
                       (spec_float_of_Z (10 ^ Z.of_nat k)) in
            match d with
            | S754_infinity _ | S754_nan => None
            | _ => if tiny d && negb (decimal_exact d m k) then None
                   else Some d
            end
        end
      else None
  end.

(** The binary64 value of a small integer, for reading literals. *)
Definition double_of_Z (z : Z) : spec_float :=
  SFdiv 53 1024 (spec_float_of_Z z) (S754_finite false 1 0).

(** ** Parser ([src/parser.cpp]) *)

Module Parser.

(** One line written to [std::cerr] by [Parser::error]:
    [Error at <line>:<column> - <message>]. *)
Record Diagnostic : Type := mkDiagnostic {
  diag_line : Z;
  diag_column : Z;
  diag_message : string
}.

(** The parser object together with the lexer it refers to and the
    diagnostic stream it writes. *)
Record Parser : Type := mk {
  lexer : Lexer.Lexer;
  current : Token.Token;      (* Current token being processed *)
  previous : Token.Token;     (* Previously consumed token *)
  errorOccurred : bool;       (* Error state flag *)
  cerr : list Diagnostic      (* Lines written so far *)
}.

(** The outcome of running a member function:
    - [Ok a p]: it returned [a], leaving the parser in state [p];
    - [Throw p]: a C++ exception propagates from state [p];
    - [Crash]: a null [unique_ptr] was dereferenced;
    - [OutOfFuel]: the bound on loop iterations and recursive calls was
      reached before the function returned. *)
Inductive Result (A : Type) : Type :=
  | Ok (a : A) (p : Parser)
  | Throw (p : Parser)
  | Crash
  | OutOfFuel.
Arguments Ok {A} a p.
Arguments Throw {A} p.
Arguments Crash {A}.
Arguments OutOfFuel {A}.

Definition M (A : Type) : Type := Parser -> Result A.

Definition ret {A} (a : A) : M A := fun p => Ok a p.
Definition bind {A B} (m : M A) (k : A -> M B) : M B :=
  fun p =>
    match m p with
    | Ok a p' => k a p'
    | Throw p' => Throw p'
    | Crash => Crash
    | OutOfFuel => OutOfFuel
    end.
Definition throw {A} : M A := fun p => Throw p.
Definition crash {A} : M A := fun _ => Crash.
Definition outOfFuel {A} : M A := fun _ => OutOfFuel.
(** [try { body } catch (...) { handler }] *)
Definition try_catch {A} (body : M A) (handler : M A) : M A :=
  fun p =>
    match body p with
    | Throw p' => handler p'
    | r => r
    end.
Definition get {A} (f : Parser -> A) : M A := fun p => Ok (f p) p.

Notation "'let*' x ':=' m 'in' k" := (bind m (fun x => k))
  (at level 10, x name, m at level 100, k at level 200).
Notation "'do' m 'then' k" := (bind m (fun _ => k))
  (at level 10, m at level 100, k at level 200).

(** *** Token stream management *)

(** [previous = current; current = lexer.nextToken();] *)
Definition advanced (p : Parser) : Parser :=
  let '(token, lexer') := Lexer.nextToken (lexer p) in
  mk lexer' token (current p) (errorOccurred p) (cerr p).

Definition advance : M unit := fun p => Ok tt (advanced p).

(** The constructor, which calls [advance] once.  Before that call
    [current] and [previous] hold a placeholder token, the one
    [Lexer::tokenize] also starts from; the call replaces [current], and no
    function reads [previous] before a later [advance] has set it. *)
Definition placeholder : Token.Token := Token.mk UNKNOWN "" 0 0.
Definition new (lexer : Lexer.Lexer) : Parser :=
  advanced (mk lexer placeholder placeholder false []).

Definition hadError (p : Parser) : bool := errorOccurred p.

Definition check (ty : TokenType) : M bool :=
  get (fun p => TokenType_eqb (Token.type (current p)) ty).

Definition match_ (ty : TokenType) : M bool :=
  let* b := check ty in
  if b then do advance then ret true else ret false.

(** The overload of [match] on a list of kinds. *)
Fixpoint match_any (types : list TokenType) : M bool :=
  match types with
  | [] => ret false
  | ty :: rest =>
      let* b := check ty in
      if b then do advance then ret true else match_any rest
  end.

Definition error (message : string) : M unit := fun p =>
  Ok tt (mk (lexer p) (current p) (previous p) true
           (cerr p ++ [mkDiagnostic (Token.line (current p))
                         (Token.column (current p)) message])%list).

Definition consume (ty : TokenType) (message : string) : M Token.Token :=
  let* b := check ty in
  if b then do advance then get previous
  else do error message then get current.

Definition getCurrentLocation : M SourceLocation.SourceLocation :=
  get (fun p => Lexer.getCurrentLocation (lexer p)).

(** The kinds at which [synchronize] stops. *)
Definition is_sync_point (ty : TokenType) : bool :=
  match ty with
  | ROOM | ITEM | FUNCTION | VAR | IF | WHILE | RETURN | SAY | GOTO => true
  | _ => false
  end.

Fixpoint synchronize_loop (fuel : nat) : M unit :=
  let* at_eof := check EOF_TOKEN in
  if at_eof then ret tt
  else
    let* prev := get previous in
    if TokenType_eqb (Token.type prev) SEMICOLON then ret tt
    else
      let* cur := get current in
      if is_sync_point (Token.type cur) then ret tt
      else
        match fuel with
        | O => outOfFuel
        | S fuel' => do advance then synchronize_loop fuel'
        end.

Definition synchronize (fuel : nat) : M unit :=
  do advance then synchronize_loop fuel.

(** *** Expressions

    The expression functions are mutually recursive through
    [parseExpression]; below it enters each of them as [rec], and
    [parseExpression] closes the cycle.  [fuel] bounds the direct
    recursion and the loop iterations of a function. *)

Section Expressions.
Variable rec : M (option Expression).

Definition parsePrimary : M (option Expression) :=
  let* location := getCurrentLocation in
  let* b := match_ FALSE in
  if b then ret (Some (LiteralExpr location (VBool false))) else
  let* b := match_ TRUE in
  if b then ret (Some (LiteralExpr location (VBool true))) else
  let* b := match_ NUMBER in
  if b then
    let* prev := get previous in
    match stod (Token.lexeme prev) with
    | Some value => ret (Some (LiteralExpr location (VDouble value)))
    | None => throw
    end
  else
  let* b := match_ STRING in
  if b then
    let* prev := get previous in
    let lexeme := Token.lexeme prev in
    let value := String.substring 1 (String.length lexeme - 2) lexeme in
    ret (Some (LiteralExpr location (VString value)))
  else
  let* b := match_ IDENTIFIER in
  if b then
    let* prev := get previous in
    ret (Some (VariableExpr location prev))
  else
  let* b := match_ LPAREN in
  if b then
    let* expr := rec in
    do consume RPAREN "Expected ')' after expression." then
    ret expr
  else
  do error "Expected expression." then
  ret None.

(** The do-while loop collecting the arguments of a call. *)
Fixpoint finishCall_arguments (fuel : nat)
    (arguments : list (option Expression))
  : M (list (option Expression)) :=
  let* argument := rec in
  let arguments := (arguments ++ [argument])%list in
  let* more := match_ COMMA in
  if more then
    match fuel with
    | O => outOfFuel
    | S fuel' => finishCall_arguments fuel' arguments
    end
  else ret arguments.

Definition finishCall (fuel : nat) (callee : option Expression)
  : M (option Expression) :=
  let* at_rparen := check RPAREN in
  let* arguments :=
    if at_rparen then ret [] else finishCall_arguments fuel [] in
  let* paren := consume RPAREN "Expected ')' after arguments." in
  match callee with
  | None => crash
  | Some c =>
      ret (Some (CallExpr (Expression_location c) callee paren arguments))
  end.

Fixpoint parseCall_loop (fuel : nat) (expr : option Expression)
  : M (option Expression) :=
  let* is_call := match_ LPAREN in
  if is_call then
    match fuel with
    | O => outOfFuel
    | S fuel' =>
        let* expr := finishCall fuel' expr in
        parseCall_loop fuel' expr
    end
  else
    let* is_dot := match_ DOT in
    if is_dot then
      match fuel with
      | O => outOfFuel
      | S fuel' =>
          let* name :=
            consume IDENTIFIER "Expected property name after '.'." in
          let* location := getCurrentLocation in
          parseCall_loop fuel' (Some (VariableExpr location name))
      end
    else ret expr.

Definition parseCall (fuel : nat) : M (option Expression) :=
  let* expr := parsePrimary in
  parseCall_loop fuel expr.

Fixpoint parseUnary (fuel : nat) : M (option Expression) :=
  let* is_unary := match_any [MINUS; NOT] in
  if is_unary then
    match fuel with
    | O => outOfFuel
    | S fuel' =>
        let* op := get previous in
        let* right := parseUnary fuel' in
        match right with
        | None => crash
        | Some r =>
            ret (Some (UnaryExpr (Expression_location r) op right))
        end
    end
  else parseCall fuel.

(** The loop shared by the binary levels:
    [while (match(...)) { op = previous; right = operand();
                          expr = BinaryExpr(expr->location, ...); }] *)
Fixpoint binary_loop (matches : M bool) (operand : M (option Expression))
    (fuel : nat) (expr : option Expression) : M (option Expression) :=
  let* found := matches in
  if found then
    match fuel with
    | O => outOfFuel
    | S fuel' =>
        let* op := get previous in
        let* right := operand in
        match expr with
        | None => crash
        | Some e =>
            binary_loop matches operand fuel'
              (Some (BinaryExpr (Expression_location e) expr op right))
        end
    end
  else ret expr.

Definition parseFactor (fuel : nat) : M (option Expression) :=
  let* expr := parseUnary fuel in
  binary_loop (match_any [MULTIPLY; DIVIDE; MODULO]) (parseUnary fuel)
    fuel expr.

Definition parseTerm (fuel : nat) : M (option Expression) :=
  let* expr := parseFactor fuel in
  binary_loop (match_any [PLUS; MINUS]) (parseFactor fuel) fuel expr.

Definition parseComparison (fuel : nat) : M (option Expression) :=
  let* expr := parseTerm fuel in
  binary_loop (match_any [GT; GTE; LT; LTE]) (parseTerm fuel) fuel expr.

Definition parseEquality (fuel : nat) : M (option Expression) :=
  let* expr := parseComparison fuel in
  binary_loop (match_any [EQ; NEQ]) (parseComparison fuel) fuel expr.

Definition parseLogicalAnd (fuel : nat) : M (option Expression) :=
  let* expr := parseEquality fuel in
  binary_loop (match_ AND) (parseEquality fuel) fuel expr.

Definition parseLogicalOr (fuel : nat) : M (option Expression) :=
  let* expr := parseLogicalAnd fuel in
  binary_loop (match_ OR) (parseLogicalAnd fuel) fuel expr.

(** [dynamic_cast<VariableExpr*>(expr.get())] is non-null exactly when
    [expr] is a variable reference; [expr->location] is then its
    location. *)
Fixpoint parseAssignment (fuel : nat) : M (option Expression) :=
  let* expr := parseLogicalOr fuel in
  let* is_assign := match_ ASSIGN in
  if is_assign then
    match fuel with
    | O => outOfFuel
    | S fuel' =>
        let* equals := get previous in
        let* value := parseAssignment fuel' in
        match expr with
        | Some (VariableExpr location _) =>
            ret (Some (BinaryExpr location expr equals value))
        | _ =>
            do error "Invalid assignment target." then
            ret expr
        end
    end
  else ret expr.

End Expressions.

Fixpoint parseExpression (fuel : nat) : M (option Expression) :=
  parseAssignment
    (match fuel with
     | O => outOfFuel
     | S fuel' => parseExpression fuel'
     end) fuel.

(** *** Statements

    The statement functions are mutually recursive through
    [parseStatement], which enters them as [rec]. *)

Section Statements.
Variable rec : M Statement.

Definition parseVarDeclaration (fuel : nat) : M Statement :=
  let* location := getCurrentLocation in
  let* name := consume IDENTIFIER "Expected variable name." in
  let* has_init := match_ ASSIGN in
  let* initializer :=
    if has_init then parseExpression fuel else ret None in
  do consume SEMICOLON "Expected ';' after variable declaration." then
  ret (VarStmt location name initializer).

Fixpoint parseBlock_loop (fuel : nat) (statements : list Statement)
  : M (list Statement) :=
  let* at_rbrace := check RBRACE in
  let* at_eof := check EOF_TOKEN in
  if negb at_rbrace && negb at_eof then
    match fuel with
    | O => outOfFuel
    | S fuel' =>
        let* statement := rec in
        parseBlock_loop fuel' (statements ++ [statement])%list
    end
  else ret statements.

Definition parseBlock (fuel : nat) : M BlockStmt :=
  let* location := getCurrentLocation in
  let* statements := parseBlock_loop fuel [] in
  do consume RBRACE "Expected '}' after block." then
  ret (mkBlockStmt location statements).

Definition parseIfStatement (fuel : nat) : M Statement :=
  let* location := getCurrentLocation in
  do consume LPAREN "Expected '(' after 'if'." then
  let* condition := parseExpression fuel in
  do consume RPAREN "Expected ')' after if condition." then
  let* thenBranch := rec in
  let* has_else := match_ ELSE in
  if has_else then
    let* elseBranch := rec in
    ret (IfStmt location condition thenBranch (Some elseBranch))
  else ret (IfStmt location condition thenBranch None).

Definition parseWhileStatement (fuel : nat) : M Statement :=
  let* location := getCurrentLocation in
  do consume LPAREN "Expected '(' after 'while'." then
  let* condition := parseExpression fuel in
  do consume RPAREN "Expected ')' after while condition." then
  let* body := rec in
  ret (WhileStmt location condition body).

Definition parseReturnStatement (fuel : nat) : M Statement :=
  let* location := getCurrentLocation in
  let* keyword := get previous in
  let* at_semicolon := check SEMICOLON in
  let* value :=
    if at_semicolon then ret None else parseExpression fuel in
  do consume SEMICOLON "Expected ';' after return value." then
  ret (ReturnStmt location keyword value).

Definition parseSayStatement (fuel : nat) : M Statement :=
  let* location := getCurrentLocation in
  let* message := parseExpression fuel in
  do consume SEMICOLON "Expected ';' after message." then
  ret (SayStmt location message).

Definition parseGotoStatement (fuel : nat) : M Statement :=
  let* location := getCurrentLocation in
  do consume LPAREN "Expected '(' after 'goto'." then
  let* destination := parseExpression fuel in
  do consume RPAREN "Expected ')' after goto destination." then
  do consume SEMICOLON "Expected ';' after goto statement." then
  ret (GotoStmt location destination).

Definition parseExpressionStatement (fuel : nat) : M Statement :=
  let* location := getCurrentLocation in
  let* expr := parseExpression fuel in
  do consume SEMICOLON "Expected ';' after expression." then
  ret (ExpressionStmt location expr).

Definition parseStatement_body (fuel : nat) : M Statement :=
  let* b := match_ IF in
  if b then parseIfStatement fuel else
  let* b := match_ WHILE in
  if b then parseWhileStatement fuel else
  let* b := match_ VAR in
  if b then parseVarDeclaration fuel else
  let* b := match_ LBRACE in
  if b then let* block := parseBlock fuel in ret (Block block) else
  let* b := match_ RETURN in
  if b then parseReturnStatement fuel else
  let* b := match_ SAY in
  if b then parseSayStatement fuel else
  let* b := match_ GOTO in
  if b then parseGotoStatement fuel else
  parseExpressionStatement fuel.

End Statements.

Fixpoint parseStatement (fuel : nat) : M Statement :=
  parseStatement_body
    (match fuel with
     | O => outOfFuel
     | S fuel' => parseStatement fuel'
     end) fuel.

(** *** Declarations *)

Fixpoint parseItem_loop (fuel : nat)
    (properties : list (string * option Expression))
  : M (list (string * option Expression)) :=
  let* at_rbrace := check RBRACE in
  let* at_eof := check EOF_TOKEN in
  if negb at_rbrace && negb at_eof then
    match fuel with
    | O => outOfFuel
    | S fuel' =>
        let* propertyName :=
          consume IDENTIFIER "Expected property name." in
        do consume COLON "Expected ':' after property name." then
        let* value := parseExpression fuel' in
        do consume SEMICOLON "Expected ';' after property value." then
        parseItem_loop fuel'
          (properties ++ [(Token.lexeme propertyName, value)])%list
    end
  else ret properties.

Definition parseItem (fuel : nat) : M Item :=
  let* location := getCurrentLocation in
  let* name := consume IDENTIFIER "Expected item name." in
  do consume LBRACE "Expected '{' after item name." then
  let* properties := parseItem_loop fuel [] in
  do consume RBRACE "Expected '}' after item body." then
  ret (mkItem location name properties).

Fixpoint parseRoom_loop (fuel : nat)
    (properties : list (string * option Expression)) (items : list Item)
    (events : list (string * BlockStmt))
  : M (list (string * option Expression) * list Item
       * list (string * BlockStmt)) :=
  let* at_rbrace := check RBRACE in
  let* at_eof := check EOF_TOKEN in
  if negb at_rbrace && negb at_eof then
    match fuel with
    | O => outOfFuel
    | S fuel' =>
        let* is_item := match_ ITEM in
        if is_item then
          let* item := parseItem fuel' in
          parseRoom_loop fuel' properties (items ++ [item])%list events
        else
          let* is_event := match_ WHEN in
          if is_event then
            let* eventType :=
              consume IDENTIFIER "Expected event type after 'when'." in
            let* body := parseBlock (parseStatement fuel') fuel' in
            parseRoom_loop fuel' properties items
              (events ++ [(Token.lexeme eventType, body)])%list
          else
            let* propertyName :=
              consume IDENTIFIER "Expected property name." in
            do consume COLON "Expected ':' after property name." then
            let* value := parseExpression fuel' in
            do consume SEMICOLON "Expected ';' after property value." then
            parseRoom_loop fuel'
              (properties ++ [(Token.lexeme propertyName, value)])%list
              items events
    end
  else ret (properties, items, events).

Definition parseRoom (fuel : nat) : M Room :=
  let* location := getCurrentLocation in
  let* name := consume IDENTIFIER "Expected room name." in
  do consume LBRACE "Expected '{' after room name." then
  let* contents := parseRoom_loop fuel [] [] [] in
  do consume RBRACE "Expected '}' after room body." then
  let '(properties, items, events) := contents in
  ret (mkRoom location name properties items events).

(** The do-while loop collecting the parameters of a function. *)
Fixpoint parseFunction_parameters (fuel : nat)
    (parameters : list Token.Token) : M (list Token.Token) :=
  let* parameter := consume IDENTIFIER "Expected parameter name." in
  let parameters := (parameters ++ [parameter])%list in
  let* more := match_ COMMA in
  if more then
    match fuel with
    | O => outOfFuel
    | S fuel' => parseFunction_parameters fuel' parameters
    end
  else ret parameters.

Definition parseFunction (fuel : nat) : M FunctionStmt :=
  let* location := getCurrentLocation in
  let* name := consume IDENTIFIER "Expected function name." in
  do consume LPAREN "Expected '(' after function name." then
  let* at_rparen := check RPAREN in
  let* parameters :=
    if at_rparen then ret [] else parseFunction_parameters fuel [] in
  do consume RPAREN "Expected ')' after parameters." then
  do consume LBRACE "Expected '{' before function body." then
  let* body := parseBlock (parseStatement fuel) fuel in
  ret (mkFunctionStmt location name parameters body).

(** *** Program *)

(** The body of the [try] block of [parseProgram]. *)
Definition parseProgram_item (fuel : nat) (program : Program) : M Program :=
  let* is_room := match_ ROOM in
  if is_room then
    let* room := parseRoom fuel in ret (addRoom room program)
  else
    let* is_function := match_ FUNCTION in
    if is_function then
      let* func := parseFunction fuel in ret (addFunction func program)
    else
      let* stmt := parseStatement fuel in ret (addStatement stmt program).

Fixpoint parseProgram_loop (fuel : nat) (program : Program) : M Program :=
  let* at_eof := check EOF_TOKEN in
  if at_eof then ret program
  else
    match fuel with
    | O => outOfFuel
    | S fuel' =>
        let* program :=
          try_catch (parseProgram_item fuel' program)
            (do synchronize fuel' then ret program) in
        parseProgram_loop fuel' program
    end.

Definition parseProgram (fuel : nat) : M Program :=
  let* location := getCurrentLocation in
  parseProgram_loop fuel (mkProgram location [] [] []).

Definition parse (fuel : nat) : M Program := parseProgram fuel.

End Parser.


(** ** Reference notions used by the statements below *)

(** The 1-based column of the character at offset [i] of [s]: one more than
    the number of characters between it and the start of its line. *)
Fixpoint column_scan (s : string) (i : nat) (col : Z) : Z :=
  match i, s with
  | S i', String c rest =>
      column_scan rest i' (if Ascii.eqb c "010" then 1 else col + 1)%Z
  | _, _ => col
  end.

Definition column_of (s : string) (i : nat) : Z := column_scan s i 1.

(** The property that the token model states for the token of call [n]:
    its text is the source between the token start and the cursor, and its
    column is the column of its first character. *)
Definition token_invariant (src fname : string) (n : nat) : Prop :=
  let l0 := Lexer.new src fname in
  let t := Lexer.nth_token n l0 in
  let l' := Lexer.run (S n) l0 in
  Token.lexeme t
    = String.substring (Lexer.start l') (Lexer.position l' - Lexer.start l')
        src
  /\ Token.column t = column_of src (Lexer.start l').

(** ** Example sources *)

(** [s] between string delimiters. *)
Definition quoted (s : string) : string :=
  String dquote (s ++ String dquote "").

(** The default file name of the [Lexer] constructor. *)
Definition script (src : string) : Lexer.Lexer :=
  Lexer.new src "script.story".

(** [say] followed by a string literal that is never closed. *)
Definition unterminated_say : string := "say " ++ String dquote "abc".

(** A room with one property, one item and one [when entered] block that
    holds a [say] statement. *)
Definition room_scenario : string :=
  "room Hall { light: 1; item Lamp { lit: true; } when entered { say "
  ++ quoted "hi" ++ "; } }".

(** Readable forms of the locations and trees of the examples. *)
Definition at_ (line column : Z) : SourceLocation.SourceLocation :=
  SourceLocation.mk "script.story" line column.

Definition number_literal (line column : Z) (z : Z) : option Expression :=
  Some (LiteralExpr (at_ line column) (VDouble (double_of_Z z))).

Definition variable (line column : Z) (name : string) (token_column : Z)
  : option Expression :=
  Some (VariableExpr (at_ line column)
          (Token.mk IDENTIFIER name line token_column)).

(** The kinds that [parsePrimary] accepts as the start of an expression. *)
Definition starts_primary (ty : TokenType) : bool :=
  match ty with
  | FALSE | TRUE | NUMBER | STRING | IDENTIFIER | LPAREN => true
  | _ => false
  end.

(** ** Notions used in the proofs about the lexer *)

Module LexerSpec.
Import Lexer.

(** The primitive moves of the scan cursor: consume a character other than
    a newline, consume a newline (counting the line), mark the start of a
    token. *)
Inductive step : Lexer -> Lexer -> Prop :=
  | step_advance l :
      isAtEnd l = false ->
      char_at (source l) (position l) <> "010"%char ->
      step l (snd (advance l))
  | step_newline l :
      isAtEnd l = false ->
      char_at (source l) (position l) = "010"%char ->
      step l (snd (advance (newline l)))
  | step_mark l : step l (mark_start l).

Definition steps : Lexer -> Lexer -> Prop := rtc step.

(** A loop condition is plain when it only holds on a character that a
    plain [advance] may consume. *)
Definition plain_cond (cond : Lexer -> bool) : Prop :=
  forall l, cond l = true ->
    isAtEnd l = false /\ char_at (source l) (position l) <> "010"%char.

(** The characters that [skipWhitespace] consumes. *)
Definition is_space (c : ascii) : bool :=
  Ascii.eqb c " " || Ascii.eqb c "013" || Ascii.eqb c "009"
  || Ascii.eqb c "010".

Definition is_keyword_type (ty : TokenType) : bool :=
  match ty with
  | ROOM | ITEM | VAR | FUNCTION | IF | ELSE | WHILE | FOR | RETURN | WHEN
  | ENTERED | SAY | GOTO | TRUE | FALSE | NOT | AND | OR => true
  | _ => false
  end.

(** The kinds that the lexer can attach to a lexeme. *)
Definition lexer_kind (ty : TokenType) : bool :=
  match ty with
  | MODULO | UNKNOWN | COMMENT => false
  | _ => true
  end.

(** [nextToken] moved the cursor from [l] to [l'] and returned [t]. *)
Definition produced (l : Lexer) (t : Token.Token) (l' : Lexer) : Prop :=
  steps l l' /\
  ((exists ty, t = makeToken ty l' /\ lexer_kind ty = true /\
               (ty = EOF_TOKEN ->
                isAtEnd l' = true /\ start l' = position l'))
   \/ t = errorToken "Unexpected character." l'
   \/ t = errorToken "Unterminated string." l').

(** The invariant of the scan cursor over the source [src]:
    - the token start is not after the cursor, which is inside [src];
    - [line] counts from 1 and exceeds the number of consumed characters
      by at most one;
    - while [line] is 1, no newline was consumed and [column] is the offset
      of the cursor plus one. *)
Record inv (src : String.string) (l : Lexer) : Prop := {
  inv_source : source l = src;
  inv_start : start l <= position l;
  inv_position : position l <= String.length src;
  inv_line : (1 <= line l <= Z.of_nat (position l) + 1)%Z;
  inv_column : line l = 1%Z -> column l = (Z.of_nat (position l) + 1)%Z;
  inv_first_line :
    line l = 1%Z -> forall i, i < position l -> char_at src i <> "010"%char
}.

End LexerSpec.

(** ** Notions used in the proofs about the parser *)

Module ParserSpec.
Import Parser.

(** The parser state after [error message]. *)
Definition record_error (message : string) (p : Parser) : Parser :=
  mk (lexer p) (current p) (previous p) true
     (cerr p ++ [mkDiagnostic (Token.line (current p))
                   (Token.column (current p)) message])%list.

(** A token kind that no statement consumes: [parseStatement] returns an
    expression statement without moving. *)
Definition no_progress (ty : TokenType) : bool :=
  match ty with
  | ROOM | ITEM | FUNCTION | ELSE | FOR | WHEN | ENTERED | RPAREN | RBRACE
  | COLON | COMMA | EOF_TOKEN | UNKNOWN | COMMENT => true
  | _ => false
  end.

(** A token kind on which the top-level loop of [parseProgram] spins:
    no statement consumes it and it is neither [room] nor [function]. *)
Definition blocks_program (ty : TokenType) : bool :=
  match ty with
  | ITEM | ELSE | FOR | WHEN | ENTERED | RPAREN | RBRACE | COLON | COMMA
  | UNKNOWN | COMMENT => true
  | _ => false
  end.

(** A token kind on which the loop of [parseBlock] spins. *)
Definition blocks_block (ty : TokenType) : bool :=
  match ty with
  | ROOM | ITEM | FUNCTION | ELSE | FOR | WHEN | ENTERED | RPAREN | COLON
  | COMMA | UNKNOWN | COMMENT => true
  | _ => false
  end.

(** [r'] is what [r] becomes with more fuel: the same outcome, unless [r]
    ran out of fuel. *)
Definition le_result {A} (r r' : Result A) : Prop :=
  r = OutOfFuel \/ r = r'.

Definition le_M {A} (m m' : M A) : Prop := forall p, le_result (m p) (m' p).

End ParserSpec.

(** ** Token descriptions ([src/token.cpp]) *)

(** Text names for each [TokenType], in the order of the enum. *)
Definition TokenTypeStrings : list string :=
  [ (* Keywords *)
    "ROOM"; "ITEM"; "VAR"; "FUNCTION"; "IF"; "ELSE"; "WHILE"; "FOR";
    "RETURN"; "WHEN"; "ENTERED"; "SAY"; "GOTO"; "TRUE"; "FALSE"; "NOT";
    "AND"; "OR";
    (* Names and values *)
    "IDENTIFIER"; "STRING"; "NUMBER";
    (* Operators *)
    "PLUS"; "MINUS"; "MULTIPLY"; "DIVIDE"; "MODULO"; "ASSIGN"; "EQ"; "NEQ";
    "LT"; "GT"; "LTE"; "GTE";
    (* Structure symbols *)
    "LPAREN"; "RPAREN"; "LBRACE"; "RBRACE"; "COLON"; "COMMA"; "SEMICOLON";
    "DOT";
    (* Special *)
    "EOF_TOKEN"; "UNKNOWN"; "COMMENT" ].

(** [std::to_string] on an [int]. *)
Definition to_string (z : Z) : string := NilZero.string_of_int (Z.to_int z).

(** [Token::toString], format [[TYPE, 'text', line: #, col: #]]; [None]
    stands for a read outside [TokenTypeStrings]. *)
Definition Token_toString (t : Token.Token) : option string :=
  match nth_error TokenTypeStrings (TokenType_index (Token.type t)) with
  | Some name =>
      Some ("[" ++ name ++ ", '" ++ Token.lexeme t
            ++ "', line: " ++ to_string (Token.line t)
            ++ ", col: " ++ to_string (Token.column t) ++ "]")
  | None => None
  end.

(** The upper-case form of a keyword, for comparing the names of the
    keyword kinds with the keyword table of the lexer. *)
Definition toupper (c : ascii) : ascii :=
  let n := nat_of_ascii c in
  if Nat.leb 97 n && Nat.leb n 122 then ascii_of_nat (n - 32) else c.

Fixpoint uppercase (s : string) : string :=
  match s with
  | EmptyString => EmptyString
  | String c rest => String (toupper c) (uppercase rest)
  end.

(** ** Further notions about the lexer *)

(** The number of newline characters among the first [i] characters. *)
Fixpoint newlines_before (s : string) (i : nat) : Z :=
  match i, s with
  | S i', String c rest =>
      ((if Ascii.eqb c "010" then 1 else 0) + newlines_before rest i')%Z
  | _, _ => 0%Z
  end.

Module LexerScan.
Import Lexer LexerSpec.

(** The state in which [nextToken] starts a token: whitespace skipped and
    the token start marked. *)
Definition entry (l : Lexer) : Lexer := mark_start (skipWhitespace l).

(** The first character of the token, and the state after consuming it. *)
Definition entry_char (l : Lexer) : ascii :=
  char_at (source (entry l)) (position (entry l)).
Definition after_first (l : Lexer) : Lexer := snd (advance (entry l)).

(** The cases of the [switch] of [nextToken] that return a one-character
    token. *)
Definition simple_kind (c : ascii) : option TokenType :=
  if Ascii.eqb c "(" then Some LPAREN
  else if Ascii.eqb c ")" then Some RPAREN
  else if Ascii.eqb c "{" then Some LBRACE
  else if Ascii.eqb c "}" then Some RBRACE
  else if Ascii.eqb c ":" then Some COLON
  else if Ascii.eqb c "," then Some COMMA
  else if Ascii.eqb c ";" then Some SEMICOLON
  else if Ascii.eqb c "." then Some DOT
  else if Ascii.eqb c "+" then Some PLUS
  else if Ascii.eqb c "-" then Some MINUS
  else if Ascii.eqb c "*" then Some MULTIPLY
  else None.

(** The cases that look at one more character: the kind when [=] follows,
    and the kind otherwise. *)
Definition two_char_kind (c : ascii) : option (TokenType * TokenType) :=
  if Ascii.eqb c "=" then Some (EQ, ASSIGN)
  else if Ascii.eqb c "!" then Some (NEQ, NOT)
  else if Ascii.eqb c "<" then Some (LTE, LT)
  else if Ascii.eqb c ">" then Some (GTE, GT)
  else None.

(** The moves of the cursor inside one token: the token start stays. *)
Inductive scan_step : Lexer -> Lexer -> Prop :=
  | scan_advance l :
      isAtEnd l = false ->
      char_at (source l) (position l) <> "010"%char ->
      scan_step l (snd (advance l))
  | scan_newline l :
      isAtEnd l = false ->
      char_at (source l) (position l) = "010"%char ->
      scan_step l (snd (advance (newline l))).

Definition scans : Lexer -> Lexer -> Prop := rtc scan_step.

(** Moves over characters other than a newline. *)
Inductive plain_step : Lexer -> Lexer -> Prop :=
  | plain_advance l :
      isAtEnd l = false ->
      char_at (source l) (position l) <> "010"%char ->
      plain_step l (snd (advance l)).

Definition plain_scans : Lexer -> Lexer -> Prop := rtc plain_step.

(** How [nextToken] moves from [l] to [l'] when it returns [t]: it first
    reaches the token start [e], then scans the token; an end-of-input
    token is empty, any other covers at least one character, and only a
    string (or the lex-error token of an unterminated one) can cover a
    newline. *)
Definition spans (l : Lexer) (t : Token.Token) (l' : Lexer) : Prop :=
  exists e,
    steps l e /\ start e = position e /\ scans e l' /\
    (Token.type t = EOF_TOKEN -> l' = e /\ isAtEnd e = true) /\
    (Token.type t <> EOF_TOKEN ->
     isAtEnd e = false /\ position e < position l') /\
    (Token.type t <> STRING -> Token.type t <> UNKNOWN -> plain_scans e l').

(** What the cursor knows about its place in the source [src]: [line] is
    one more than the number of newlines consumed, and [column] is the
    column of the cursor, plus one on every line after the first. *)
Record tracks (src : String.string) (l : Lexer) : Prop := {
  tracks_source : source l = src;
  tracks_position : position l <= String.length src;
  tracks_line : line l = (1 + newlines_before src (position l))%Z;
  tracks_column :
    column l
    = (column_of src (position l) + if Z.eqb (line l) 1 then 0 else 1)%Z
}.

End LexerScan.


(** Every character of [s] satisfies [p]. *)
Fixpoint string_forall (p : ascii -> bool) (s : string) : bool :=
  match s with
  | EmptyString => true
  | String c rest => p c && string_forall p rest
  end.

(** The characters that may start and continue an identifier. *)
Definition identifier_start (c : ascii) : bool :=
  isalpha c || Ascii.eqb c "_".
Definition identifier_char (c : ascii) : bool :=
  isalnum c || Ascii.eqb c "_".

(** A decimal numeral: digits, optionally followed by a dot and digits. *)
Definition is_decimal (s : string) : Prop :=
  exists whole frac,
    whole <> "" /\ string_forall isdigit whole = true /\
    string_forall isdigit frac = true /\
    (s = whole \/ (frac <> "" /\ s = whole ++ String "." frac)).

(** The kinds of the operator and punctuation tokens. *)
Definition is_symbol_type (ty : TokenType) : bool :=
  match ty with
  | LPAREN | RPAREN | LBRACE | RBRACE | COLON | COMMA | SEMICOLON | DOT
  | PLUS | MINUS | MULTIPLY | DIVIDE | EQ | ASSIGN | NEQ | NOT | LTE | LT
  | GTE | GT => true
  | _ => false
  end.

(** The tokens by the text they carry. *)
Inductive lexed (t : Token.Token) : Prop :=
  | lexed_eof :
      Token.type t = EOF_TOKEN -> Token.lexeme t = "" -> lexed t
  | lexed_error :
      Token.type t = UNKNOWN ->
      Token.lexeme t = "Unexpected character."
      \/ Token.lexeme t = "Unterminated string." ->
      lexed t
  | lexed_word c rest :
      Token.lexeme t = String c rest ->
      identifier_start c = true ->
      string_forall identifier_char rest = true ->
      Token.type t = match Lexer.keywords !! Token.lexeme t with
                     | Some ty => ty
                     | None => IDENTIFIER
                     end ->
      lexed t
  | lexed_number :
      Token.type t = NUMBER -> is_decimal (Token.lexeme t) -> lexed t
  | lexed_string body :
      Token.type t = STRING ->
      Token.lexeme t = quoted body ->
      string_forall (fun c => negb (Ascii.eqb c dquote)) body = true ->
      lexed t
  | lexed_symbol c rest :
      Token.lexeme t = String c rest ->
      identifier_start c = false ->
      is_symbol_type (Token.type t) = true ->
      lexed t.

(** ** Further notions about the parser *)

Module ParserTrace.
Import Parser.

Definition nonempty {A} (l : list A) : bool :=
  match l with
  | [] => false
  | _ :: _ => true
  end.

(** What a run of parser code did to the parser state: it read [k] tokens
    from the lexer, the last of which is the current one, and wrote the
    diagnostics [new]; the error flag is set when it wrote any. *)
Record effect (k : nat) (new : list Diagnostic) (p p' : Parser) : Prop := {
  effect_lexer : lexer p' = Lexer.run k (lexer p);
  effect_current :
    current p' = match k with
                 | O => current p
                 | S j => Lexer.nth_token j (lexer p)
                 end;
  effect_cerr : cerr p' = (cerr p ++ new)%list;
  effect_flag : errorOccurred p' = errorOccurred p || nonempty new
}.

Definition reaches (p p' : Parser) : Prop :=
  exists k new, effect k new p p'.

(** A run that read a token or wrote a diagnostic. *)
Definition moves (p p' : Parser) : Prop :=
  exists k new, effect k new p p' /\ (0 < k \/ new <> []).

(** A run that read at least one token. *)
Definition eats (p p' : Parser) : Prop :=
  exists k new, effect k new p p' /\ 0 < k.

(** Started in the state [q], which a run from [q0] reached, [m] only
    returns after a token was read since [q0]. *)
Definition eats_from {A} (q0 : Parser) (m : M A) (q : Parser) : Prop :=
  reaches q0 q ->
  match m q with
  | Ok _ p' => eats q0 p'
  | Throw _ | Crash | OutOfFuel => True
  end.

(** Every run of [m] that returns or throws relates its final state to its
    initial state by [R]. *)
Definition outcome {A} (R : Parser -> Parser -> Prop) (m : M A) : Prop :=
  forall p,
    match m p with
    | Ok _ p' | Throw p' => R p p'
    | Crash | OutOfFuel => True
    end.

(** Every run of [m] that returns relates its final state to its initial
    state by [R]. *)
Definition returns {A} (R : Parser -> Parser -> Prop) (m : M A) : Prop :=
  forall p,
    match m p with
    | Ok _ p' => R p p'
    | Throw _ | Crash | OutOfFuel => True
    end.

(** No run of [m] lets an exception escape. *)
Definition catches {A} (m : M A) : Prop := forall p p', m p <> Throw p'.

(** The states in which [synchronize] returns. *)
Definition synchronized (p : Parser) : Prop :=
  Token.type (current p) = EOF_TOKEN
  \/ Token.type (previous p) = SEMICOLON
  \/ is_sync_point (Token.type (current p)) = true.

(** The binary operators that cannot start an expression. *)
Definition binary_operator (ty : TokenType) : bool :=
  match ty with
  | MULTIPLY | DIVIDE | MODULO | PLUS | GT | GTE | LT | LTE | EQ | NEQ
  | AND | OR => true
  | _ => false
  end.

(** A bound on the number of tokens before the end of the input: none at
    an end-of-input token, and otherwise the current token and at most one
    token for each character that the lexer has not read. *)
Definition tokens_ahead (p : Parser) : nat :=
  if TokenType_eqb (Token.type (current p)) EOF_TOKEN then 0
  else S (Lexer.remaining (lexer p)).

(** With fewer than [n] tokens ahead, [m] does not run out of fuel, and it
    leaves no more tokens ahead than it found. *)
Definition ends {A} (n : nat) (m : M A) : Prop :=
  forall p, tokens_ahead p < n ->
    match m p with
    | Ok _ p' | Throw p' => tokens_ahead p' <= tokens_ahead p
    | Crash => True
    | OutOfFuel => False
    end.

(** A test that either reads the current token, which is then not the
    end-of-input token, or leaves the parser as it is. *)
Definition guard (matches : M bool) : Prop :=
  forall p,
    (matches p = Ok true (advanced p)
     /\ Token.type (current p) <> EOF_TOKEN)
    \/ matches p = Ok false p.

(** The kinds at which [parseUnary] consumes a token: the start of a
    primary expression, a prefix operator, or the dot of a property
    access. *)
Definition starts_operand (ty : TokenType) : bool :=
  match ty with
  | FALSE | TRUE | NUMBER | STRING | IDENTIFIER | LPAREN | MINUS | NOT
  | DOT => true
  | _ => false
  end.



(** The outcome of a binary level at an operator of that level or of an
    inner one: no expression; at an operator of an outer level: a null
    expression, after the diagnostic of [parsePrimary]. *)
Definition stuck_or_null (outer : TokenType -> bool)
    (m : M (option Expression)) (p : Parser) : Prop :=
  if outer (Token.type (current p))
  then m p = Ok None (ParserSpec.record_error "Expected expression." p)
  else forall e p', m p <> Ok e p'.

End ParserTrace.

(** ** The driver ([src/main.cpp]) *)

Module Main.

(** How a run of [main] ends: with an exit code, after writing the lines
    [cout] to the standard output and [cerr] to the standard error; with
    a crash (a null pointer dereference, an exception that nobody catches,
    a read outside a table); or not within the fuel. *)
Inductive Run : Type :=
  | Exit (code : Z) (cout cerr : list string)
  | Crashed
  | Unfinished.

(** The file system maps a path to the content of the file, if it can be
    opened.  [readFile] returns the content and what it wrote to the
    standard error. *)
Definition readFile (fs : string -> option string) (path : string)
  : string * list string :=
  match fs path with
  | None => ("", ["Could not open file: " ++ path])
  | Some content => (content, [])
  end.

Fixpoint printTokens (tokens : list Token.Token) : option (list string) :=
  match tokens with
  | [] => Some []
  | token :: rest =>
      match Token_toString token, printTokens rest with
      | Some line, Some lines => Some (line :: lines)
      | _, _ => None
      end
  end.

(** The line that [Parser::error] writes for a diagnostic. *)
Definition Diagnostic_line (d : Parser.Diagnostic) : string :=
  "Error at " ++ to_string (Parser.diag_line d) ++ ":"
  ++ to_string (Parser.diag_column d) ++ " - " ++ Parser.diag_message d.

(** [main], given [argv[0]] and the arguments after it. *)
Definition main (fuel : nat) (fs : string -> option string)
    (argv0 : string) (args : list string) : Run :=
  match args with
  | [] => Exit 1 [] ["Usage: " ++ argv0 ++ " <script.story>"]
  | path :: _ =>
      let '(source, err) := readFile fs path in
      if String.eqb source "" then Exit 1 [] err
      else
        (* Create lexer and tokenize the source *)
        match Lexer.tokenize fuel (Lexer.new source path) with
        | None => Unfinished
        | Some (tokens, _) =>
            match printTokens tokens with
            | None => Crashed
            | Some lines =>
                let out :=
                  ("===== Tokens =====" :: lines
                   ++ [""; "===== Parsing ====="])%list in
                (* Reset lexer and create parser *)
                let parser := Parser.new (Lexer.new source path) in
                match Parser.parse fuel parser with
                | Parser.Ok _ p =>
                    let err :=
                      (err ++ map Diagnostic_line (Parser.cerr p))%list in
                    if Parser.hadError p
                    then Exit 1
                           (out ++ ["Parsing failed with errors."])%list err
                    else Exit 0
                           (out ++ ["Parsing completed successfully!"])%list
                           err
                | Parser.Throw _ | Parser.Crash => Crashed
                | Parser.OutOfFuel => Unfinished
                end
            end
        end
  end.

End Main.

(** * Properties of the lexer *)

Module LexerFacts.
Import Lexer LexerSpec.

Lemma peek_not_null l c :
  peek l = c -> c <> "000"%char ->
  isAtEnd l = false /\ char_at (source l) (position l) = c.
Proof.
  unfold peek. destruct (isAtEnd l); intros <- H; [congruence | done].
Qed.

Lemma peek_at_end l : isAtEnd l = true -> peek l = "000"%char.
Proof. unfold peek. by intros ->. Qed.

Lemma isAtEnd_remaining l : isAtEnd l = true <-> remaining l = 0.
Proof.
  unfold isAtEnd, remaining. rewrite Nat.leb_le. lia.
Qed.

Lemma remaining_advance l :
  remaining (snd (advance l)) = remaining l - 1.
Proof. unfold remaining. simpl. lia. Qed.

Lemma remaining_advance_newline l :
  remaining (snd (advance (newline l))) = remaining l - 1.
Proof. unfold remaining. simpl. lia. Qed.

Lemma eqb_peek l c :
  Ascii.eqb (peek l) c = true -> c <> "000"%char ->
  isAtEnd l = false /\ char_at (source l) (position l) = c.
Proof.
  intros H%Ascii.eqb_eq Hc. by apply peek_not_null.
Qed.

(** A character that [isalnum], [isdigit] or [isalpha] accepts is neither
    the null character nor a newline. *)
Lemma isdigit_plain c : isdigit c = true -> c <> "000"%char /\ c <> "010"%char.
Proof. intros H; split; intros ->; discriminate H. Qed.

Lemma isalpha_plain c : isalpha c = true -> c <> "000"%char /\ c <> "010"%char.
Proof. intros H; split; intros ->; discriminate H. Qed.

Lemma isalnum_plain c : isalnum c = true -> c <> "000"%char /\ c <> "010"%char.
Proof.
  unfold isalnum. intros [H|H]%orb_true_iff;
    [by apply isalpha_plain | by apply isdigit_plain].
Qed.

(** ** The scanning loops *)

Lemma identifier_cond_plain : plain_cond identifier_cond.
Proof.
  intros l. unfold identifier_cond. intros [H|H]%orb_true_iff.
  - destruct (isalnum_plain _ H) as [H0 Hn].
    destruct (peek_not_null l _ eq_refl H0) as [? ->]. done.
  - apply eqb_peek in H as [? ->]; done.
Qed.

Lemma digits_cond_plain : plain_cond digits_cond.
Proof.
  intros l. unfold digits_cond. intros H.
  destruct (isdigit_plain _ H) as [H0 Hn].
  destruct (peek_not_null l _ eq_refl H0) as [? ->]. done.
Qed.

Lemma comment_cond_plain : plain_cond comment_cond.
Proof.
  intros l. unfold comment_cond.
  intros [H1 H2]%andb_true_iff.
  apply negb_true_iff in H1, H2. split; [done|].
  intros E. unfold peek in H1. rewrite H2, E in H1. discriminate.
Qed.

Lemma advance_while_steps cond n l :
  plain_cond cond -> steps l (advance_while cond n l).
Proof.
  intros Hc. revert l. induction n as [|n IH]; intros l; cbn [advance_while].
  - destruct (cond l); apply rtc_refl.
  - destruct (cond l) eqn:E; [|apply rtc_refl].
    destruct (Hc _ E). eapply rtc_l; [by apply step_advance|apply IH].
Qed.

Lemma advance_while_exit cond n l :
  plain_cond cond -> remaining l <= n ->
  cond (advance_while cond n l) = false.
Proof.
  intros Hc. revert l. induction n as [|n IH]; intros l Hn; cbn [advance_while].
  - destruct (cond l) eqn:E; [|done].
    destruct (Hc _ E) as [He _].
    assert (isAtEnd l = true) by (apply isAtEnd_remaining; lia). congruence.
  - destruct (cond l) eqn:E; [|done].
    apply IH. rewrite remaining_advance. lia.
Qed.

Lemma string_cond_not_at_end l : string_cond l = true -> isAtEnd l = false.
Proof.
  unfold string_cond. intros [_ H]%andb_true_iff. by apply negb_true_iff.
Qed.

Lemma string_loop_steps n l : steps l (string_loop n l).
Proof.
  revert l. induction n as [|n IH]; intros l; cbn [string_loop].
  - destruct (string_cond l); apply rtc_refl.
  - destruct (string_cond l) eqn:E; [|apply rtc_refl].
    pose proof (string_cond_not_at_end _ E) as He.
    destruct (Ascii.eqb (peek l) "010") eqn:Ep.
    + apply eqb_peek in Ep as [_ Ep]; [|done].
      eapply rtc_l; [by apply step_newline|apply IH].
    + eapply rtc_l; [|apply IH]. apply step_advance; [done|].
      intros Ec. unfold peek in Ep. rewrite He, Ec in Ep. discriminate.
Qed.

Lemma string_loop_exit n l :
  remaining l <= n -> string_cond (string_loop n l) = false.
Proof.
  revert l. induction n as [|n IH]; intros l Hn; cbn [string_loop].
  - destruct (string_cond l) eqn:E; [|done].
    pose proof (string_cond_not_at_end _ E).
    assert (isAtEnd l = true) by (apply isAtEnd_remaining; lia). congruence.
  - destruct (string_cond l) eqn:E; [|done].
    apply IH. destruct (Ascii.eqb (peek l) "010").
    + rewrite remaining_advance_newline. lia.
    + rewrite remaining_advance. lia.
Qed.

Lemma skipWhitespace_loop_steps n l : steps l (skipWhitespace_loop n l).
Proof.
  revert l. induction n as [|n IH]; intros l; cbn [skipWhitespace_loop].
  - repeat case_match; apply rtc_refl.
  - destruct (_ || _) eqn:E.
    + eapply rtc_l; [|apply IH].
      assert (peek l <> "000"%char /\ peek l <> "010"%char) as [H0 Hn].
      { split; intros Ep; rewrite Ep in E; discriminate. }
      destruct (peek_not_null l _ eq_refl H0) as [? Hc].
      apply step_advance; [done|]. by rewrite Hc.
    + destruct (Ascii.eqb (peek l) "010") eqn:Ep; [|apply rtc_refl].
      apply eqb_peek in Ep as [? ?]; [|done].
      eapply rtc_l; [by apply step_newline|apply IH].
Qed.

Lemma skipWhitespace_loop_exit n l :
  remaining l <= n -> is_space (peek (skipWhitespace_loop n l)) = false.
Proof.
  revert l. induction n as [|n IH]; intros l Hn; cbn [skipWhitespace_loop].
  - assert (peek l = "000"%char) as Hp.
    { apply peek_at_end, isAtEnd_remaining. lia. }
    rewrite Hp. cbn. by rewrite Hp.
  - destruct (_ || _) eqn:E.
    + apply IH. rewrite remaining_advance. lia.
    + destruct (Ascii.eqb (peek l) "010") eqn:Ep.
      * apply IH. rewrite remaining_advance_newline. lia.
      * unfold is_space. by rewrite E, Ep.
Qed.

Lemma skipWhitespace_steps l : steps l (skipWhitespace l).
Proof. apply skipWhitespace_loop_steps. Qed.

Lemma skipWhitespace_exit l : is_space (peek (skipWhitespace l)) = false.
Proof. by apply skipWhitespace_loop_exit. Qed.

(** Every loop of the lexer stops with its C++ condition false. *)
Lemma loops_exit l :
  identifier_cond (advance_while identifier_cond (remaining l) l) = false
  /\ digits_cond (advance_while digits_cond (remaining l) l) = false
  /\ comment_cond (advance_while comment_cond (remaining l) l) = false
  /\ string_cond (string_loop (remaining l) l) = false
  /\ is_space (peek (skipWhitespace l)) = false.
Proof.
  repeat split.
  - by apply advance_while_exit; [apply identifier_cond_plain|].
  - by apply advance_while_exit; [apply digits_cond_plain|].
  - by apply advance_while_exit; [apply comment_cond_plain|].
  - by apply string_loop_exit.
  - apply skipWhitespace_exit.
Qed.


(** ** What [nextToken] produces *)

Lemma keywords_range text ty :
  keywords !! text = Some ty -> is_keyword_type ty = true.
Proof.
  unfold keywords, initKeywords. intros H.
  repeat (apply lookup_insert_Some in H as [[_ <-]|[_ H]]; [reflexivity|]).
  by rewrite lookup_empty in H.
Qed.

Lemma produced_plain l l' ty :
  steps l l' -> lexer_kind ty = true -> ty <> EOF_TOKEN ->
  produced l (makeToken ty l') l'.
Proof.
  intros Hs Hk Hne. split; [done|]. left. exists ty. by repeat split.
Qed.

Lemma produced_steps l0 l t l' :
  steps l0 l -> produced l t l' -> produced l0 t l'.
Proof.
  intros H [Hs Ht]. split; [|done]. by eapply rtc_trans.
Qed.

Lemma match__steps expected l b l' :
  expected <> "010"%char -> match_ expected l = (b, l') -> steps l l'.
Proof.
  unfold match_. intros Hx.
  destruct (isAtEnd l) eqn:He; cbn [orb].
  - intros [= <- <-]. apply rtc_refl.
  - destruct (Ascii.eqb _ expected) eqn:Ec; cbn [negb].
    + intros [= <- <-]. apply Ascii.eqb_eq in Ec.
      apply rtc_once. apply (step_advance l); [done|]. by rewrite Ec.
    + intros [= <- <-]. apply rtc_refl.
Qed.

Lemma identifier_produced l t l' :
  identifier l = (t, l') -> produced l t l'.
Proof.
  unfold identifier. intros [= <- <-].
  apply produced_plain.
  - apply advance_while_steps, identifier_cond_plain.
  - destruct (keywords !! _) as [ty|] eqn:E; [|done].
    apply keywords_range in E. by destruct ty.
  - destruct (keywords !! _) as [ty|] eqn:E; [|done].
    apply keywords_range in E. by destruct ty.
Qed.

Lemma number_produced l t l' :
  number l = (t, l') -> produced l t l'.
Proof.
  unfold number. intros [= <- <-].
  apply produced_plain; [|done..].
  set (l1 := advance_while digits_cond (remaining l) l).
  assert (steps l l1) as H1 by apply advance_while_steps, digits_cond_plain.
  destruct (Ascii.eqb (peek l1) "." && isdigit (peekNext l1)) eqn:E; [|done].
  apply andb_true_iff in E as [E _].
  apply eqb_peek in E as [He Ec]; [|done].
  eapply rtc_trans; [exact H1|].
  eapply rtc_l.
  - apply (step_advance l1); [done|]. by rewrite Ec.
  - apply advance_while_steps, digits_cond_plain.
Qed.

Lemma string_produced l t l' :
  string l = (t, l') -> produced l t l'.
Proof.
  unfold string.
  set (l1 := string_loop (remaining l) l).
  assert (steps l l1) as H1 by apply string_loop_steps.
  pose proof (string_loop_exit (remaining l) l (le_n _)) as Hx.
  fold l1 in Hx.
  destruct (isAtEnd l1) eqn:He; intros [= <- <-].
  - split; [done|]. by right; right.
  - apply produced_plain; [|done..].
    eapply rtc_r; [exact H1|].
    apply (step_advance l1); [done|].
    unfold string_cond in Hx. rewrite He in Hx.
    rewrite andb_true_r in Hx. apply negb_false_iff, Ascii.eqb_eq in Hx.
    unfold peek in Hx. rewrite He in Hx. by rewrite Hx.
Qed.

Lemma peek_mark_start l : peek (mark_start l) = peek l.
Proof. reflexivity. Qed.

Lemma nextToken_aux_produced fuel l t l' :
  nextToken_aux fuel l = Some (t, l') -> produced l t l'.
Proof.
  revert l. induction fuel as [|fuel IH]; intros l;
    cbn [nextToken_aux];
    set (l1 := mark_start (skipWhitespace l));
    (assert (steps l l1) as H1
       by (eapply rtc_r; [apply skipWhitespace_steps|apply step_mark]));
    pose proof (skipWhitespace_exit l) as Hsp;
    rewrite <- peek_mark_start in Hsp; fold l1 in Hsp;
    (destruct (isAtEnd l1) eqn:He;
     [ intros [= <- <-]; split; [done|]; left; exists EOF_TOKEN;
       by repeat split
     | ]);
    unfold peek in Hsp; rewrite He in Hsp;
    (assert (step l1 (snd (advance l1))) as H2
       by (apply step_advance; [done|];
           intros Ec; rewrite Ec in Hsp; discriminate));
    (assert (steps l (snd (advance l1))) as H3 by (by eapply rtc_r));
    unfold advance at 1; cbv beta iota;
    change (mk (source l1) (filename l1) (S (position l1)) (start l1)
              (line l1) (int_wrap (column l1 + 1)))
      with (snd (advance l1)) in *;
    set (l2 := snd (advance l1)) in *;
    set (c := char_at (source l1) (position l1)) in *;
    repeat (case_match; simplify_eq);
    intros Heq; simplify_eq;
    try (by apply produced_plain);
    try (by eapply produced_steps; [exact H3|];
         first [ by apply identifier_produced
               | by apply number_produced
               | by apply string_produced ]);
    try (by split; [done|]; right; left);
    try (by apply produced_plain; [|done..];
         eapply rtc_trans; [exact H3|];
         eapply match__steps; [|eassumption]).
  - eapply produced_steps; [|by apply IH].
    eapply rtc_trans; [exact H3|].
    eapply rtc_trans; [eapply (match__steps "/"); [done|eassumption]|].
    apply advance_while_steps, comment_cond_plain.
Qed.


(** ** [nextToken] is total *)

Lemma step_source l l' :
  step l l' -> source l' = source l /\ filename l' = filename l.
Proof. by destruct 1. Qed.

Lemma steps_source l l' :
  steps l l' -> source l' = source l /\ filename l' = filename l.
Proof.
  induction 1 as [|x y z Hxy _ [IH1 IH2]]; [done|].
  destruct (step_source _ _ Hxy) as [E1 E2]. by rewrite IH1, IH2.
Qed.

Lemma step_remaining l l' : step l l' -> remaining l' <= remaining l.
Proof. destruct 1; unfold remaining; simpl; lia. Qed.

Lemma steps_remaining l l' : steps l l' -> remaining l' <= remaining l.
Proof.
  induction 1 as [|x y z Hxy _ IH]; [done|].
  pose proof (step_remaining _ _ Hxy). lia.
Qed.

Lemma nextToken_aux_total fuel l :
  remaining l <= fuel -> is_Some (nextToken_aux fuel l).
Proof.
  revert l. induction fuel as [|fuel IH]; intros l Hf;
    cbn [nextToken_aux];
    set (l1 := mark_start (skipWhitespace l));
    (assert (remaining l1 <= remaining l) as H1
       by (apply (steps_remaining l (skipWhitespace l)),
             skipWhitespace_steps));
    (destruct (isAtEnd l1) eqn:He; [by eexists|]);
    (assert (remaining l1 <> 0) as Hr
       by (intros Hr%isAtEnd_remaining; congruence));
    [lia|].
  unfold advance at 1; cbv beta iota.
  change (mk (source l1) (filename l1) (S (position l1)) (start l1)
            (line l1) (int_wrap (column l1 + 1)))
    with (snd (advance l1)).
  set (l2 := snd (advance l1)) in *.
  repeat (case_match; simplify_eq); try (by eexists).
  apply IH.
  match goal with H : match_ _ ?a = (_, ?b) |- _ =>
    apply match__steps in H; [|done]; apply steps_remaining in H;
    pose proof (steps_remaining _ _
                  (advance_while_steps comment_cond (remaining b) b
                     comment_cond_plain))
  end.
  pose proof (remaining_advance l1) as Ha. fold l2 in Ha. lia.
Qed.

Lemma nextToken_produced l t l' :
  nextToken l = (t, l') -> produced l t l'.
Proof.
  unfold nextToken.
  destruct (nextToken_aux_total (remaining l) l (le_n _)) as [[t0 l0] E].
  rewrite E. intros [= <- <-]. by eapply nextToken_aux_produced.
Qed.

Lemma nextToken_source l :
  source (snd (nextToken l)) = source l
  /\ filename (snd (nextToken l)) = filename l.
Proof.
  destruct (nextToken l) as [t l'] eqn:E.
  apply nextToken_produced in E as [Hs _]. by apply steps_source.
Qed.

(** ** Successive calls *)

Lemma run_S n l : run (S n) l = snd (nextToken (run n l)).
Proof.
  revert l. induction n as [|n IH]; intros l; [done|].
  change (run (S (S n)) l) with (run (S n) (snd (nextToken l))).
  by rewrite IH.
Qed.

Lemma run_steps n l : steps l (run n l).
Proof.
  induction n as [|n IH]; [apply rtc_refl|].
  rewrite run_S. destruct (nextToken (run n l)) as [t l'] eqn:E.
  apply nextToken_produced in E as [Hs _]. by eapply rtc_trans.
Qed.

Lemma nth_token_produced n l :
  produced (run n l) (nth_token n l) (run (S n) l).
Proof.
  rewrite run_S. unfold nth_token.
  destruct (nextToken (run n l)) eqn:E. by apply nextToken_produced.
Qed.

(** ** End of input *)

Lemma skipWhitespace_at_end l : isAtEnd l = true -> skipWhitespace l = l.
Proof.
  intros He. unfold skipWhitespace.
  pose proof (peek_at_end _ He) as Hp.
  destruct (remaining l); cbn [skipWhitespace_loop]; by rewrite Hp.
Qed.

Lemma nextToken_at_end l :
  isAtEnd l = true -> start l = position l ->
  nextToken l = (makeToken EOF_TOKEN l, l).
Proof.
  intros He Hs.
  assert (mark_start l = l) as Hm.
  { unfold mark_start. destruct l; simpl in *. by subst. }
  unfold nextToken.
  destruct (remaining l); cbn [nextToken_aux];
    by rewrite (skipWhitespace_at_end _ He), Hm, He.
Qed.

Lemma makeToken_type ty l : Token.type (makeToken ty l) = ty.
Proof. reflexivity. Qed.

Lemma nextToken_eof l t l' :
  nextToken l = (t, l') -> Token.type t = EOF_TOKEN ->
  nextToken l' = (t, l').
Proof.
  intros [_ H]%nextToken_produced Ht.
  destruct H as [(ty & -> & _ & Hty)|[->| ->]]; [|done..].
  rewrite makeToken_type in Ht. subst ty.
  destruct (Hty eq_refl) as [He Hs]. by rewrite (nextToken_at_end _ He Hs).
Qed.

Lemma run_eof l t l' k :
  nextToken l = (t, l') -> Token.type t = EOF_TOKEN ->
  run k l' = l' /\ nth_token k l' = t.
Proof.
  intros H Ht. pose proof (nextToken_eof _ _ _ H Ht) as H'.
  assert (run k l' = l') as Hr.
  { induction k as [|k IH]; [done|]. rewrite run_S, IH. by rewrite H'. }
  split; [done|]. unfold nth_token. by rewrite Hr, H'.
Qed.

Lemma run_add n k l : run (n + k) l = run k (run n l).
Proof.
  revert l. induction n as [|n IH]; intros l; [done|].
  cbn [Nat.add run]. apply IH.
Qed.

(** ** The modulo operator *)

Lemma produced_not_MODULO l t l' :
  produced l t l' -> Token.type t <> MODULO.
Proof.
  intros [_ [(ty & -> & Hk & _)|[->| ->]]]; [|done..].
  rewrite makeToken_type. by destruct ty.
Qed.

(** ** Invariants of the scan cursor *)

Lemma int_wrap_small z : (- 2 ^ 31 <= z < 2 ^ 31)%Z -> int_wrap z = z.
Proof.
  intros H. unfold int_wrap.
  rewrite Z.mod_small; lia.
Qed.

Lemma not_at_end l :
  isAtEnd l = false -> position l < String.length (source l).
Proof. unfold isAtEnd. intros H%Nat.leb_gt. done. Qed.

Section Invariants.
Variable src : String.string.
Hypothesis src_short : (Z.of_nat (String.length src) < 2 ^ 31 - 1)%Z.

Lemma inv_new fname : inv src (new src fname).
Proof. split; simpl; try done; try lia. Qed.

Lemma inv_step l l' : step l l' -> inv src l -> inv src l'.
Proof.
  destruct 1 as [l He Hc|l He Hc|l]; intros [Hs H1 H2 H3 H4 H5].
  - apply not_at_end in He. rewrite Hs in He, Hc.
    split; cbn [advance snd source start position line column];
      try done; try lia.
    + intros Hl. rewrite (H4 Hl), int_wrap_small; lia.
    + intros Hl i Hi. destruct (decide (i = position l)) as [->|];
        [done|]. apply H5; [done|lia].
  - apply not_at_end in He. rewrite Hs in He.
    assert (int_wrap (line l + 1) = line l + 1)%Z as Hw
      by (rewrite int_wrap_small; lia).
    split;
      cbn [advance newline snd source start position line column];
      try done; rewrite ?Hw; try lia.
  - split; cbn [mark_start source start position line column];
      try done; lia.
Qed.

Lemma inv_steps l l' : steps l l' -> inv src l -> inv src l'.
Proof. induction 1; eauto using inv_step. Qed.

Lemma inv_run fname n : inv src (run n (new src fname)).
Proof. eapply inv_steps; [apply run_steps|apply inv_new]. Qed.
End Invariants.

Lemma length_substring s n m :
  n + m <= String.length s -> String.length (String.substring n m s) = m.
Proof.
  revert n m. induction s as [|c s IH]; intros n m; simpl.
  - intros H. assert (n = 0) as -> by lia. assert (m = 0) as -> by lia.
    done.
  - destruct n as [|n]; destruct m as [|m]; simpl; intros H; try done.
    + rewrite IH; [done|lia].
    + apply IH. lia.
    + apply IH. lia.
Qed.

Lemma column_scan_no_newline s i col :
  (forall j, j < i -> char_at s j <> "010"%char) ->
  i <= String.length s ->
  column_scan s i col = (col + Z.of_nat i)%Z.
Proof.
  revert i col. induction s as [|c s IH]; intros i col Hn Hi.
  - simpl in Hi. assert (i = 0) as -> by lia. simpl. lia.
  - destruct i as [|i]; [simpl; lia|].
    cbn [column_scan].
    assert (Ascii.eqb c "010" = false) as ->.
    { apply Ascii.eqb_neq. apply (Hn 0). lia. }
    rewrite IH.
    + lia.
    + intros j Hj. apply (Hn (S j)). lia.
    + simpl in Hi. lia.
Qed.

End LexerFacts.
(** * Properties of the parser *)

Module ParserFacts.
Import Parser ParserSpec.


Lemma parseStatement_no_progress fuel p :
  no_progress (Token.type (current p)) = true ->
  parseStatement fuel p =
    Ok (ExpressionStmt (Lexer.getCurrentLocation (lexer p)) None)
       (record_error "Expected ';' after expression."
          (record_error "Expected expression." p)).
Proof.
  destruct p as [lx [ty lex ln col] prev eo ce]. cbn [current Token.type].
  intros H. destruct ty; try discriminate H; destruct fuel; reflexivity.
Qed.

Lemma bind_Ok {A B} (m : M A) (k : A -> M B) p a p' :
  m p = Ok a p' -> bind m k p = k a p'.
Proof. unfold bind. by intros ->. Qed.

Lemma bind_OutOfFuel {A B} (m : M A) (k : A -> M B) p :
  m p = OutOfFuel -> bind m k p = OutOfFuel.
Proof. unfold bind. by intros ->. Qed.

Lemma check_eq ty p :
  check ty p = Ok (TokenType_eqb (Token.type (current p)) ty) p.
Proof. reflexivity. Qed.

Lemma match__false ty p :
  TokenType_eqb (Token.type (current p)) ty = false ->
  match_ ty p = Ok false p.
Proof. unfold match_. rewrite (bind_Ok _ _ _ _ _ (check_eq _ _)). by intros ->. Qed.

Lemma parseProgram_loop_spins fuel program p :
  blocks_program (Token.type (current p)) = true ->
  parseProgram_loop fuel program p = OutOfFuel.
Proof.
  revert program p. induction fuel as [|fuel IH]; intros program p H;
    cbn [parseProgram_loop];
    rewrite (bind_Ok _ _ _ _ _ (check_eq _ _));
    (assert (TokenType_eqb (Token.type (current p)) EOF_TOKEN = false)
       as -> by (by destruct (Token.type (current p))));
    [done|].
  assert (parseProgram_item fuel program p =
            Ok (addStatement
                  (ExpressionStmt (Lexer.getCurrentLocation (lexer p)) None)
                  program)
               (record_error "Expected ';' after expression."
                  (record_error "Expected expression." p))) as Hitem.
  { unfold parseProgram_item.
    rewrite (bind_Ok _ _ _ _ _ (match__false ROOM p ltac:(by destruct (Token.type (current p))))).
    rewrite (bind_Ok _ _ _ _ _ (match__false FUNCTION p ltac:(by destruct (Token.type (current p))))).
    rewrite (bind_Ok _ _ _ _ _ (parseStatement_no_progress fuel p ltac:(by destruct (Token.type (current p))))).
    done. }
  assert (try_catch (parseProgram_item fuel program)
            (do synchronize fuel then ret program) p = _) as Htry
    by (unfold try_catch at 1; rewrite Hitem; reflexivity).
  rewrite (bind_Ok _ _ _ _ _ Htry). by apply IH.
Qed.

Lemma parseBlock_loop_spins fuel' fuel statements p :
  blocks_block (Token.type (current p)) = true ->
  parseBlock_loop (parseStatement fuel') fuel statements p = OutOfFuel.
Proof.
  revert statements p. induction fuel as [|fuel IH]; intros statements p H;
    cbn [parseBlock_loop];
    rewrite (bind_Ok _ _ _ _ _ (check_eq _ _));
    rewrite (bind_Ok _ _ _ _ _ (check_eq _ _));
    (assert (TokenType_eqb (Token.type (current p)) RBRACE = false)
       as -> by (by destruct (Token.type (current p))));
    (assert (TokenType_eqb (Token.type (current p)) EOF_TOKEN = false)
       as -> by (by destruct (Token.type (current p))));
    cbn [negb andb]; [done|].
  rewrite (bind_Ok _ _ _ _ _ (parseStatement_no_progress fuel' p ltac:(by destruct (Token.type (current p))))).
  by apply IH.
Qed.

Lemma parseBlock_spins fuel' fuel p :
  blocks_block (Token.type (current p)) = true ->
  parseBlock (parseStatement fuel') fuel p = OutOfFuel.
Proof.
  intros H. unfold parseBlock.
  rewrite (bind_Ok _ _ _ _ _ (eq_refl : getCurrentLocation p = Ok _ p)).
  apply bind_OutOfFuel. by apply parseBlock_loop_spins.
Qed.


Lemma try_catch_OutOfFuel {A} (m h : M A) p :
  m p = OutOfFuel -> try_catch m h p = OutOfFuel.
Proof. unfold try_catch. by intros ->. Qed.

Lemma try_catch_Ok {A} (m h : M A) p a p' :
  m p = Ok a p' -> try_catch m h p = Ok a p'.
Proof. unfold try_catch. by intros ->. Qed.

Lemma parseProgram_loop_S fuel program :
  parseProgram_loop (S fuel) program =
    (let* at_eof := check EOF_TOKEN in
     if at_eof then ret program
     else
       let* program :=
         try_catch (parseProgram_item fuel program)
           (do synchronize fuel then ret program) in
       parseProgram_loop fuel program).
Proof. reflexivity. Qed.

Lemma parseRoom_loop_S fuel properties items events :
  parseRoom_loop (S fuel) properties items events =
    (let* at_rbrace := check RBRACE in
     let* at_eof := check EOF_TOKEN in
     if negb at_rbrace && negb at_eof then
       let* is_item := match_ ITEM in
       if is_item then
         let* item := parseItem fuel in
         parseRoom_loop fuel properties (items ++ [item])%list events
       else
         let* is_event := match_ WHEN in
         if is_event then
           let* eventType :=
             consume IDENTIFIER "Expected event type after 'when'." in
           let* body := parseBlock (parseStatement fuel) fuel in
           parseRoom_loop fuel properties items
             (events ++ [(Token.lexeme eventType, body)])%list
         else
           let* propertyName :=
             consume IDENTIFIER "Expected property name." in
           do consume COLON "Expected ':' after property name." then
           let* value := parseExpression fuel in
           do consume SEMICOLON "Expected ';' after property value." then
           parseRoom_loop fuel
             (properties ++ [(Token.lexeme propertyName, value)])%list
             items events
     else ret (properties, items, events)).
Proof. reflexivity. Qed.

(** One step of symbolic execution: run the first action of a [bind] on
    the concrete state it is applied to. *)
Ltac run_step :=
  lazymatch goal with
  | |- bind ?m ?k ?p = _ =>
      let r := eval vm_compute in (m p) in
      lazymatch r with
      | Ok ?a ?p' =>
          refine (eq_trans (bind_Ok m k p a p' _) _);
          [vm_compute; reflexivity | cbv beta iota delta [negb andb]]
      | OutOfFuel => apply bind_OutOfFuel; vm_compute; reflexivity
      end
  end.

End ParserFacts.
(** * More fuel never changes a result *)

Module FuelFacts.
Import Parser ParserSpec.

Create HintDb mono.

Lemma le_M_refl {A} (m : M A) : le_M m m.
Proof. intros p. by right. Qed.

Lemma le_M_outOfFuel {A} (m : M A) : le_M outOfFuel m.
Proof. intros p. by left. Qed.

Lemma bind_le {A B} (m m' : M A) (k k' : A -> M B) :
  le_M m m' -> (forall a, le_M (k a) (k' a)) -> le_M (bind m k) (bind m' k').
Proof.
  intros Hm Hk p. unfold bind.
  destruct (Hm p) as [-> | ->]; [by left|].
  destruct (m' p); [apply Hk|by right..].
Qed.

Lemma try_catch_le {A} (m m' h h' : M A) :
  le_M m m' -> le_M h h' -> le_M (try_catch m h) (try_catch m' h').
Proof.
  intros Hm Hh p. unfold try_catch.
  destruct (Hm p) as [-> | ->]; [by left|].
  destruct (m' p); [by right|apply Hh|by right..].
Qed.

#[local] Hint Resolve le_M_refl le_M_outOfFuel : mono.
#[local] Hint Extern 1 (_ <= _) => lia : mono.

(** Walks through two runs of the same code that differ in their fuel. *)
Ltac mono :=
  repeat first
    [ solve [eauto 3 with mono]
    | apply bind_le; [|intros ?]
    | apply try_catch_le
    | lazymatch goal with
      | |- le_M (if ?b then _ else _) (if ?b then _ else _) => destruct b
      | |- le_M (match ?x with _ => _ end) (match ?x with _ => _ end) =>
          destruct x
      | |- le_M (let '(_, _) := ?x in _) (let '(_, _) := ?x in _) =>
          destruct x
      end ].

Section Expressions.
Variables rec rec' : M (option Expression).
Hypothesis Hrec : le_M rec rec'.

Lemma parsePrimary_mono : le_M (parsePrimary rec) (parsePrimary rec').
Proof using Hrec. unfold parsePrimary. mono. Qed.
Hint Resolve parsePrimary_mono : mono.

Lemma finishCall_arguments_mono n n' :
  n <= n' -> forall arguments,
  le_M (finishCall_arguments rec n arguments)
       (finishCall_arguments rec' n' arguments).
Proof using Hrec.
  revert n'. induction n as [|n IH]; intros [|n'] Hle arguments;
    try lia; cbn [finishCall_arguments]; mono.
Qed.
Hint Resolve finishCall_arguments_mono : mono.

Lemma finishCall_mono n n' callee :
  n <= n' -> le_M (finishCall rec n callee) (finishCall rec' n' callee).
Proof using Hrec. intros Hle. unfold finishCall. mono. Qed.
Hint Resolve finishCall_mono : mono.

Lemma parseCall_loop_mono n n' :
  n <= n' -> forall expr,
  le_M (parseCall_loop rec n expr) (parseCall_loop rec' n' expr).
Proof using Hrec.
  revert n'. induction n as [|n IH]; intros [|n'] Hle expr;
    try lia; cbn [parseCall_loop]; mono.
Qed.
Hint Resolve parseCall_loop_mono : mono.

Lemma parseCall_mono n n' :
  n <= n' -> le_M (parseCall rec n) (parseCall rec' n').
Proof using Hrec. intros Hle. unfold parseCall. mono. Qed.
Hint Resolve parseCall_mono : mono.

Lemma parseUnary_mono n n' :
  n <= n' -> le_M (parseUnary rec n) (parseUnary rec' n').
Proof using Hrec.
  revert n'. induction n as [|n IH]; intros [|n'] Hle;
    try lia; cbn [parseUnary]; mono.
Qed.
Hint Resolve parseUnary_mono : mono.

Lemma binary_loop_mono matches operand operand' n n' :
  le_M operand operand' -> n <= n' -> forall expr,
  le_M (binary_loop matches operand n expr)
       (binary_loop matches operand' n' expr).
Proof.
  intros Hop. revert n'. induction n as [|n IH]; intros [|n'] Hle expr;
    try lia; cbn [binary_loop]; mono.
Qed.
Hint Resolve binary_loop_mono : mono.

Lemma parseFactor_mono n n' :
  n <= n' -> le_M (parseFactor rec n) (parseFactor rec' n').
Proof using Hrec. intros Hle. unfold parseFactor. mono. Qed.
Hint Resolve parseFactor_mono : mono.

Lemma parseTerm_mono n n' :
  n <= n' -> le_M (parseTerm rec n) (parseTerm rec' n').
Proof using Hrec. intros Hle. unfold parseTerm. mono. Qed.
Hint Resolve parseTerm_mono : mono.

Lemma parseComparison_mono n n' :
  n <= n' -> le_M (parseComparison rec n) (parseComparison rec' n').
Proof using Hrec. intros Hle. unfold parseComparison. mono. Qed.
Hint Resolve parseComparison_mono : mono.

Lemma parseEquality_mono n n' :
  n <= n' -> le_M (parseEquality rec n) (parseEquality rec' n').
Proof using Hrec. intros Hle. unfold parseEquality. mono. Qed.
Hint Resolve parseEquality_mono : mono.

Lemma parseLogicalAnd_mono n n' :
  n <= n' -> le_M (parseLogicalAnd rec n) (parseLogicalAnd rec' n').
Proof using Hrec. intros Hle. unfold parseLogicalAnd. mono. Qed.
Hint Resolve parseLogicalAnd_mono : mono.

Lemma parseLogicalOr_mono n n' :
  n <= n' -> le_M (parseLogicalOr rec n) (parseLogicalOr rec' n').
Proof using Hrec. intros Hle. unfold parseLogicalOr. mono. Qed.
Hint Resolve parseLogicalOr_mono : mono.

Lemma parseAssignment_mono n n' :
  n <= n' -> le_M (parseAssignment rec n) (parseAssignment rec' n').
Proof using Hrec.
  revert n'. induction n as [|n IH]; intros [|n'] Hle;
    try lia; cbn [parseAssignment]; mono.
Qed.
End Expressions.

Lemma parseExpression_mono n n' :
  n <= n' -> le_M (parseExpression n) (parseExpression n').
Proof.
  revert n'. induction n as [|n IH]; intros [|n'] Hle; try lia;
    cbn [parseExpression]; apply parseAssignment_mono; eauto with mono.
Qed.

#[local] Hint Resolve parseExpression_mono : mono.

Section Statements.
Variables rec rec' : M Statement.
Hypothesis Hrec : le_M rec rec'.

Lemma parseVarDeclaration_mono n n' :
  n <= n' -> le_M (parseVarDeclaration n) (parseVarDeclaration n').
Proof. intros Hle. unfold parseVarDeclaration. mono. Qed.

Lemma parseBlock_loop_mono n n' :
  n <= n' -> forall statements,
  le_M (parseBlock_loop rec n statements)
       (parseBlock_loop rec' n' statements).
Proof using Hrec.
  revert n'. induction n as [|n IH]; intros [|n'] Hle statements;
    try lia; cbn [parseBlock_loop]; mono.
Qed.
Hint Resolve parseBlock_loop_mono : mono.

Lemma parseBlock_mono n n' :
  n <= n' -> le_M (parseBlock rec n) (parseBlock rec' n').
Proof using Hrec. intros Hle. unfold parseBlock. mono. Qed.

Lemma parseIfStatement_mono n n' :
  n <= n' -> le_M (parseIfStatement rec n) (parseIfStatement rec' n').
Proof using Hrec. intros Hle. unfold parseIfStatement. mono. Qed.

Lemma parseWhileStatement_mono n n' :
  n <= n' ->
  le_M (parseWhileStatement rec n) (parseWhileStatement rec' n').
Proof using Hrec. intros Hle. unfold parseWhileStatement. mono. Qed.

Lemma parseReturnStatement_mono n n' :
  n <= n' -> le_M (parseReturnStatement n) (parseReturnStatement n').
Proof. intros Hle. unfold parseReturnStatement. mono. Qed.

Lemma parseSayStatement_mono n n' :
  n <= n' -> le_M (parseSayStatement n) (parseSayStatement n').
Proof. intros Hle. unfold parseSayStatement. mono. Qed.

Lemma parseGotoStatement_mono n n' :
  n <= n' -> le_M (parseGotoStatement n) (parseGotoStatement n').
Proof. intros Hle. unfold parseGotoStatement. mono. Qed.

Lemma parseExpressionStatement_mono n n' :
  n <= n' ->
  le_M (parseExpressionStatement n) (parseExpressionStatement n').
Proof. intros Hle. unfold parseExpressionStatement. mono. Qed.

Hint Resolve parseVarDeclaration_mono parseBlock_mono parseIfStatement_mono
  parseWhileStatement_mono parseReturnStatement_mono parseSayStatement_mono
  parseGotoStatement_mono parseExpressionStatement_mono : mono.

Lemma parseStatement_body_mono n n' :
  n <= n' ->
  le_M (parseStatement_body rec n) (parseStatement_body rec' n').
Proof using Hrec. intros Hle. unfold parseStatement_body. mono. Qed.
End Statements.

Lemma parseStatement_mono n n' :
  n <= n' -> le_M (parseStatement n) (parseStatement n').
Proof.
  revert n'. induction n as [|n IH]; intros [|n'] Hle; try lia;
    cbn [parseStatement]; apply parseStatement_body_mono; eauto with mono.
Qed.

#[local] Hint Resolve parseStatement_mono parseBlock_mono : mono.

Lemma parseItem_loop_mono n n' :
  n <= n' -> forall properties,
  le_M (parseItem_loop n properties) (parseItem_loop n' properties).
Proof.
  revert n'. induction n as [|n IH]; intros [|n'] Hle properties;
    try lia; cbn [parseItem_loop]; mono.
Qed.
#[local] Hint Resolve parseItem_loop_mono : mono.

Lemma parseItem_mono n n' : n <= n' -> le_M (parseItem n) (parseItem n').
Proof. intros Hle. unfold parseItem. mono. Qed.
#[local] Hint Resolve parseItem_mono : mono.

Lemma parseRoom_loop_mono n n' :
  n <= n' -> forall properties items events,
  le_M (parseRoom_loop n properties items events)
       (parseRoom_loop n' properties items events).
Proof.
  revert n'. induction n as [|n IH]; intros [|n'] Hle properties items events;
    try lia; cbn [parseRoom_loop]; mono.
Qed.
#[local] Hint Resolve parseRoom_loop_mono : mono.

Lemma parseRoom_mono n n' : n <= n' -> le_M (parseRoom n) (parseRoom n').
Proof. intros Hle. unfold parseRoom. mono. Qed.

Lemma parseFunction_parameters_mono n n' :
  n <= n' -> forall parameters,
  le_M (parseFunction_parameters n parameters)
       (parseFunction_parameters n' parameters).
Proof.
  revert n'. induction n as [|n IH]; intros [|n'] Hle parameters;
    try lia; cbn [parseFunction_parameters]; mono.
Qed.
#[local] Hint Resolve parseFunction_parameters_mono : mono.

Lemma parseFunction_mono n n' :
  n <= n' -> le_M (parseFunction n) (parseFunction n').
Proof. intros Hle. unfold parseFunction. mono. Qed.

Lemma synchronize_loop_mono n n' :
  n <= n' -> le_M (synchronize_loop n) (synchronize_loop n').
Proof.
  revert n'. induction n as [|n IH]; intros [|n'] Hle;
    try lia; cbn [synchronize_loop]; mono.
Qed.
#[local] Hint Resolve synchronize_loop_mono : mono.

Lemma synchronize_mono n n' :
  n <= n' -> le_M (synchronize n) (synchronize n').
Proof. intros Hle. unfold synchronize. mono. Qed.

#[local] Hint Resolve parseRoom_mono parseFunction_mono synchronize_mono
  : mono.

Lemma parseProgram_item_mono n n' program :
  n <= n' ->
  le_M (parseProgram_item n program) (parseProgram_item n' program).
Proof. intros Hle. unfold parseProgram_item. mono. Qed.
#[local] Hint Resolve parseProgram_item_mono : mono.

Lemma parseProgram_loop_mono n n' :
  n <= n' -> forall program,
  le_M (parseProgram_loop n program) (parseProgram_loop n' program).
Proof.
  revert n'. induction n as [|n IH]; intros [|n'] Hle program;
    try lia; cbn [parseProgram_loop]; mono.
Qed.
#[local] Hint Resolve parseProgram_loop_mono : mono.

Lemma parse_mono n n' : n <= n' -> le_M (parse n) (parse n').
Proof. intros Hle. unfold parse, parseProgram. mono. Qed.

(** A result obtained with some fuel is the result for any larger fuel. *)
Lemma parse_fuel n n' p program p' :
  parse n p = Ok program p' -> n <= n' -> parse n' p = Ok program p'.
Proof.
  intros H Hle. destruct (parse_mono n n' Hle p) as [E|E]; congruence.
Qed.

Lemma parseExpression_fuel n n' p expr p' :
  parseExpression n p = Ok expr p' -> n <= n' ->
  parseExpression n' p = Ok expr p'.
Proof.
  intros H Hle.
  destruct (parseExpression_mono n n' Hle p) as [E|E]; congruence.
Qed.

End FuelFacts.
(** * The properties stated by the specification *)

Import LexerSpec LexerFacts ParserSpec ParserFacts.

(** C1 (code defect).  The claim: for every source text [parse] terminates
    and returns a tree; in particular on [say] followed by an unterminated
    string the lexer yields a lex-error token, the parser records a syntax
    error and returns.  On that input the lexer does yield the lex-error
    token and the statement parser does record the error, but no fuel is
    enough for [parse] to return: nothing is thrown, so the [catch] branch
    that calls [synchronize] is never taken, and the top-level loop parses
    the same lex-error token again and again. *)
Theorem parse_unterminated_string_spins :
  let lx := script unterminated_say in
  Lexer.nth_token 1 lx = Token.mk UNKNOWN "Unterminated string." 1 9
  /\ (forall fuel, exists p,
        Parser.parseStatement fuel (Parser.new lx)
        = Parser.Ok (SayStmt (at_ 1 9) None) p
        /\ Parser.hadError p = true
        /\ Parser.current p = Token.mk UNKNOWN "Unterminated string." 1 9)
  /\ forall fuel, Parser.parse fuel (Parser.new lx) = Parser.OutOfFuel.
Proof.
  cbv zeta. split; [by vm_compute|]. split.
  { intros fuel. eexists.
    destruct fuel; (split; [vm_compute; reflexivity|by vm_compute]). }
  intros fuel. unfold Parser.parse, Parser.parseProgram.
  run_step.
  destruct fuel as [|fuel]; [by vm_compute|].
  rewrite parseProgram_loop_S. run_step.
  lazymatch goal with
  | |- Parser.bind (Parser.try_catch (Parser.parseProgram_item ?f ?prog) ?h)
         ?k ?p = _ =>
      assert (exists program p',
                Parser.parseProgram_item f prog p = Parser.Ok program p'
                /\ blocks_program (Token.type (Parser.current p')) = true)
        as (program & p' & Hitem & Hp)
        by (destruct f; eexists _, _;
            (split; [vm_compute; reflexivity|reflexivity]));
      rewrite (bind_Ok _ _ _ _ _ (try_catch_Ok _ h _ _ _ Hitem))
  end.
  by apply parseProgram_loop_spins.
Qed.

(** C2 (code defect).  The claim: on the character [%] the lexer produces
    a token of the modulo kind, so that [a % b] parses as a binary node
    without error.  [nextToken] has no case for [%]: no lexer state makes
    it return a [MODULO] token, [%] is lexed as the lex-error token
    "Unexpected character.", [parseExpression] on [a % b;] returns the
    variable [a] alone, and [parse] never returns on that input. *)
Theorem lexer_never_yields_MODULO :
  (forall l, Token.type (fst (Lexer.nextToken l)) <> MODULO)
  /\ Lexer.nth_token 0 (script "%")
     = Token.mk UNKNOWN "Unexpected character." 1 2
  /\ (forall fuel, exists p,
        Parser.parseExpression fuel (Parser.new (script "a % b;"))
        = Parser.Ok (variable 1 2 "a" 1) p
        /\ Parser.current p = Token.mk UNKNOWN "Unexpected character." 1 4)
  /\ forall fuel,
       Parser.parse fuel (Parser.new (script "a % b;")) = Parser.OutOfFuel.
Proof.
  split; [|split; [by vm_compute|split]].
  - intros l. destruct (Lexer.nextToken l) as [t l'] eqn:E.
    apply nextToken_produced in E.
    by eapply produced_not_MODULO.
  - intros fuel. eexists.
    destruct fuel; (split; [vm_compute; reflexivity|reflexivity]).
  - intros fuel. unfold Parser.parse, Parser.parseProgram.
    run_step.
    destruct fuel as [|fuel]; [by vm_compute|].
    rewrite parseProgram_loop_S. run_step.
    lazymatch goal with
    | |- Parser.bind (Parser.try_catch (Parser.parseProgram_item ?f ?prog) ?h)
           ?k ?p = _ =>
        assert (exists program p',
                  Parser.parseProgram_item f prog p = Parser.Ok program p'
                  /\ blocks_program (Token.type (Parser.current p')) = true)
          as (program & p' & Hitem & Hp)
          by (destruct f; eexists _, _;
              (split; [vm_compute; reflexivity|reflexivity]));
        rewrite (bind_Ok _ _ _ _ _ (try_catch_Ok _ h _ _ _ Hitem))
    end.
    by apply parseProgram_loop_spins.
Qed.

(** C3 (code defect).  The claim: a room with one property, one item and
    one [when entered] block parses to one [Room] with an event named
    "entered", without error.  The lexer classifies [entered] as the
    keyword [ENTERED], while [parseRoom] asks for an [IDENTIFIER] after
    [when]: at that token [consume] records "Expected event type after
    'when'." and does not move, [parseBlock] then meets a token that no
    statement consumes, and [parse] never returns. *)
Theorem parse_room_scenario_spins :
  Lexer.nth_token 16 (script room_scenario)
  = Token.mk ENTERED "entered" 1 53
  /\ (exists p,
        Parser.consume IDENTIFIER "Expected event type after 'when'."
          (Parser.mk
             (Lexer.mk room_scenario "script.story" 59 52 1 60)
             (Token.mk ENTERED "entered" 1 53) (Token.mk WHEN "when" 1 48)
             false [])
        = Parser.Ok (Token.mk ENTERED "entered" 1 53) p
        /\ Parser.hadError p = true
        /\ Parser.current p = Token.mk ENTERED "entered" 1 53)
  /\ forall fuel,
       Parser.parse fuel (Parser.new (script room_scenario))
       = Parser.OutOfFuel.
Proof.
  split; [by vm_compute|]. split.
  { eexists. split; [vm_compute; reflexivity|]. by vm_compute. }
  intros fuel. unfold Parser.parse, Parser.parseProgram.
  run_step.
  destruct fuel as [|fuel]; [by vm_compute|].
  rewrite parseProgram_loop_S. run_step.
  apply bind_OutOfFuel, try_catch_OutOfFuel.
  destruct fuel as [|[|[|[|fuel]]]]; [by vm_compute..|].
  unfold Parser.parseProgram_item. run_step.
  apply bind_OutOfFuel. unfold Parser.parseRoom.
  do 3 run_step. apply bind_OutOfFuel.
  rewrite parseRoom_loop_S. do 8 run_step.
  rewrite parseRoom_loop_S. do 4 run_step.
  rewrite parseRoom_loop_S. do 5 run_step.
  apply bind_OutOfFuel. by apply parseBlock_spins.
Qed.

(** C4, the claim as stated fails: the text of the lex-error token of [@]
    is its message, not the source character, and the identifier on the
    second line of a source starts in column 1 but carries column 2. *)
Lemma token_invariant_counterexample :
  ~ token_invariant "@" "script.story" 0
  /\ ~ token_invariant (String "010"%char "x") "script.story" 0.
Proof.
  split; unfold token_invariant; vm_compute; intros [H1 H2]; discriminate.
Qed.

(** C4 (corrected).  For every source shorter than [INT_MAX] characters and
    every call of [nextToken]: the token start is not after the cursor,
    which stays inside the source; a token that is not a lex-error token
    has as text the source between the token start and the cursor, and, if
    its line is 1, as column the column of its first character; a lex-error
    token carries one of the two messages as text. *)
Theorem token_invariant_first_line (src fname : string) (n : nat) :
  (Z.of_nat (String.length src) < 2 ^ 31 - 1)%Z ->
  let l0 := Lexer.new src fname in
  let t := Lexer.nth_token n l0 in
  let l' := Lexer.run (S n) l0 in
  Lexer.start l' <= Lexer.position l' <= String.length src
  /\ (Token.type t <> UNKNOWN ->
      Token.lexeme t
      = String.substring (Lexer.start l')
          (Lexer.position l' - Lexer.start l') src
      /\ (Token.line t = 1%Z ->
          Token.column t = column_of src (Lexer.start l')))
  /\ (Token.type t = UNKNOWN ->
      Token.lexeme t = "Unexpected character."
      \/ Token.lexeme t = "Unterminated string.").
Proof.
  intros Hshort l0 t l'.
  pose proof (inv_run src Hshort fname (S n)) as [Hsrc Hst Hpos Hln Hcol Hnl].
  fold l0 l' in Hsrc, Hst, Hpos, Hln, Hcol, Hnl.
  destruct (nth_token_produced n l0) as [_ Ht]. fold t l' in Ht.
  split; [lia|].
  destruct Ht as [(ty & Ht & Hk & _)|Ht].
  - split; [|intros Hu; rewrite Ht in Hu; cbn in Hu; by subst ty].
    intros _. rewrite Ht.
    cbn [Lexer.makeToken Token.lexeme Token.line Token.column].
    unfold Lexer.current_lexeme. rewrite Hsrc. split; [done|].
    intros Hl. specialize (Hcol Hl). specialize (Hnl Hl).
    rewrite length_substring by lia. rewrite Hcol.
    unfold column_of. rewrite column_scan_no_newline.
    + unfold size_t_wrap. rewrite (Z.mod_small (_ + 1)) by lia.
      rewrite Z.mod_small by lia. rewrite int_wrap_small; lia.
    + intros j Hj. apply Hnl. lia.
    + lia.
  - split; [by destruct Ht as [-> | ->]|].
    intros _. destruct Ht as [-> | ->]; [by left|by right].
Qed.

Lemma token_invariant_first_line_witness :
  let src := "var x = 1;" in
  let l0 := Lexer.new src "script.story" in
  let t := Lexer.nth_token 1 l0 in
  let l' := Lexer.run 2 l0 in
  Lexer.start l' <= Lexer.position l' <= String.length src
  /\ (Token.type t <> UNKNOWN ->
      Token.lexeme t
      = String.substring (Lexer.start l')
          (Lexer.position l' - Lexer.start l') src
      /\ (Token.line t = 1%Z ->
          Token.column t = column_of src (Lexer.start l')))
  /\ (Token.type t = UNKNOWN ->
      Token.lexeme t = "Unexpected character."
      \/ Token.lexeme t = "Unterminated string.").
Proof.
  apply (token_invariant_first_line "var x = 1;" "script.story" 1).
  vm_compute. reflexivity.
Defined.

(** C5.  For every source text, once call [n] of [nextToken] has returned
    an end-of-input token, every later call returns an end-of-input token
    with the same line and column. *)
Theorem eof_idempotent (src fname : string) (n k : nat) :
  let l0 := Lexer.new src fname in
  Token.type (Lexer.nth_token n l0) = EOF_TOKEN ->
  Token.type (Lexer.nth_token (S n + k) l0) = EOF_TOKEN
  /\ Token.line (Lexer.nth_token (S n + k) l0)
     = Token.line (Lexer.nth_token n l0)
  /\ Token.column (Lexer.nth_token (S n + k) l0)
     = Token.column (Lexer.nth_token n l0).
Proof.
  intros l0 Heof.
  assert (Lexer.nth_token (S n + k) l0 = Lexer.nth_token n l0) as ->; [|done].
  unfold Lexer.nth_token at 1. rewrite run_add, run_S.
  destruct (Lexer.nextToken (Lexer.run n l0)) as [t l'] eqn:E.
  assert (Lexer.nth_token n l0 = t) as Ht
    by (unfold Lexer.nth_token; by rewrite E).
  rewrite Ht in *. cbn [snd].
  by destruct (run_eof _ _ _ k E Heof) as [_ ?].
Qed.

Lemma eof_idempotent_witness :
  let l0 := Lexer.new "say" "script.story" in
  Token.type (Lexer.nth_token 4 l0) = EOF_TOKEN
  /\ Token.line (Lexer.nth_token 4 l0) = Token.line (Lexer.nth_token 1 l0)
  /\ Token.column (Lexer.nth_token 4 l0)
     = Token.column (Lexer.nth_token 1 l0).
Proof.
  apply (eof_idempotent "say" "script.story" 1 2). vm_compute. reflexivity.
Defined.

(** C6.  In every lexer state, [peekToken] returns the token that
    [nextToken] returns from that state and leaves the lexer, with its
    position, token start, line and column, as it was. *)
Theorem peekToken_nextToken (l : Lexer.Lexer) :
  Lexer.peekToken l = (fst (Lexer.nextToken l), l).
Proof.
  unfold Lexer.peekToken.
  destruct (nextToken_source l) as [Hs Hf].
  destruct (Lexer.nextToken l) as [t l']. cbn [fst snd] in *.
  rewrite Hs, Hf. by destruct l.
Qed.

(** C7.  With fuel 2 or more, [1 + 2 * 3] parses to
    [Binary(+, 1, Binary( *, 2, 3))] and [a = b = 1] parses to
    [Binary(=, a, Binary(=, b, 1))], both without error and up to the end
    of the input. *)
Theorem parse_precedence_and_assignment (fuel : nat) :
  2 <= fuel ->
  (exists p,
     Parser.parseExpression fuel (Parser.new (script "1 + 2 * 3"))
     = Parser.Ok
         (Some (BinaryExpr (at_ 1 2)
                  (number_literal 1 2 1)
                  (Token.mk PLUS "+" 1 3)
                  (Some (BinaryExpr (at_ 1 6)
                           (number_literal 1 6 2)
                           (Token.mk MULTIPLY "*" 1 7)
                           (number_literal 1 10 3))))) p
     /\ Parser.hadError p = false
     /\ Token.type (Parser.current p) = EOF_TOKEN)
  /\ (exists p,
        Parser.parseExpression fuel (Parser.new (script "a = b = 1"))
        = Parser.Ok
            (Some (BinaryExpr (at_ 1 2)
                     (variable 1 2 "a" 1)
                     (Token.mk ASSIGN "=" 1 3)
                     (Some (BinaryExpr (at_ 1 6)
                              (variable 1 6 "b" 5)
                              (Token.mk ASSIGN "=" 1 7)
                              (number_literal 1 10 1))))) p
        /\ Parser.hadError p = false
        /\ Token.type (Parser.current p) = EOF_TOKEN).
Proof.
  intros Hfuel.
  split; eexists;
    (split;
     [ eapply (FuelFacts.parseExpression_fuel 2 fuel);
       [vm_compute; reflexivity|exact Hfuel]
     | by vm_compute ]).
Qed.

Lemma parse_precedence_and_assignment_witness :
  (exists p,
     Parser.parseExpression 5 (Parser.new (script "1 + 2 * 3"))
     = Parser.Ok
         (Some (BinaryExpr (at_ 1 2)
                  (number_literal 1 2 1)
                  (Token.mk PLUS "+" 1 3)
                  (Some (BinaryExpr (at_ 1 6)
                           (number_literal 1 6 2)
                           (Token.mk MULTIPLY "*" 1 7)
                           (number_literal 1 10 3))))) p
     /\ Parser.hadError p = false
     /\ Token.type (Parser.current p) = EOF_TOKEN)
  /\ (exists p,
        Parser.parseExpression 5 (Parser.new (script "a = b = 1"))
        = Parser.Ok
            (Some (BinaryExpr (at_ 1 2)
                     (variable 1 2 "a" 1)
                     (Token.mk ASSIGN "=" 1 3)
                     (Some (BinaryExpr (at_ 1 6)
                              (variable 1 6 "b" 5)
                              (Token.mk ASSIGN "=" 1 7)
                              (number_literal 1 10 1))))) p
        /\ Parser.hadError p = false
        /\ Token.type (Parser.current p) = EOF_TOKEN).
Proof.
  apply (parse_precedence_and_assignment 5). lia.
Defined.

(** C8.  With fuel 2 or more, parsing [1 = 2;] returns a program whose
    only statement is an expression statement on the literal 1, and the
    only diagnostic is "Invalid assignment target.". *)
Theorem parse_invalid_assignment_target (fuel : nat) :
  2 <= fuel ->
  exists p,
    Parser.parse fuel (Parser.new (script "1 = 2;"))
    = Parser.Ok
        (mkProgram (at_ 1 2) []
           [ExpressionStmt (at_ 1 2) (number_literal 1 2 1)] []) p
    /\ Parser.cerr p
       = [Parser.mkDiagnostic 1 6 "Invalid assignment target."]
    /\ Parser.hadError p = true.
Proof.
  intros Hfuel. eexists.
  split;
    [ eapply (FuelFacts.parse_fuel 2 fuel);
      [vm_compute; reflexivity|exact Hfuel]
    | by vm_compute ].
Qed.

Lemma parse_invalid_assignment_target_witness :
  exists p,
    Parser.parse 6 (Parser.new (script "1 = 2;"))
    = Parser.Ok
        (mkProgram (at_ 1 2) []
           [ExpressionStmt (at_ 1 2) (number_literal 1 2 1)] []) p
    /\ Parser.cerr p
       = [Parser.mkDiagnostic 1 6 "Invalid assignment target."]
    /\ Parser.hadError p = true.
Proof.
  apply (parse_invalid_assignment_target 6). lia.
Defined.

(** C9.  With fuel 3 or more, parsing [var ;  var x = 1;] records the
    single diagnostic "Expected variable name." and returns a program whose
    second statement declares [x] with the literal 1 as initialiser (the
    first statement is the malformed declaration, named by the [;]
    token). *)
Theorem parse_var_recovery (fuel : nat) :
  3 <= fuel ->
  exists p,
    Parser.parse fuel (Parser.new (script "var ;  var x = 1;"))
    = Parser.Ok
        (mkProgram (at_ 1 4) []
           [VarStmt (at_ 1 6) (Token.mk SEMICOLON ";" 1 5) None;
            VarStmt (at_ 1 13) (Token.mk IDENTIFIER "x" 1 12)
              (number_literal 1 17 1)] []) p
    /\ Parser.cerr p = [Parser.mkDiagnostic 1 5 "Expected variable name."]
    /\ Parser.hadError p = true.
Proof.
  intros Hfuel. eexists.
  split;
    [ eapply (FuelFacts.parse_fuel 3 fuel);
      [vm_compute; reflexivity|exact Hfuel]
    | by vm_compute ].
Qed.

Lemma parse_var_recovery_witness :
  exists p,
    Parser.parse 6 (Parser.new (script "var ;  var x = 1;"))
    = Parser.Ok
        (mkProgram (at_ 1 4) []
           [VarStmt (at_ 1 6) (Token.mk SEMICOLON ";" 1 5) None;
            VarStmt (at_ 1 13) (Token.mk IDENTIFIER "x" 1 12)
              (number_literal 1 17 1)] []) p
    /\ Parser.cerr p = [Parser.mkDiagnostic 1 5 "Expected variable name."]
    /\ Parser.hadError p = true.
Proof.
  apply (parse_var_recovery 6). lia.
Defined.

(** C10.  When the current token cannot start an expression,
    [parsePrimary] returns normally with a null expression, having
    recorded "Expected expression." and consumed nothing; and [parse] can
    return a program with a statement whose expression is null: the
    expression statement of [;] and the [goto] statement of [goto();]. *)
Theorem parsePrimary_no_expression :
  (forall rec p,
     starts_primary (Token.type (Parser.current p)) = false ->
     Parser.parsePrimary rec p
     = Parser.Ok None
         (Parser.mk (Parser.lexer p) (Parser.current p) (Parser.previous p)
            true
            (Parser.cerr p
             ++ [Parser.mkDiagnostic (Token.line (Parser.current p))
                   (Token.column (Parser.current p))
                   "Expected expression."])%list))
  /\ (forall fuel, 2 <= fuel ->
      (exists p,
         Parser.parse fuel (Parser.new (script ";"))
         = Parser.Ok
             (mkProgram (at_ 1 2) [] [ExpressionStmt (at_ 1 2) None] []) p)
      /\ (exists p,
            Parser.parse fuel (Parser.new (script "goto();"))
            = Parser.Ok
                (mkProgram (at_ 1 5) [] [GotoStmt (at_ 1 6) None] []) p)).
Proof.
  split.
  - intros rec [lx [ty lex ln col] prev eo ce].
    cbn [Parser.current Token.type].
    intros H. destruct ty; try discriminate H; reflexivity.
  - intros fuel Hfuel.
    split; eexists;
      (eapply (FuelFacts.parse_fuel 2 fuel);
       [vm_compute; reflexivity|exact Hfuel]).
Qed.

Lemma parsePrimary_no_expression_witness :
  Parser.parsePrimary Parser.outOfFuel (Parser.new (script ")"))
  = Parser.Ok None
      (Parser.mk (Lexer.mk ")" "script.story" 1 0 1 2)
         (Token.mk RPAREN ")" 1 1) Parser.placeholder true
         [Parser.mkDiagnostic 1 1 "Expected expression."])
  /\ exists p,
       Parser.parse 4 (Parser.new (script "goto();"))
       = Parser.Ok (mkProgram (at_ 1 5) [] [GotoStmt (at_ 1 6) None] []) p.
Proof.
  split.
  - apply (proj1 parsePrimary_no_expression Parser.outOfFuel
             (Parser.new (script ")"))).
    vm_compute. reflexivity.
  - apply (proj2 parsePrimary_no_expression 4). lia.
Defined.

(** * More about the lexer *)

Module LexerCases.
Import Lexer LexerSpec LexerFacts LexerScan.

(** [nextToken], with the one- and two-character cases of its [switch]
    collected. *)
Lemma nextToken_aux_eq fuel l :
  nextToken_aux fuel l =
    if isAtEnd (entry l) then Some (makeToken EOF_TOKEN (entry l), entry l)
    else
      let c := entry_char l in
      let l2 := after_first l in
      if isalpha c || Ascii.eqb c "_" then Some (identifier l2)
      else if isdigit c then Some (number l2)
      else
        match simple_kind c with
        | Some ty => Some (makeToken ty l2, l2)
        | None =>
            if Ascii.eqb c "/" then
              if fst (match_ "/" l2) then
                match fuel with
                | O => None
                | S fuel' =>
                    nextToken_aux fuel'
                      (advance_while comment_cond
                         (remaining (snd (match_ "/" l2)))
                         (snd (match_ "/" l2)))
                end
              else Some (makeToken DIVIDE l2, l2)
            else
              match two_char_kind c with
              | Some (ty1, ty0) =>
                  let r := match_ "=" l2 in
                  Some (makeToken (if fst r then ty1 else ty0) (snd r), snd r)
              | None =>
                  if Ascii.eqb c dquote then Some (string l2)
                  else Some (errorToken "Unexpected character." l2, l2)
              end
        end.
Proof.
  unfold entry_char, after_first, entry, simple_kind, two_char_kind.
  set (l1 := mark_start (skipWhitespace l)).
  destruct fuel; cbn [nextToken_aux]; fold l1;
    (destruct (isAtEnd l1); [reflexivity|]);
    unfold advance at 1; cbv beta iota zeta;
    change (mk (source l1) (filename l1) (S (position l1)) (start l1)
              (line l1) (int_wrap (column l1 + 1)))
      with (snd (advance l1));
    set (l2 := snd (advance l1));
    set (c := char_at (source l1) (position l1));
    (destruct (isalpha c || Ascii.eqb c "_"); [reflexivity|]);
    (destruct (isdigit c); [reflexivity|]);
    repeat (match goal with
            | |- context [Ascii.eqb c ?x] =>
                destruct (Ascii.eqb c x) eqn:?; cbv beta iota
            end;
            try reflexivity;
            try (destruct (match_ _ l2) as [[] ?]; reflexivity)).
  all: unfold match_; destruct (_ || _); reflexivity.
Qed.

Lemma entry_steps l : steps l (entry l).
Proof.
  eapply rtc_r; [apply skipWhitespace_steps|apply step_mark].
Qed.

Lemma entry_start l : start (entry l) = position (entry l).
Proof. reflexivity. Qed.

(** The first character of a token is not whitespace. *)
Lemma entry_char_not_space l :
  isAtEnd (entry l) = false -> is_space (entry_char l) = false.
Proof.
  intros He. pose proof (skipWhitespace_exit l) as H.
  rewrite <- peek_mark_start in H. fold (entry l) in H.
  unfold peek in H. by rewrite He in H.
Qed.

Lemma after_first_scan l :
  isAtEnd (entry l) = false -> plain_step (entry l) (after_first l).
Proof.
  intros He. apply plain_advance; [done|].
  pose proof (entry_char_not_space l He) as H. unfold entry_char in H.
  intros E. rewrite E in H. discriminate.
Qed.

(** ** Case analysis on the token that [nextToken] returns *)

Section Cases.
Variable Q : Lexer -> Token.Token -> Lexer -> Prop.

Hypothesis case_eof : forall l,
  isAtEnd (entry l) = true ->
  Q l (makeToken EOF_TOKEN (entry l)) (entry l).
Hypothesis case_identifier : forall l,
  isAtEnd (entry l) = false ->
  isalpha (entry_char l) || Ascii.eqb (entry_char l) "_" = true ->
  Q l (fst (identifier (after_first l))) (snd (identifier (after_first l))).
Hypothesis case_number : forall l,
  isAtEnd (entry l) = false ->
  isdigit (entry_char l) = true ->
  Q l (fst (number (after_first l))) (snd (number (after_first l))).
Hypothesis case_simple : forall l ty,
  isAtEnd (entry l) = false ->
  isalpha (entry_char l) || Ascii.eqb (entry_char l) "_" = false ->
  simple_kind (entry_char l) = Some ty ->
  Q l (makeToken ty (after_first l)) (after_first l).
Hypothesis case_divide : forall l,
  isAtEnd (entry l) = false ->
  entry_char l = "/"%char ->
  fst (match_ "/" (after_first l)) = false ->
  Q l (makeToken DIVIDE (after_first l)) (after_first l).
Hypothesis case_comment : forall l t l',
  isAtEnd (entry l) = false ->
  entry_char l = "/"%char ->
  fst (match_ "/" (after_first l)) = true ->
  Q (advance_while comment_cond
       (remaining (snd (match_ "/" (after_first l))))
       (snd (match_ "/" (after_first l)))) t l' ->
  Q l t l'.
Hypothesis case_two : forall l ty1 ty0,
  isAtEnd (entry l) = false ->
  isalpha (entry_char l) || Ascii.eqb (entry_char l) "_" = false ->
  two_char_kind (entry_char l) = Some (ty1, ty0) ->
  Q l (makeToken (if fst (match_ "=" (after_first l)) then ty1 else ty0)
         (snd (match_ "=" (after_first l))))
      (snd (match_ "=" (after_first l))).
Hypothesis case_string : forall l,
  isAtEnd (entry l) = false ->
  entry_char l = dquote ->
  Q l (fst (string (after_first l))) (snd (string (after_first l))).
Hypothesis case_error : forall l,
  isAtEnd (entry l) = false ->
  isalpha (entry_char l) || Ascii.eqb (entry_char l) "_" = false ->
  Q l (errorToken "Unexpected character." (after_first l)) (after_first l).

Lemma nextToken_aux_cases fuel l t l' :
  nextToken_aux fuel l = Some (t, l') -> Q l t l'.
Proof using All.
  revert l. induction fuel as [|fuel IH]; intros l;
    rewrite nextToken_aux_eq; cbv zeta;
    (destruct (isAtEnd (entry l)) eqn:He;
     [intros [= <- <-]; by apply case_eof|]);
    (destruct (isalpha _ || _) eqn:Ha;
     [destruct (identifier _) eqn:E; intros [= <- <-];
      pose proof (case_identifier l He Ha) as H; by rewrite E in H|]);
    (destruct (isdigit _) eqn:Hd;
     [destruct (number _) eqn:E; intros [= <- <-];
      pose proof (case_number l He Hd) as H; by rewrite E in H|]);
    (destruct (simple_kind _) as [ty|] eqn:Hs;
     [intros [= <- <-]; by apply case_simple|]).
  all: destruct (Ascii.eqb (entry_char l) "/") eqn:Hsl;
    [apply Ascii.eqb_eq in Hsl;
     destruct (fst (match_ "/" (after_first l))) eqn:Hm|].
  all: try (intros [= <- <-]; by apply case_divide).
  all: try (destruct (two_char_kind _) as [[ty1 ty0]|] eqn:Ht;
            [intros [= <- <-]; by apply case_two|]).
  all: try (destruct (Ascii.eqb (entry_char l) dquote) eqn:Hq;
            [apply Ascii.eqb_eq in Hq;
             destruct (string _) eqn:E; intros [= <- <-];
             pose proof (case_string l He Hq) as H; by rewrite E in H
            |intros [= <- <-]; by apply case_error]).
  intros H. eapply case_comment; eauto.
Qed.

Lemma nextToken_cases l t l' : nextToken l = (t, l') -> Q l t l'.
Proof using All.
  unfold nextToken.
  destruct (nextToken_aux_total (remaining l) l (le_n _)) as [[t0 l0] E].
  rewrite E. intros [= <- <-]. by eapply nextToken_aux_cases.
Qed.
End Cases.


(** ** Scanning inside a token *)

Lemma plain_scan_step l l' : plain_step l l' -> scan_step l l'.
Proof. destruct 1. by apply scan_advance. Qed.

Lemma plain_scans_scans l l' : plain_scans l l' -> scans l l'.
Proof. induction 1; [apply rtc_refl|]. eapply rtc_l; eauto using plain_scan_step. Qed.

Lemma scan_step_step l l' : scan_step l l' -> step l l'.
Proof. destruct 1; [by apply step_advance|by apply step_newline]. Qed.

Lemma scans_steps l l' : scans l l' -> steps l l'.
Proof. induction 1; [apply rtc_refl|]. eapply rtc_l; eauto using scan_step_step. Qed.

Lemma scan_step_facts l l' :
  scan_step l l' ->
  source l' = source l /\ start l' = start l
  /\ position l' = S (position l)
  /\ position l' <= String.length (source l).
Proof.
  destruct 1 as [l He _|l He _]; apply not_at_end in He;
    cbn [advance newline snd source start position]; repeat split; lia.
Qed.

Lemma scans_facts l l' :
  scans l l' ->
  source l' = source l /\ start l' = start l /\ position l <= position l'
  /\ (position l < position l' -> position l' <= String.length (source l)).
Proof.
  induction 1 as [|x y z Hxy _ (IH1 & IH2 & IH3 & IH4)]; [repeat split; lia|].
  destruct (scan_step_facts _ _ Hxy) as (E1 & E2 & E3 & E4).
  rewrite IH1, IH2, E1, E2. repeat split; [lia|]. intros _.
  destruct (decide (position y < position z)) as [Hlt|Hge].
  - rewrite <- E1. by apply IH4.
  - assert (position z = position y) as -> by lia. done.
Qed.

Lemma steps_position l l' : steps l l' -> position l <= position l'.
Proof.
  induction 1 as [|x y z Hxy _ IH]; [done|].
  destruct Hxy; cbn [advance newline mark_start snd position] in *; lia.
Qed.

Lemma plain_step_line l l' : plain_step l l' -> line l' = line l.
Proof. by destruct 1. Qed.

(** Plain scanning does not change the line and passes no newline. *)
Lemma plain_scans_facts l l' :
  plain_scans l l' ->
  line l' = line l
  /\ forall i, position l <= i < position l' ->
       char_at (source l) i <> "010"%char.
Proof.
  induction 1 as [|x y z Hxy Hyz [IH1 IH2]]; [split; [done|lia]|].
  destruct Hxy as [x He Hc].
  rewrite IH1. split; [done|]. intros i Hi.
  destruct (decide (i = position x)) as [->|Hne]; [done|].
  apply (IH2 i). cbn [advance snd position]. lia.
Qed.

Lemma advance_while_plain cond n l :
  plain_cond cond -> plain_scans l (advance_while cond n l).
Proof.
  intros Hc. revert l. induction n as [|n IH]; intros l;
    cbn [advance_while].
  - destruct (cond l); apply rtc_refl.
  - destruct (cond l) eqn:E; [|apply rtc_refl].
    destruct (Hc _ E). eapply rtc_l; [by apply plain_advance|apply IH].
Qed.

Lemma string_loop_scans n l : scans l (string_loop n l).
Proof.
  revert l. induction n as [|n IH]; intros l; cbn [string_loop].
  - destruct (string_cond l); apply rtc_refl.
  - destruct (string_cond l) eqn:E; [|apply rtc_refl].
    pose proof (string_cond_not_at_end _ E) as He.
    destruct (Ascii.eqb (peek l) "010") eqn:Ep.
    + apply eqb_peek in Ep as [_ Ep]; [|done].
      eapply rtc_l; [by apply scan_newline|apply IH].
    + eapply rtc_l; [|apply IH]. apply scan_advance; [done|].
      intros Ec. unfold peek in Ep. rewrite He, Ec in Ep. discriminate.
Qed.

Lemma match__plain expected l :
  expected <> "010"%char -> plain_scans l (snd (match_ expected l)).
Proof.
  unfold match_. intros Hx.
  destruct (isAtEnd l) eqn:He; cbn [orb]; [apply rtc_refl|].
  destruct (Ascii.eqb _ expected) eqn:Ec; cbn [negb snd]; [|apply rtc_refl].
  apply Ascii.eqb_eq in Ec.
  apply rtc_once. apply (plain_advance l); [done|]. by rewrite Ec.
Qed.

Lemma identifier_plain l : plain_scans l (snd (identifier l)).
Proof. apply advance_while_plain, identifier_cond_plain. Qed.

Lemma identifier_type l : is_keyword_type (Token.type (fst (identifier l))) = true
  \/ Token.type (fst (identifier l)) = IDENTIFIER.
Proof.
  unfold identifier. cbn [fst makeToken Token.type].
  destruct (keywords !! _) as [ty|] eqn:E; [left|by right].
  by eapply keywords_range.
Qed.

Lemma number_plain l : plain_scans l (snd (number l)).
Proof.
  unfold number. cbn [snd].
  set (l1 := advance_while digits_cond (remaining l) l).
  assert (plain_scans l l1) as H1
    by apply advance_while_plain, digits_cond_plain.
  destruct (Ascii.eqb (peek l1) "." && isdigit (peekNext l1)) eqn:E; [|done].
  apply andb_true_iff in E as [E _].
  apply eqb_peek in E as [He Ec]; [|done].
  eapply rtc_trans; [exact H1|].
  eapply rtc_l.
  - apply (plain_advance l1); [done|]. by rewrite Ec.
  - apply advance_while_plain, digits_cond_plain.
Qed.

Lemma string_scans l : scans l (snd (string l)).
Proof.
  unfold string.
  set (l1 := string_loop (remaining l) l).
  assert (scans l l1) as H1 by apply string_loop_scans.
  pose proof (string_loop_exit (remaining l) l (le_n _)) as Hx.
  fold l1 in Hx.
  destruct (isAtEnd l1) eqn:He; cbn [snd]; [done|].
  eapply rtc_r; [exact H1|].
  apply (scan_advance l1); [done|].
  unfold string_cond in Hx. rewrite He in Hx.
  rewrite andb_true_r in Hx. apply negb_false_iff, Ascii.eqb_eq in Hx.
  unfold peek in Hx. rewrite He in Hx. by rewrite Hx.
Qed.

Lemma string_type l :
  Token.type (fst (string l)) = STRING \/ Token.type (fst (string l)) = UNKNOWN.
Proof. unfold string. destruct (isAtEnd _); [by right|by left]. Qed.

Lemma after_first_position l : position (after_first l) = S (position (entry l)).
Proof. reflexivity. Qed.

Lemma plain_scans_position l l' : plain_scans l l' -> position l <= position l'.
Proof. intros H%plain_scans_scans%scans_facts. lia. Qed.

(** ** The span of a token *)

Lemma spans_intro_plain l t l' :
  isAtEnd (entry l) = false ->
  Token.type t <> EOF_TOKEN ->
  plain_scans (after_first l) l' ->
  spans l t l'.
Proof.
  intros He Ht Hs. exists (entry l).
  assert (plain_scans (entry l) l') as Hp
    by (eapply rtc_l; [by apply after_first_scan|done]).
  pose proof (plain_scans_position _ _ Hs) as Hpos.
  rewrite after_first_position in Hpos.
  split; [apply entry_steps|]. split; [done|].
  split; [by apply plain_scans_scans|].
  split; [done|]. split; [intros _; split; [done|lia]|done].
Qed.

Lemma nextToken_spans l t l' : nextToken l = (t, l') -> spans l t l'.
Proof.
  apply nextToken_cases; clear l t l'.
  - intros l He. exists (entry l).
    split; [apply entry_steps|]. split; [done|]. split; [apply rtc_refl|].
    split; [done|]. split; [done|]. intros _ _. apply rtc_refl.
  - intros l He Ha. apply spans_intro_plain; [done| |apply identifier_plain].
    destruct (identifier_type (after_first l)) as [H|H]; [|by rewrite H].
    by destruct (Token.type _).
  - intros l He Hd. apply spans_intro_plain; [done|done|apply number_plain].
  - intros l ty He _ Hk. apply spans_intro_plain; [done| |apply rtc_refl].
    cbn. intros ->. unfold simple_kind in Hk.
    repeat case_match; discriminate.
  - intros l He _ _. apply spans_intro_plain; [done|done|apply rtc_refl].
  - intros l t l' He Hc Hm (e & H1 & H2 & H3).
    exists e. split; [|done].
    eapply rtc_trans; [|exact H1].
    eapply rtc_trans; [apply entry_steps|].
    eapply rtc_l; [apply scan_step_step, plain_scan_step,
                     after_first_scan; done|].
    eapply rtc_trans;
      [apply scans_steps, plain_scans_scans, (match__plain "/"); done|].
    apply advance_while_steps, comment_cond_plain.
  - intros l ty1 ty0 He _ Hk.
    apply spans_intro_plain; [done| |by apply match__plain].
    cbn. unfold two_char_kind in Hk.
    repeat case_match; simplify_eq; done.
  - intros l He Hq. exists (entry l).
    pose proof (string_scans (after_first l)) as Hs.
    assert (scans (entry l) (snd (string (after_first l)))) as Hs'
      by (eapply rtc_l;
          [apply plain_scan_step, after_first_scan; done|done]).
    apply scans_facts in Hs as (_ & _ & Hpos & _).
    rewrite after_first_position in Hpos.
    split; [apply entry_steps|]. split; [done|]. split; [done|].
    split; [|split; [intros _; split; [done|lia]|]].
    + intros Ht. by destruct (string_type (after_first l)) as [H|H];
        rewrite H in Ht.
    + intros H1 H2. by destruct (string_type (after_first l)).
  - intros l He _. exists (entry l).
    split; [apply entry_steps|]. split; [done|].
    split; [apply rtc_once, plain_scan_step, after_first_scan; done|].
    split; [done|]. split; [|done].
    intros _. split; [done|]. rewrite after_first_position. lia.
Qed.


(** ** Lines and columns *)

Lemma char_at_cons c s i : char_at (String c s) (S i) = char_at s i.
Proof. reflexivity. Qed.

Lemma newlines_before_S s i :
  i < String.length s ->
  newlines_before s (S i)
  = (newlines_before s i
     + if Ascii.eqb (char_at s i) "010" then 1 else 0)%Z.
Proof.
  revert i. induction s as [|c s IH]; intros i Hi; [simpl in Hi; lia|].
  destruct i as [|i].
  - cbn [newlines_before]. destruct s; cbn; lia.
  - change (newlines_before (String c s) (S (S i)))
      with ((if Ascii.eqb c "010" then 1 else 0)
            + newlines_before s (S i))%Z.
    rewrite IH by (simpl in Hi; lia). rewrite char_at_cons.
    cbn [newlines_before]. lia.
Qed.

Lemma newlines_before_bounds s i :
  (0 <= newlines_before s i <= Z.of_nat i)%Z.
Proof.
  revert i. induction s as [|c s IH]; intros [|i]; cbn [newlines_before];
    try lia.
  specialize (IH i). destruct (Ascii.eqb c "010"); lia.
Qed.

Lemma column_scan_S s i col :
  i < String.length s ->
  column_scan s (S i) col
  = if Ascii.eqb (char_at s i) "010" then 1%Z
    else (column_scan s i col + 1)%Z.
Proof.
  revert i col. induction s as [|c s IH]; intros i col Hi;
    [simpl in Hi; lia|].
  destruct i as [|i].
  - cbn [column_scan]. destruct s; reflexivity.
  - change (column_scan (String c s) (S (S i)) col)
      with (column_scan s (S i)
              (if Ascii.eqb c "010" then 1 else col + 1)%Z).
    rewrite IH by (simpl in Hi; lia). by rewrite char_at_cons.
Qed.

Lemma column_of_S s i :
  i < String.length s ->
  column_of s (S i)
  = if Ascii.eqb (char_at s i) "010" then 1%Z else (column_of s i + 1)%Z.
Proof. apply column_scan_S. Qed.

Lemma column_of_bounds s i :
  i <= String.length s ->
  (1 <= column_of s i
   /\ column_of s i + newlines_before s i <= Z.of_nat i + 1)%Z.
Proof.
  induction i as [|i IH]; intros Hi.
  - unfold column_of. destruct s; cbn; lia.
  - rewrite column_of_S, newlines_before_S by lia.
    destruct (Ascii.eqb _ _); [|lia].
    pose proof (newlines_before_bounds s i). lia.
Qed.

(** Over a stretch without newline the column grows with the offset. *)
Lemma column_of_plain s a b :
  a <= b <= String.length s ->
  (forall i, a <= i < b -> char_at s i <> "010"%char) ->
  column_of s b = (column_of s a + Z.of_nat (b - a))%Z.
Proof.
  induction b as [|b IH]; intros Hb Hn.
  - assert (a = 0) as -> by lia. cbn. lia.
  - destruct (decide (a = S b)) as [->|Hne].
    + rewrite Nat.sub_diag. lia.
    + rewrite column_of_S by lia.
      assert (Ascii.eqb (char_at s b) "010" = false) as ->
        by (apply Ascii.eqb_neq, Hn; lia).
      rewrite IH; [lia|lia|]. intros i Hi. apply Hn. lia.
Qed.

Section Tracking.
Variable src : String.string.
Hypothesis src_short : (Z.of_nat (String.length src) < 2 ^ 31 - 1)%Z.

Lemma tracks_new fname : tracks src (new src fname).
Proof.
  split; cbn [new source position line column]; try done; try lia.
  - destruct src; reflexivity.
  - destruct src; reflexivity.
Qed.

Lemma tracks_step l l' : step l l' -> tracks src l -> tracks src l'.
Proof using src_short.
  destruct 1 as [l He Hc|l He Hc|l]; intros [Hs Hp Hl Hcol].
  - apply not_at_end in He. rewrite Hs in He, Hc.
    pose proof (newlines_before_bounds src (position l)).
    pose proof (column_of_bounds src (position l) Hp).
    apply Ascii.eqb_neq in Hc.
    split; cbn [advance snd source position line column];
      [done|lia| |].
    + rewrite newlines_before_S, Hc by done. lia.
    + rewrite column_of_S, Hc by done. rewrite Hcol.
      destruct (Z.eqb_spec (line l) 1); rewrite int_wrap_small; lia.
  - apply not_at_end in He. rewrite Hs in He, Hc.
    pose proof (newlines_before_bounds src (position l)).
    assert (int_wrap (line l + 1) = line l + 1)%Z as Hw
      by (rewrite int_wrap_small; lia).
    apply Ascii.eqb_eq in Hc.
    split; cbn [advance newline snd source position line column];
      [done|lia| |].
    + rewrite Hw, newlines_before_S, Hc by done. lia.
    + rewrite Hw, column_of_S, Hc by done.
      assert ((line l + 1 =? 1)%Z = false) as -> by lia.
      by rewrite int_wrap_small.
  - split; cbn [mark_start source position line column]; done.
Qed.

Lemma tracks_steps l l' : steps l l' -> tracks src l -> tracks src l'.
Proof using src_short. induction 1; eauto using tracks_step. Qed.

Lemma tracks_run fname n : tracks src (run n (new src fname)).
Proof using src_short.
  eapply tracks_steps; [apply run_steps|apply tracks_new].
Qed.
End Tracking.

Lemma makeToken_line ty l : Token.line (makeToken ty l) = line l.
Proof. reflexivity. Qed.

Lemma produced_line l t l' : produced l t l' -> Token.line t = line l'.
Proof. intros [_ [(ty & -> & _)|[->| ->]]]; reflexivity. Qed.

Lemma steps_bounded l l' :
  steps l l' -> position l <= String.length (source l) ->
  position l' <= String.length (source l').
Proof.
  induction 1 as [|x y z Hxy _ IH]; [done|]. intros Hx. apply IH.
  destruct Hxy as [x He _|x He _|x];
    try apply not_at_end in He;
    cbn [advance newline mark_start snd source position]; lia.
Qed.

End LexerCases.

(** * Further properties of the lexer *)

Module LexerMore.
Import Lexer LexerSpec LexerFacts LexerScan LexerCases.

Lemma TokenType_eqb_eq a b : TokenType_eqb a b = true <-> a = b.
Proof.
  unfold TokenType_eqb. rewrite Nat.eqb_eq. split; [|by intros ->].
  destruct a, b; cbn; intros H; first [reflexivity|discriminate H].
Qed.

Lemma int_wrap_size_t c n :
  (- 2 ^ 31 <= c - n < 2 ^ 31)%Z ->
  int_wrap (size_t_wrap (size_t_wrap c - n)) = (c - n)%Z.
Proof.
  intros H. unfold size_t_wrap. rewrite Zminus_mod_idemp_l.
  unfold int_wrap.
  rewrite <- (Zplus_mod_idemp_l ((c - n) mod 2 ^ 64)).
  rewrite (Z.mod_mod_divide _ (2 ^ 64) (2 ^ 32))
    by (exists (2 ^ 32)%Z; lia).
  rewrite Zplus_mod_idemp_l. rewrite Z.mod_small; lia.
Qed.

(** After a token other than end-of-input, strictly fewer characters
    remain. *)
Lemma nextToken_progress l t l' :
  nextToken l = (t, l') -> Token.type t <> EOF_TOKEN ->
  remaining l' < remaining l.
Proof.
  intros (e & H1 & _ & H3 & _ & H5 & _)%nextToken_spans Ht.
  destruct (H5 Ht) as [He Hlt].
  destruct (steps_source _ _ H1) as [Hse _].
  apply steps_position in H1.
  apply scans_facts in H3 as (Hsrc & _ & _ & Hb). specialize (Hb Hlt).
  unfold remaining. rewrite Hsrc, Hse in *. lia.
Qed.

Lemma nth_token_S n l : nth_token (S n) l = nth_token n (snd (nextToken l)).
Proof. reflexivity. Qed.

Lemma tokenize_loop_spec fuel l acc :
  remaining l < fuel ->
  exists k,
    tokenize_loop fuel l acc
    = Some ((acc ++ map (fun i => nth_token i l) (seq 0 (S k)))%list,
            run (S k) l)
    /\ k <= remaining l
    /\ Token.type (nth_token k l) = EOF_TOKEN
    /\ forall i, i < k -> Token.type (nth_token i l) <> EOF_TOKEN.
Proof.
  revert l acc. induction fuel as [|fuel IH]; intros l acc Hf; [lia|].
  cbn [tokenize_loop].
  destruct (nextToken l) as [t l1] eqn:E.
  assert (nth_token 0 l = t) as H0 by (unfold nth_token; cbn; by rewrite E).
  assert (run 1 l = l1) as H1 by (cbn; by rewrite E).
  destruct (TokenType_eqb (Token.type t) EOF_TOKEN) eqn:Et.
  - apply TokenType_eqb_eq in Et. exists 0.
    cbn [seq map]. rewrite H0, H1. repeat split; [lia|done|lia].
  - assert (Token.type t <> EOF_TOKEN) as Hne
      by (intros Heq%TokenType_eqb_eq; congruence).
    pose proof (nextToken_progress _ _ _ E Hne) as Hp.
    destruct (IH l1 (acc ++ [t])%list ltac:(lia)) as (k & Hk & Hle & He & Hn).
    exists (S k). rewrite Hk.
    assert (l1 = snd (nextToken l)) as Hl1 by (by rewrite E).
    split; [|split; [lia|split]].
    + f_equal. f_equal.
      * rewrite <- app_assoc. f_equal.
        change (seq 0 (S (S k))) with (0 :: seq 1 (S k)).
        rewrite <- seq_shift, map_cons, map_map, H0. cbn [app]. f_equal.
        apply map_ext. intros i. by rewrite nth_token_S, Hl1.
      * by rewrite Hl1.
    + by rewrite nth_token_S, <- Hl1.
    + intros [|i] Hi; [by rewrite H0|].
      rewrite nth_token_S, <- Hl1. apply Hn. lia.
Qed.

End LexerMore.

Import Lexer LexerSpec LexerFacts LexerScan LexerCases LexerMore.

(** X1.  The tokens of a source come in order and do not overlap: each
    starts at or after the place where the previous call stopped and ends
    inside the source; an end-of-input token is empty and sits at the end
    of the source, and every other token covers at least one character. *)
Theorem token_spans_ordered (src fname : String.string) (n : nat) :
  let l0 := Lexer.new src fname in
  let l := Lexer.run n l0 in
  let l' := Lexer.run (S n) l0 in
  let t := Lexer.nth_token n l0 in
  Lexer.position l <= Lexer.start l' <= Lexer.position l'
  /\ Lexer.position l' <= String.length src
  /\ (Token.type t = EOF_TOKEN ->
      Lexer.start l' = Lexer.position l'
      /\ Lexer.position l' = String.length src)
  /\ (Token.type t <> EOF_TOKEN -> Lexer.start l' < Lexer.position l').
Proof.
  cbv zeta.
  destruct (nextToken (run n (new src fname))) as [t l'] eqn:E.
  assert (nth_token n (new src fname) = t) as ->
    by (unfold nth_token; by rewrite E).
  assert (run (S n) (new src fname) = l') as Hrun
    by (by rewrite run_S, E).
  destruct (steps_source _ _ (run_steps (S n) (new src fname))) as [Hsrc _].
  pose proof (steps_bounded _ _ (run_steps (S n) (new src fname))
                (Nat.le_0_l _)) as Hb.
  rewrite Hsrc in Hb. rewrite Hrun in *. cbn [new source] in Hb, Hsrc.
  destruct (nextToken_spans _ _ _ E) as (e & H1 & H2 & H3 & H4 & H5 & _).
  apply steps_position in H1.
  apply scans_facts in H3 as (Hse & Hst & Hpos & _).
  rewrite Hst, H2. split; [lia|]. split; [done|]. split.
  - intros Ht. destruct (H4 Ht) as [-> He]. split; [done|].
    apply isAtEnd_remaining in He. unfold remaining in He.
    rewrite Hsrc in He. lia.
  - intros Ht. by destruct (H5 Ht).
Qed.

(** X2.  [tokenize] returns whenever it may make more calls than the
    source has characters: the tokens are those of the successive
    [nextToken] calls, there are at most one more than characters, the last
    one is the end-of-input token and no other is. *)
Theorem tokenize_ends_with_eof (src fname : String.string) (fuel : nat) :
  String.length src < fuel ->
  let l0 := Lexer.new src fname in
  exists k,
    Lexer.tokenize fuel l0
    = Some (map (fun i => Lexer.nth_token i l0) (seq 0 (S k)),
            Lexer.run (S k) l0)
    /\ k <= String.length src
    /\ Token.type (Lexer.nth_token k l0) = EOF_TOKEN
    /\ forall i, i < k -> Token.type (Lexer.nth_token i l0) <> EOF_TOKEN.
Proof.
  intros Hf l0. unfold tokenize.
  destruct (tokenize_loop_spec fuel l0 [])
    as (k & Hk & Hle & He & Hn).
  { unfold remaining. cbn. lia. }
  exists k. rewrite Hk. cbn [app]. split; [done|].
  split; [|done]. unfold remaining in Hle. cbn in Hle. lia.
Qed.

Lemma tokenize_ends_with_eof_witness :
  exists k,
    Lexer.tokenize 11 (Lexer.new "var x = 1;" "script.story")
    = Some (map (fun i => Lexer.nth_token i
                            (Lexer.new "var x = 1;" "script.story"))
              (seq 0 (S k)),
            Lexer.run (S k) (Lexer.new "var x = 1;" "script.story"))
    /\ k <= String.length "var x = 1;"
    /\ Token.type (Lexer.nth_token k
                     (Lexer.new "var x = 1;" "script.story")) = EOF_TOKEN
    /\ forall i, i < k ->
         Token.type (Lexer.nth_token i
                       (Lexer.new "var x = 1;" "script.story"))
         <> EOF_TOKEN.
Proof.
  apply (tokenize_ends_with_eof "var x = 1;" "script.story" 11).
  vm_compute. lia.
Defined.

(** X3.  In a source shorter than [INT_MAX] characters, the line of every
    token is one more than the number of newlines before the end of the
    token. *)
Theorem token_line_counts_newlines (src fname : String.string) (n : nat) :
  (Z.of_nat (String.length src) < 2 ^ 31 - 1)%Z ->
  let l0 := Lexer.new src fname in
  Token.line (Lexer.nth_token n l0)
  = (1 + newlines_before src (Lexer.position (Lexer.run (S n) l0)))%Z.
Proof.
  intros Hshort l0.
  rewrite (produced_line _ _ _ (nth_token_produced n l0)).
  by destruct (tracks_run src Hshort fname (S n)).
Qed.

Lemma token_line_counts_newlines_witness :
  let src := String "010" "x" in
  Token.line (Lexer.nth_token 0 (Lexer.new src "script.story"))
  = (1 + newlines_before src
           (Lexer.position (Lexer.run 1 (Lexer.new src "script.story"))))%Z.
Proof.
  apply (token_line_counts_newlines (String "010" "x") "script.story" 0).
  vm_compute. reflexivity.
Defined.

(** X4.  In a source shorter than [INT_MAX] characters, the column of a
    token that is not a lex-error token is the column of the end of the
    token minus the length of the token, plus one when the token ends after
    the first line; for a token other than a string this is the column of
    its first character, plus one on every line after the first. *)
Theorem token_column_formula (src fname : String.string) (n : nat) :
  (Z.of_nat (String.length src) < 2 ^ 31 - 1)%Z ->
  Token.type (Lexer.nth_token n (Lexer.new src fname)) <> UNKNOWN ->
  let l0 := Lexer.new src fname in
  let t := Lexer.nth_token n l0 in
  let l' := Lexer.run (S n) l0 in
  let shift := if Z.eqb (Token.line t) 1 then 0%Z else 1%Z in
  Token.column t
  = (column_of src (Lexer.position l') + shift
     - Z.of_nat (Lexer.position l' - Lexer.start l'))%Z
  /\ (Token.type t <> STRING ->
      Token.column t = (column_of src (Lexer.start l') + shift)%Z).
Proof.
  intros Hshort Hu l0 t l' shift. fold l0 t in Hu.
  assert (nextToken (run n l0) = (t, l')) as E.
  { unfold t, l', nth_token. rewrite run_S. by destruct (nextToken _). }
  pose proof (nextToken_produced _ _ _ E) as Hp.
  pose proof (produced_line _ _ _ Hp) as Hline.
  destruct Hp as [_ Hp].
  destruct (tracks_run src Hshort fname (S n)) as [Hsrc Hpos Hl Hc].
  fold l0 l' in Hsrc, Hpos, Hl, Hc.
  destruct (inv_run src Hshort fname (S n)) as [_ Hst _ _ _ _].
  fold l0 l' in Hst.
  pose proof (column_of_bounds src (position l') Hpos) as [Hb1 Hb2].
  pose proof (newlines_before_bounds src (position l')) as Hnb.
  assert (Token.column t
          = (column_of src (position l') + shift
             - Z.of_nat (position l' - start l'))%Z) as Hcol.
  { destruct Hp as [(ty & Ht & _)|[Ht|Ht]];
      [|rewrite Ht in Hu; by cbn in Hu..].
    rewrite Ht. cbn [makeToken Token.column]. unfold current_lexeme.
    rewrite Hsrc, length_substring by lia.
    rewrite Hc. unfold shift. rewrite Hline.
    rewrite int_wrap_size_t; [done|].
    destruct (Z.eqb_spec (line l') 1); lia. }
  split; [done|]. intros Hs. rewrite Hcol.
  destruct (nextToken_spans _ _ _ E) as (e & H1 & H2 & H3 & _ & _ & H6).
  destruct (plain_scans_facts _ _ (H6 Hs Hu)) as [_ Hplain].
  apply scans_facts in H3 as (Hse & Hste & Hpe & _).
  rewrite (column_of_plain src (start l') (position l')).
  - lia.
  - lia.
  - intros i Hi. rewrite <- Hsrc, Hse. apply Hplain. lia.
Qed.

Lemma token_column_formula_witness :
  let src := String "010" " x" in
  let l0 := Lexer.new src "script.story" in
  let t := Lexer.nth_token 0 l0 in
  let l' := Lexer.run 1 l0 in
  let shift := if Z.eqb (Token.line t) 1 then 0%Z else 1%Z in
  Token.column t
  = (column_of src (Lexer.position l') + shift
     - Z.of_nat (Lexer.position l' - Lexer.start l'))%Z
  /\ (Token.type t <> STRING ->
      Token.column t = (column_of src (Lexer.start l') + shift)%Z).
Proof.
  apply (token_column_formula (String "010" " x") "script.story" 0);
    [vm_compute; reflexivity | vm_compute; discriminate].
Defined.

(** * The text of identifier, keyword and string tokens *)

Module LexemeFacts.
Import Lexer LexerSpec LexerFacts LexerScan LexerCases LexerMore.

Lemma substring_0 a s : String.substring a 0 s = "".
Proof.
  revert a. induction s as [|c s IH]; intros [|a]; cbn; try done.
Qed.

Lemma substring_S a n s :
  a < String.length s ->
  String.substring a (S n) s
  = String (char_at s a) (String.substring (S a) n s).
Proof.
  revert a. induction s as [|c s IH]; intros a Ha; [simpl in Ha; lia|].
  destruct a as [|a].
  - cbn. by destruct s, n.
  - cbn [String.substring]. rewrite char_at_cons.
    rewrite IH by (simpl in Ha; lia). done.
Qed.

Lemma substring_forall p a n s :
  a + n <= String.length s ->
  (forall i, a <= i < a + n -> p (char_at s i) = true) ->
  string_forall p (String.substring a n s) = true.
Proof.
  revert a. induction n as [|n IH]; intros a Hlen Hp.
  - by rewrite substring_0.
  - rewrite substring_S by lia. cbn [string_forall].
    rewrite Hp by lia. apply IH; [lia|]. intros i Hi. apply Hp. lia.
Qed.

Lemma substring_snoc a n s :
  a + n < String.length s ->
  String.substring a (S n) s
  = String.substring a n s ++ String (char_at s (a + n)) "".
Proof.
  revert a. induction n as [|n IH]; intros a Hlen.
  - rewrite substring_S, !substring_0 by lia. by rewrite Nat.add_0_r.
  - rewrite (substring_S a (S n)), (substring_S a n) by lia.
    rewrite IH by lia. cbn [append].
    by replace (a + S n) with (S a + n) by lia.
Qed.

Lemma substring_prefix b x :
  String.substring 0 (String.length b) (b ++ x) = b.
Proof.
  induction b as [|c b IH]; [by rewrite substring_0|].
  change (String c b ++ x) with (String c (b ++ x)).
  cbn [String.length String.substring]. by rewrite IH.
Qed.

Lemma length_append a b :
  String.length (a ++ b) = String.length a + String.length b.
Proof.
  induction a as [|c a IH]; [done|].
  change (String c a ++ b) with (String c (a ++ b)).
  cbn [String.length]. by rewrite IH.
Qed.

(** Stripping the delimiters as [parsePrimary] does. *)
Lemma strip_quoted body :
  String.substring 1 (String.length (quoted body) - 2) (quoted body) = body.
Proof.
  unfold quoted. cbn [String.length String.substring].
  rewrite length_append. cbn [String.length].
  replace (S (String.length body + 1) - 2) with (String.length body) by lia.
  apply substring_prefix.
Qed.

(** What a scanning loop passed satisfies its condition. *)
Lemma advance_while_chars (p : ascii -> bool) cond n l :
  (forall l, cond l = p (peek l)) -> p "000"%char = false ->
  forall i, position l <= i < position (advance_while cond n l) ->
    p (char_at (source l) i) = true.
Proof.
  intros Hc H0. revert l. induction n as [|n IH]; intros l i;
    cbn [advance_while].
  - destruct (cond l); lia.
  - destruct (cond l) eqn:E; [|lia]. intros Hi.
    rewrite Hc in E.
    assert (peek l <> "000"%char) as Hne by (intros Ep; congruence).
    destruct (peek_not_null l _ eq_refl Hne) as [_ Hp].
    destruct (decide (i = position l)) as [->|Hi']; [by rewrite Hp|].
    apply (IH (snd (advance l))).
    split; [cbn [advance snd position]; lia | apply Hi].
Qed.

Lemma string_loop_chars n l :
  forall i, position l <= i < position (string_loop n l) ->
    Ascii.eqb (char_at (source l) i) dquote = false.
Proof.
  revert l. induction n as [|n IH]; intros l i; cbn [string_loop].
  - destruct (string_cond l); lia.
  - destruct (string_cond l) eqn:E; [|lia]. intros Hi.
    pose proof (string_cond_not_at_end _ E) as He.
    unfold string_cond in E. apply andb_true_iff in E as [E _].
    apply negb_true_iff in E. unfold peek in E. rewrite He in E.
    destruct (decide (i = position l)) as [->|Hi']; [done|].
    destruct (Ascii.eqb (peek l) "010");
      [apply (IH (snd (advance (newline l))))
      |apply (IH (snd (advance l)))];
      (split; [cbn [advance newline snd position]; lia | apply Hi]).
Qed.

(** The text of a token that starts at [entry l]. *)
Lemma lexeme_from_entry l l' :
  isAtEnd (entry l) = false ->
  scans (after_first l) l' ->
  current_lexeme l'
  = String (entry_char l)
      (String.substring (S (position (entry l)))
         (position l' - S (position (entry l))) (source (entry l))).
Proof.
  intros He Hs. apply not_at_end in He.
  apply scans_facts in Hs as (Hsrc & Hst & Hpos & _).
  unfold current_lexeme. rewrite Hsrc, Hst.
  cbn [after_first advance snd source start position] in *.
  rewrite entry_start.
  replace (position l' - position (entry l))
    with (S (position l' - S (position (entry l)))) by lia.
  by rewrite substring_S.
Qed.

Lemma keyword_starts_with_letter text ty :
  keywords !! text = Some ty ->
  exists c rest, text = String c rest /\ isalpha c = true.
Proof.
  unfold keywords, initKeywords. intros H.
  repeat (apply lookup_insert_Some in H as [[<- _]|[_ H]];
          [by eexists _, _|]).
  by rewrite lookup_empty in H.
Qed.


Lemma substring_app a n m s :
  a + n + m <= String.length s ->
  String.substring a (n + m) s
  = String.substring a n s ++ String.substring (a + n) m s.
Proof.
  revert a. induction n as [|n IH]; intros a Hlen.
  - rewrite substring_0, Nat.add_0_r. done.
  - cbn [Nat.add]. destruct (decide (a < String.length s)) as [Ha|Ha].
    + rewrite !(substring_S a) by done. rewrite IH by lia.
      change (String ?c ?x ++ ?y) with (String c (x ++ y)).
      by replace (a + S n) with (S a + n) by lia.
    + lia.
Qed.

Lemma scans_bound l l' :
  isAtEnd (entry l) = false -> scans (after_first l) l' ->
  S (position (entry l)) <= position l'
  /\ position l' <= String.length (source (entry l))
  /\ source l' = source (entry l).
Proof.
  intros He%not_at_end (Hsrc & _ & Hpos & Hlen)%scans_facts.
  unfold after_first in *. cbn [advance snd source position] in *.
  split; [lia|]. split; [lia|done].
Qed.

Lemma advance_while_progress cond l :
  plain_cond cond -> cond l = true ->
  S (position l) <= position (advance_while cond (remaining l) l).
Proof.
  intros Hc E. destruct (Hc _ E) as [He%not_at_end _].
  unfold remaining.
  destruct (String.length (source l) - position l) as [|n] eqn:En; [lia|].
  cbn [advance_while]. rewrite E.
  apply (plain_scans_position (snd (advance l))), advance_while_plain, Hc.
Qed.

Lemma identifier_cond_char l : identifier_cond l = identifier_char (peek l).
Proof. reflexivity. Qed.

Lemma digits_cond_char l : digits_cond l = isdigit (peek l).
Proof. reflexivity. Qed.

Lemma empty_lexeme l : start l = position l -> current_lexeme l = "".
Proof.
  unfold current_lexeme. intros ->. by rewrite Nat.sub_diag, substring_0.
Qed.

Lemma identifier_lexed l :
  isAtEnd (entry l) = false ->
  identifier_start (entry_char l) = true ->
  lexed (fst (identifier (after_first l))).
Proof.
  intros He Hc. unfold identifier. cbv zeta. cbn [fst].
  set (l1 := advance_while identifier_cond _ _).
  assert (plain_scans (after_first l) l1) as Hp
    by apply advance_while_plain, identifier_cond_plain.
  pose proof (lexeme_from_entry l l1 He (plain_scans_scans _ _ Hp)) as Hl.
  destruct (scans_bound l l1 He (plain_scans_scans _ _ Hp)) as (H1 & H2 & _).
  eapply lexed_word; [exact Hl|exact Hc| |reflexivity].
  apply substring_forall; [lia|]. intros i Hi.
  apply (advance_while_chars identifier_char identifier_cond
           (remaining (after_first l)) (after_first l));
    [apply identifier_cond_char|reflexivity|].
  fold l1. rewrite after_first_position. lia.
Qed.

Lemma number_lexed l :
  isAtEnd (entry l) = false ->
  isdigit (entry_char l) = true ->
  lexed (fst (number (after_first l))).
Proof.
  intros He Hc. unfold number. cbv zeta. cbn [fst].
  set (l3 := advance_while digits_cond _ (after_first l)).
  assert (plain_scans (after_first l) l3) as Hp3
    by apply advance_while_plain, digits_cond_plain.
  destruct (scans_bound l l3 He (plain_scans_scans _ _ Hp3))
    as (H1 & H2 & Hs3).
  assert (forall i, position (entry l) <= i < position l3 ->
            isdigit (char_at (source (entry l)) i) = true) as Hd3.
  { intros i Hi.
    destruct (decide (i = position (entry l))) as [->|Hne]; [exact Hc|].
    apply (advance_while_chars isdigit digits_cond
             (remaining (after_first l)) (after_first l));
      [apply digits_cond_char|reflexivity|].
    fold l3. rewrite after_first_position. lia. }
  assert (String.substring (position (entry l))
            (position l3 - position (entry l)) (source (entry l)) <> "")
    as Hne.
  { replace (position l3 - position (entry l))
      with (S (position l3 - S (position (entry l)))) by lia.
    rewrite substring_S by (apply not_at_end in He; lia). done. }
  destruct (Ascii.eqb (peek l3) "." && isdigit (peekNext l3)) eqn:Hdot.
  - apply andb_true_iff in Hdot as [Hpk Hnx].
    apply Ascii.eqb_eq in Hpk.
    destruct (peek_not_null l3 _ Hpk ltac:(done)) as [He3 Hch].
    set (l4 := snd (advance l3)).
    assert (digits_cond l4 = true) as Hc4.
    { unfold digits_cond, peek, isAtEnd. unfold peekNext in Hnx.
      cbn [l4 advance snd source position].
      replace (S (position l3)) with (position l3 + 1) by lia.
      destruct (Nat.leb _ _); [discriminate Hnx|exact Hnx]. }
    set (l5 := advance_while digits_cond (remaining l4) l4).
    pose proof (advance_while_progress _ _ digits_cond_plain Hc4) as H5.
    fold l5 in H5.
    assert (plain_scans l4 l5) as Hp5
      by apply advance_while_plain, digits_cond_plain.
    assert (scans (after_first l) l5) as Hs5.
    { eapply rtc_trans; [apply plain_scans_scans, Hp3|].
      eapply rtc_l; [|apply plain_scans_scans, Hp5].
      apply scan_advance; [exact He3|]. rewrite Hch. done. }
    destruct (scans_bound l l5 He Hs5) as (H6 & H7 & Hs5').
    cbn [l4 advance snd position] in H5.
    apply lexed_number; [reflexivity|].
    exists (String.substring (position (entry l))
              (position l3 - position (entry l)) (source (entry l))),
           (String.substring (S (position l3))
              (position l5 - S (position l3)) (source (entry l))).
    split; [exact Hne|]. split; [|split].
    + apply substring_forall; [lia|]. intros i Hi. apply Hd3. lia.
    + apply substring_forall; [lia|]. intros i Hi.
      replace (source (entry l)) with (source l4)
        by (cbn [l4 advance snd source]; exact Hs3).
      apply (advance_while_chars isdigit digits_cond (remaining l4) l4);
        [apply digits_cond_char|reflexivity|].
      fold l5. cbn [l4 advance snd position]. lia.
    + right. split.
      * replace (position l5 - S (position l3))
          with (S (position l5 - S (S (position l3)))) by lia.
        rewrite substring_S by lia. done.
      * cbn [makeToken Token.lexeme]. unfold current_lexeme.
        rewrite Hs5'.
        replace (start l5) with (position (entry l)).
        2:{ apply scans_facts in Hs5 as (_ & -> & _). reflexivity. }
        replace (position l5 - position (entry l))
          with ((position l3 - position (entry l))
                + S (position l5 - S (position l3))) by lia.
        rewrite substring_app by lia. f_equal.
        replace (position (entry l) + (position l3 - position (entry l)))
          with (position l3) by lia.
        rewrite substring_S by lia. rewrite <- Hs3, Hch. done.
  - apply lexed_number; [reflexivity|].
    exists (String.substring (position (entry l))
              (position l3 - position (entry l)) (source (entry l))), "".
    split; [exact Hne|]. split; [|split; [done|]].
    + apply substring_forall; [lia|]. intros i Hi. apply Hd3. lia.
    + left. cbn [makeToken Token.lexeme]. unfold current_lexeme.
      rewrite Hs3.
      replace (start l3) with (position (entry l)); [done|].
      apply plain_scans_scans, scans_facts in Hp3 as (_ & -> & _).
      reflexivity.
Qed.

Lemma string_lexed l :
  isAtEnd (entry l) = false ->
  entry_char l = dquote ->
  lexed (fst (string (after_first l))).
Proof.
  intros He Hc. unfold string. cbv zeta.
  set (l1 := string_loop _ (after_first l)).
  pose proof (string_loop_scans (remaining (after_first l)) (after_first l))
    as Hs1. fold l1 in Hs1.
  destruct (scans_bound l l1 He Hs1) as (H1 & H2 & Hsrc1).
  destruct (isAtEnd l1) eqn:He1; cbn [fst].
  { apply lexed_error; [reflexivity|by right]. }
  pose proof (string_loop_exit (remaining (after_first l)) (after_first l)
                ltac:(done)) as Hx. fold l1 in Hx.
  unfold string_cond, peek in Hx. rewrite He1 in Hx. cbn [negb] in Hx.
  rewrite andb_true_r in Hx. apply negb_false_iff, Ascii.eqb_eq in Hx.
  pose proof (not_at_end _ He1) as Hlt. rewrite Hsrc1 in Hlt.
  assert (scans (after_first l) (snd (advance l1))) as Hs2.
  { eapply rtc_trans; [exact Hs1|]. apply rtc_once, scan_advance; [done|].
    rewrite Hx. done. }
  pose proof (lexeme_from_entry l _ He Hs2) as Hl.
  cbn [advance snd position] in Hl. rewrite Hc in Hl.
  replace (S (position l1) - S (position (entry l)))
    with (S (position l1 - S (position (entry l)))) in Hl by lia.
  rewrite substring_snoc in Hl by lia.
  replace (S (position (entry l)) + (position l1 - S (position (entry l))))
    with (position l1) in Hl by lia.
  rewrite <- Hsrc1 in Hl at 2. rewrite Hx in Hl.
  eapply lexed_string; [reflexivity|exact Hl|].
  apply substring_forall; [lia|]. intros i Hi.
  apply negb_true_iff.
  apply (string_loop_chars (remaining (after_first l)) (after_first l)).
  fold l1. rewrite after_first_position. lia.
Qed.

Lemma symbol_lexed l ty l' :
  isAtEnd (entry l) = false ->
  identifier_start (entry_char l) = false ->
  is_symbol_type ty = true ->
  scans (after_first l) l' ->
  lexed (makeToken ty l').
Proof.
  intros He Hc Hty Hs.
  eapply lexed_symbol; [apply (lexeme_from_entry l l' He Hs)|done|done].
Qed.

(** Every token that [nextToken] returns is of one of the forms of
    [lexed]. *)
Lemma nextToken_lexed l t l' : nextToken l = (t, l') -> lexed t.
Proof.
  apply (nextToken_cases (fun _ t _ => lexed t)); clear l t l'.
  - intros l _. apply lexed_eof; [reflexivity|].
    apply empty_lexeme, entry_start.
  - intros l He Hc. by apply identifier_lexed.
  - intros l He Hc. by apply number_lexed.
  - intros l ty He Hc Hk.
    eapply (symbol_lexed l); [done|done| |apply rtc_refl].
    revert Hk. unfold simple_kind. clear.
    repeat case_match; by intros [= <-].
  - intros l He Hc _.
    eapply (symbol_lexed l); [done| |done|apply rtc_refl].
    unfold identifier_start. by rewrite Hc.
  - done.
  - intros l ty1 ty0 He Hc Hk.
    eapply (symbol_lexed l);
      [done|done| |apply plain_scans_scans, match__plain; done].
    revert Hk. unfold two_char_kind. clear.
    repeat case_match; intros [= <- <-]; done.
  - intros l He Hc. by apply string_lexed.
  - intros l _ _. apply lexed_error; [reflexivity|by left].
Qed.

End LexemeFacts.

Import LexemeFacts.

Lemma isdigit_not_identifier_start c :
  isdigit c = true -> identifier_start c = false.
Proof.
  destruct c as [[] [] [] [] [] [] [] []]; vm_compute; congruence.
Qed.

Lemma is_decimal_first s :
  is_decimal s -> exists c rest, s = String c rest /\ isdigit c = true.
Proof.
  intros (whole & frac & Hne & Hw & _ & Hs).
  destruct whole as [|c whole]; [done|].
  cbn [string_forall] in Hw. apply andb_true_iff in Hw as [Hc _].
  destruct Hs as [->|[_ ->]]; by eexists _, _.
Qed.




(** X5.  The text of an identifier token starts with a letter or an
    underscore, continues with letters, digits and underscores only, and is
    not a keyword. *)
Theorem identifier_token_text l t l' :
  Lexer.nextToken l = (t, l') ->
  Token.type t = IDENTIFIER ->
  exists c rest,
    Token.lexeme t = String c rest
    /\ identifier_start c = true
    /\ string_forall identifier_char rest = true
    /\ Lexer.keywords !! Token.lexeme t = None.
Proof.
  intros E Hty.
  destruct (nextToken_lexed _ _ _ E)
    as [H _|H _|c rest Hl Hc Hr Hk|H _|body H _ _|c rest _ _ Hs];
    try congruence.
  - exists c, rest. repeat split; try done.
    destruct (keywords !! Token.lexeme t) as [ty|] eqn:Ek; [|done].
    apply keywords_range in Ek. rewrite <- Hk, Hty in Ek. done.
  - rewrite Hty in Hs. done.
Qed.

Lemma identifier_token_text_witness :
  exists c rest,
    Token.lexeme (fst (Lexer.nextToken (script "  room_1 {"))) = String c rest
    /\ identifier_start c = true
    /\ string_forall identifier_char rest = true
    /\ Lexer.keywords
         !! Token.lexeme (fst (Lexer.nextToken (script "  room_1 {"))) = None.
Proof.
  apply (identifier_token_text (script "  room_1 {") _
           (snd (Lexer.nextToken (script "  room_1 {"))));
    vm_compute; reflexivity.
Defined.

(** X6.  A token whose text is a keyword has the kind that the keyword
    table gives to that text: a keyword is never returned as an
    identifier, and no other token carries the text of a keyword. *)
Theorem keyword_text_has_keyword_kind l t l' ty :
  Lexer.nextToken l = (t, l') ->
  Lexer.keywords !! Token.lexeme t = Some ty ->
  Token.type t = ty.
Proof.
  intros E Hk.
  destruct (keyword_starts_with_letter _ _ Hk) as (c & rest & Hl & Hc).
  assert (identifier_start c = true) as Hi
    by (unfold identifier_start; by rewrite Hc).
  destruct (nextToken_lexed _ _ _ E)
    as [_ H|_ [H|H]|c' rest' _ _ _ Hty|_ Hd|body _ H _|c' rest' H Hs _].
  - rewrite H in Hl. done.
  - rewrite H in Hk. vm_compute in Hk. done.
  - rewrite H in Hk. vm_compute in Hk. done.
  - by rewrite Hk in Hty.
  - destruct (is_decimal_first _ Hd) as (c' & rest' & H & Hd').
    rewrite H in Hl. injection Hl as -> _.
    apply isdigit_not_identifier_start in Hd'. congruence.
  - rewrite H in Hl. unfold quoted in Hl. injection Hl as <- _.
    discriminate Hc.
  - rewrite H in Hl. injection Hl as -> _. congruence.
Qed.

Lemma keyword_text_has_keyword_kind_witness :
  Token.type (fst (Lexer.nextToken (script "while (x) { }"))) = WHILE.
Proof.
  apply (keyword_text_has_keyword_kind (script "while (x) { }") _
           (snd (Lexer.nextToken (script "while (x) { }"))));
    vm_compute; reflexivity.
Defined.

Lemma not_symbol_text l t l' :
  nextToken l = (t, l') ->
  Token.type t = NOT ->
  forall c rest, Token.lexeme t = String c rest ->
    identifier_start c = false -> Token.lexeme t = "!".
Proof.
  apply (nextToken_cases
           (fun _ t _ => Token.type t = NOT ->
              forall c rest, Token.lexeme t = String c rest ->
                identifier_start c = false -> Token.lexeme t = "!"));
    clear l t l'.
  - done.
  - intros l He Hc _ c rest Hl Hi.
    pose proof (lexeme_from_entry l _ He
                  (plain_scans_scans _ _ (identifier_plain _))) as Hl'.
    unfold identifier in Hl. cbv zeta in Hl.
    cbn [fst makeToken Token.lexeme] in Hl.
    unfold identifier in Hl'. cbv zeta in Hl'. cbn [snd] in Hl'.
    rewrite Hl' in Hl. injection Hl as Hc' _.
    unfold identifier_start in Hi. rewrite Hc' in Hc. congruence.
  - done.
  - intros l ty _ _ Hk Hn. cbn in Hn. subst ty.
    revert Hk. unfold simple_kind. repeat case_match; done.
  - done.
  - done.
  - intros l ty1 ty0 He Hc Hk Hn _ _ _ _.
    cbn [makeToken Token.type] in Hn.
    assert (Ascii.eqb (entry_char l) "!" = true
            /\ fst (match_ "=" (after_first l)) = false) as [Hb Hm].
    { revert Hk Hn. unfold two_char_kind.
      repeat case_match; intros [= <- <-]; done. }
    apply Ascii.eqb_eq in Hb.
    cbn [makeToken Token.lexeme].
    rewrite (lexeme_from_entry l _ He
               (plain_scans_scans _ _ (match__plain "=" _ ltac:(done)))).
    rewrite Hb. f_equal.
    revert Hm. clear. unfold match_.
    destruct (isAtEnd (after_first l) || _); [|by cbn]. intros _.
    cbn [snd]. rewrite after_first_position, Nat.sub_diag.
    apply substring_0.
  - intros l _ _ Hn. revert Hn. unfold string.
    cbv zeta. case_match; done.
  - done.
Qed.

(** X7.  A token of a keyword kind other than [NOT] carries the text that
    the keyword table maps to its kind; a [NOT] token is either the word
    [not] or the operator [!]. *)
Theorem keyword_kind_has_keyword_text l t l' :
  Lexer.nextToken l = (t, l') ->
  is_keyword_type (Token.type t) = true ->
  Lexer.keywords !! Token.lexeme t = Some (Token.type t)
  \/ (Token.type t = NOT /\ Token.lexeme t = "!").
Proof.
  intros E Hk.
  pose proof E as Hsp%nextToken_spans.
  destruct (nextToken_lexed _ _ _ E)
    as [H _|H _|c rest _ _ _ Hty|H _|body H _ _|c rest Hl Hc Hs];
    try (rewrite H in Hk; done).
  - left. destruct (keywords !! Token.lexeme t) as [ty|] eqn:Ek;
      [by rewrite Hty|]. rewrite Hty in Hk. done.
  - right.
    assert (Token.type t = NOT) as Hn
      by (destruct (Token.type t); done).
    split; [done|]. by eapply not_symbol_text.
Qed.

Lemma keyword_kind_has_keyword_text_witness :
  Lexer.keywords
    !! Token.lexeme (fst (Lexer.nextToken (script "entered")))
  = Some (Token.type (fst (Lexer.nextToken (script "entered"))))
  \/ (Token.type (fst (Lexer.nextToken (script "entered"))) = NOT
      /\ Token.lexeme (fst (Lexer.nextToken (script "entered"))) = "!").
Proof.
  apply (keyword_kind_has_keyword_text (script "entered") _
           (snd (Lexer.nextToken (script "entered"))));
    vm_compute; reflexivity.
Defined.

(** X8.  The text of a string token is its content between two double
    quotes, the content holds no double quote, and removing the first and
    the last character, as [parsePrimary] does, gives back the content. *)
Theorem string_token_text l t l' :
  Lexer.nextToken l = (t, l') ->
  Token.type t = STRING ->
  exists body,
    Token.lexeme t = quoted body
    /\ string_forall (fun c => negb (Ascii.eqb c dquote)) body = true
    /\ String.substring 1 (String.length (Token.lexeme t) - 2)
         (Token.lexeme t) = body.
Proof.
  intros E Hty.
  destruct (nextToken_lexed _ _ _ E)
    as [H _|H _|c rest Hl Hc Hr Hk|H _|body _ Hl Hb|c rest _ _ Hs];
    try congruence.
  - destruct (keywords !! Token.lexeme t) as [ty|] eqn:Ek; [|congruence].
    apply keywords_range in Ek. rewrite <- Hk, Hty in Ek. done.
  - exists body. rewrite Hl. split; [done|]. split; [done|].
    apply strip_quoted.
  - rewrite Hty in Hs. done.
Qed.

Lemma string_token_text_witness :
  exists body,
    Token.lexeme (fst (Lexer.nextToken (script (quoted "Hi")))) = quoted body
    /\ string_forall (fun c => negb (Ascii.eqb c dquote)) body = true
    /\ String.substring 1
         (String.length
            (Token.lexeme (fst (Lexer.nextToken (script (quoted "Hi"))))) - 2)
         (Token.lexeme (fst (Lexer.nextToken (script (quoted "Hi"))))) = body.
Proof.
  apply (string_token_text (script (quoted "Hi")) _
           (snd (Lexer.nextToken (script (quoted "Hi")))));
    vm_compute; reflexivity.
Defined.




(** * What the parser does to its state *)

Module ParserTraceFacts.
Import Parser ParserSpec ParserFacts ParserTrace.
Import Lexer(run, nth_token, nextToken).

Create HintDb trace.

Lemma reaches_refl p : reaches p p.
Proof.
  exists 0, []. split; cbn [run nonempty];
    [done|done|by rewrite app_nil_r|by rewrite orb_false_r].
Qed.

Lemma effect_trans k1 new1 k2 new2 p p' p'' :
  effect k1 new1 p p' -> effect k2 new2 p' p'' ->
  effect (k1 + k2) (new1 ++ new2)%list p p''.
Proof.
  intros [L1 C1 E1 F1] [L2 C2 E2 F2]. split.
  - by rewrite L2, L1, LexerFacts.run_add.
  - rewrite C2. destruct k2 as [|j].
    + by rewrite Nat.add_0_r.
    + rewrite L1. replace (k1 + S j) with (S (k1 + j)) by lia.
      unfold nth_token. by rewrite LexerFacts.run_add.
  - by rewrite E2, E1, app_assoc.
  - rewrite F2, F1. destruct new1, new2; cbn [nonempty app];
      by rewrite ?orb_false_r, ?orb_true_r.
Qed.

Lemma reaches_trans p p' p'' : reaches p p' -> reaches p' p'' -> reaches p p''.
Proof.
  intros (k1 & n1 & H1) (k2 & n2 & H2).
  exists (k1 + k2), (n1 ++ n2)%list. by eapply effect_trans.
Qed.

Lemma moves_reaches p p' : moves p p' -> reaches p p'.
Proof. intros (k & n & H & _). by exists k, n. Qed.

Lemma moves_then p p' p'' : moves p p' -> reaches p' p'' -> moves p p''.
Proof.
  intros (k1 & n1 & H1 & Hm) (k2 & n2 & H2).
  exists (k1 + k2), (n1 ++ n2)%list. split; [by eapply effect_trans|].
  destruct Hm as [Hm|Hm]; [left; lia|right].
  destruct n1; [done|]. done.
Qed.

Lemma then_moves p p' p'' : reaches p p' -> moves p' p'' -> moves p p''.
Proof.
  intros (k1 & n1 & H1) (k2 & n2 & H2 & Hm).
  exists (k1 + k2), (n1 ++ n2)%list. split; [by eapply effect_trans|].
  destruct Hm as [Hm|Hm]; [left; lia|right].
  destruct n1, n2; done.
Qed.

Lemma effect_advanced p : effect 1 [] p (advanced p).
Proof.
  split; unfold advanced, nth_token; cbn [run];
    destruct (nextToken (lexer p)) as [t l'];
    cbn [lexer current cerr errorOccurred nonempty fst snd];
    [done|done|by rewrite app_nil_r|by rewrite orb_false_r].
Qed.

Lemma effect_record_error message p :
  effect 0 [mkDiagnostic (Token.line (current p)) (Token.column (current p))
              message] p (record_error message p).
Proof.
  split; cbn [record_error lexer current cerr errorOccurred run nonempty];
    [done|done|done|by rewrite orb_true_r].
Qed.

Lemma moves_advanced p : moves p (advanced p).
Proof. exists 1, []. split; [apply effect_advanced|left; lia]. Qed.

Lemma moves_record_error message p : moves p (record_error message p).
Proof. eexists 0, _. split; [apply effect_record_error|by right]. Qed.

(** ** Rules for [outcome] *)

Lemma ret_reaches {A} (a : A) : outcome reaches (ret a).
Proof. intros p. apply reaches_refl. Qed.

Lemma get_reaches {A} (f : Parser -> A) : outcome reaches (get f).
Proof. intros p. apply reaches_refl. Qed.

Lemma throw_reaches {A} : outcome reaches (@throw A).
Proof. intros p. apply reaches_refl. Qed.

Lemma crash_reaches {A} : outcome reaches (@crash A).
Proof. by intros p. Qed.

Lemma outOfFuel_reaches {A} : outcome reaches (@outOfFuel A).
Proof. by intros p. Qed.

Lemma bind_reaches {A B} (m : M A) (k : A -> M B) :
  outcome reaches m -> (forall a, outcome reaches (k a)) ->
  outcome reaches (bind m k).
Proof.
  intros Hm Hk p. unfold bind. specialize (Hm p).
  destruct (m p) as [a p1|p1| |]; [|done..].
  specialize (Hk a p1). destruct (k a p1); eauto using reaches_trans.
Qed.

Lemma try_catch_reaches {A} (m h : M A) :
  outcome reaches m -> outcome reaches h -> outcome reaches (try_catch m h).
Proof.
  intros Hm Hh p. unfold try_catch. specialize (Hm p).
  destruct (m p) as [a p1|p1| |]; [done| |done..].
  specialize (Hh p1). destruct (h p1); eauto using reaches_trans.
Qed.

Lemma advance_reaches : outcome reaches advance.
Proof. intros p. apply moves_reaches, moves_advanced. Qed.

Lemma error_reaches message : outcome reaches (error message).
Proof. intros p. apply moves_reaches, (moves_record_error message). Qed.

Lemma check_reaches ty : outcome reaches (check ty).
Proof. apply get_reaches. Qed.

Lemma getCurrentLocation_reaches : outcome reaches getCurrentLocation.
Proof. apply get_reaches. Qed.

#[local] Hint Resolve ret_reaches get_reaches throw_reaches crash_reaches
  outOfFuel_reaches advance_reaches error_reaches check_reaches
  getCurrentLocation_reaches : trace.

(** Walks through the code of a parser function. *)
Ltac trace :=
  repeat first
    [ solve [eauto 3 with trace]
    | apply bind_reaches; [|intros ?]
    | apply try_catch_reaches
    | lazymatch goal with
      | |- outcome _ (if ?b then _ else _) => destruct b
      | |- outcome _ (match ?x with _ => _ end) => destruct x
      | |- outcome _ (let '(_, _) := ?x in _) => destruct x
      end ].

Lemma match__reaches ty : outcome reaches (match_ ty).
Proof. unfold match_. trace. Qed.

Lemma match_any_reaches types : outcome reaches (match_any types).
Proof. induction types as [|ty types IH]; cbn [match_any]; trace. Qed.

Lemma consume_reaches ty message : outcome reaches (consume ty message).
Proof. unfold consume. trace. Qed.

#[local] Hint Resolve match__reaches match_any_reaches consume_reaches
  : trace.

Lemma synchronize_loop_reaches fuel : outcome reaches (synchronize_loop fuel).
Proof. induction fuel as [|fuel IH]; cbn [synchronize_loop]; trace. Qed.
#[local] Hint Resolve synchronize_loop_reaches : trace.

Lemma synchronize_reaches fuel : outcome reaches (synchronize fuel).
Proof. unfold synchronize. trace. Qed.
#[local] Hint Resolve synchronize_reaches : trace.

Section Expressions.
Variable rec : M (option Expression).
Hypothesis Hrec : outcome reaches rec.

Lemma parsePrimary_reaches : outcome reaches (parsePrimary rec).
Proof using Hrec. unfold parsePrimary. trace. Qed.
Hint Resolve parsePrimary_reaches : trace.

Lemma finishCall_arguments_reaches n arguments :
  outcome reaches (finishCall_arguments rec n arguments).
Proof using Hrec.
  revert arguments. induction n as [|n IH]; intros arguments;
    cbn [finishCall_arguments]; trace.
Qed.
Hint Resolve finishCall_arguments_reaches : trace.

Lemma finishCall_reaches n callee : outcome reaches (finishCall rec n callee).
Proof using Hrec. unfold finishCall. trace. Qed.
Hint Resolve finishCall_reaches : trace.

Lemma parseCall_loop_reaches n expr :
  outcome reaches (parseCall_loop rec n expr).
Proof using Hrec.
  revert expr. induction n as [|n IH]; intros expr;
    cbn [parseCall_loop]; trace.
Qed.
Hint Resolve parseCall_loop_reaches : trace.

Lemma parseCall_reaches n : outcome reaches (parseCall rec n).
Proof using Hrec. unfold parseCall. trace. Qed.
Hint Resolve parseCall_reaches : trace.

Lemma parseUnary_reaches n : outcome reaches (parseUnary rec n).
Proof using Hrec. induction n as [|n IH]; cbn [parseUnary]; trace. Qed.
Hint Resolve parseUnary_reaches : trace.

Lemma binary_loop_reaches matches operand n expr :
  outcome reaches matches -> outcome reaches operand ->
  outcome reaches (binary_loop matches operand n expr).
Proof.
  intros Hm Ho. revert expr. induction n as [|n IH]; intros expr;
    cbn [binary_loop]; trace.
Qed.
Hint Resolve binary_loop_reaches : trace.

Lemma parseFactor_reaches n : outcome reaches (parseFactor rec n).
Proof using Hrec. unfold parseFactor. trace. Qed.
Hint Resolve parseFactor_reaches : trace.

Lemma parseTerm_reaches n : outcome reaches (parseTerm rec n).
Proof using Hrec. unfold parseTerm. trace. Qed.
Hint Resolve parseTerm_reaches : trace.

Lemma parseComparison_reaches n : outcome reaches (parseComparison rec n).
Proof using Hrec. unfold parseComparison. trace. Qed.
Hint Resolve parseComparison_reaches : trace.

Lemma parseEquality_reaches n : outcome reaches (parseEquality rec n).
Proof using Hrec. unfold parseEquality. trace. Qed.
Hint Resolve parseEquality_reaches : trace.

Lemma parseLogicalAnd_reaches n : outcome reaches (parseLogicalAnd rec n).
Proof using Hrec. unfold parseLogicalAnd. trace. Qed.
Hint Resolve parseLogicalAnd_reaches : trace.

Lemma parseLogicalOr_reaches n : outcome reaches (parseLogicalOr rec n).
Proof using Hrec. unfold parseLogicalOr. trace. Qed.
Hint Resolve parseLogicalOr_reaches : trace.

Lemma parseAssignment_reaches n : outcome reaches (parseAssignment rec n).
Proof using Hrec. induction n as [|n IH]; cbn [parseAssignment]; trace. Qed.
End Expressions.

Lemma parseExpression_reaches n : outcome reaches (parseExpression n).
Proof.
  induction n as [|n IH]; cbn [parseExpression];
    apply parseAssignment_reaches; eauto with trace.
Qed.
#[local] Hint Resolve parseExpression_reaches : trace.

Section Statements.
Variable rec : M Statement.
Hypothesis Hrec : outcome reaches rec.

Lemma parseVarDeclaration_reaches n : outcome reaches (parseVarDeclaration n).
Proof. unfold parseVarDeclaration. trace. Qed.

Lemma parseBlock_loop_reaches n statements :
  outcome reaches (parseBlock_loop rec n statements).
Proof using Hrec.
  revert statements. induction n as [|n IH]; intros statements;
    cbn [parseBlock_loop]; trace.
Qed.
Hint Resolve parseBlock_loop_reaches : trace.

Lemma parseBlock_reaches n : outcome reaches (parseBlock rec n).
Proof using Hrec. unfold parseBlock. trace. Qed.

Lemma parseIfStatement_reaches n : outcome reaches (parseIfStatement rec n).
Proof using Hrec. unfold parseIfStatement. trace. Qed.

Lemma parseWhileStatement_reaches n :
  outcome reaches (parseWhileStatement rec n).
Proof using Hrec. unfold parseWhileStatement. trace. Qed.

Lemma parseReturnStatement_reaches n :
  outcome reaches (parseReturnStatement n).
Proof. unfold parseReturnStatement. trace. Qed.

Lemma parseSayStatement_reaches n : outcome reaches (parseSayStatement n).
Proof. unfold parseSayStatement. trace. Qed.

Lemma parseGotoStatement_reaches n : outcome reaches (parseGotoStatement n).
Proof. unfold parseGotoStatement. trace. Qed.

Lemma parseExpressionStatement_reaches n :
  outcome reaches (parseExpressionStatement n).
Proof. unfold parseExpressionStatement. trace. Qed.

Hint Resolve parseVarDeclaration_reaches parseBlock_reaches
  parseIfStatement_reaches parseWhileStatement_reaches
  parseReturnStatement_reaches parseSayStatement_reaches
  parseGotoStatement_reaches parseExpressionStatement_reaches : trace.

Lemma parseStatement_body_reaches n :
  outcome reaches (parseStatement_body rec n).
Proof using Hrec. unfold parseStatement_body. trace. Qed.
End Statements.

Lemma parseStatement_reaches n : outcome reaches (parseStatement n).
Proof.
  induction n as [|n IH]; cbn [parseStatement];
    apply parseStatement_body_reaches; eauto with trace.
Qed.
#[local] Hint Resolve parseStatement_reaches parseBlock_reaches : trace.

Lemma parseItem_loop_reaches n properties :
  outcome reaches (parseItem_loop n properties).
Proof.
  revert properties. induction n as [|n IH]; intros properties;
    cbn [parseItem_loop]; trace.
Qed.
#[local] Hint Resolve parseItem_loop_reaches : trace.

Lemma parseItem_reaches n : outcome reaches (parseItem n).
Proof. unfold parseItem. trace. Qed.
#[local] Hint Resolve parseItem_reaches : trace.

Lemma parseRoom_loop_reaches n properties items events :
  outcome reaches (parseRoom_loop n properties items events).
Proof.
  revert properties items events.
  induction n as [|n IH]; intros properties items events;
    cbn [parseRoom_loop]; trace.
Qed.
#[local] Hint Resolve parseRoom_loop_reaches : trace.

Lemma parseRoom_reaches n : outcome reaches (parseRoom n).
Proof. unfold parseRoom. trace. Qed.

Lemma parseFunction_parameters_reaches n parameters :
  outcome reaches (parseFunction_parameters n parameters).
Proof.
  revert parameters. induction n as [|n IH]; intros parameters;
    cbn [parseFunction_parameters]; trace.
Qed.
#[local] Hint Resolve parseFunction_parameters_reaches : trace.

Lemma parseFunction_reaches n : outcome reaches (parseFunction n).
Proof. unfold parseFunction. trace. Qed.
#[local] Hint Resolve parseRoom_reaches parseFunction_reaches : trace.

Lemma parseProgram_item_reaches n program :
  outcome reaches (parseProgram_item n program).
Proof. unfold parseProgram_item. trace. Qed.
#[local] Hint Resolve parseProgram_item_reaches : trace.

Lemma parseProgram_loop_reaches n program :
  outcome reaches (parseProgram_loop n program).
Proof.
  revert program. induction n as [|n IH]; intros program;
    cbn [parseProgram_loop]; trace.
Qed.
#[local] Hint Resolve parseProgram_loop_reaches : trace.

Lemma parse_reaches n : outcome reaches (parse n).
Proof. unfold parse, parseProgram. trace. Qed.

#[local] Hint Resolve parsePrimary_reaches finishCall_arguments_reaches
  finishCall_reaches parseCall_loop_reaches parseCall_reaches
  parseUnary_reaches binary_loop_reaches parseFactor_reaches
  parseTerm_reaches parseComparison_reaches parseEquality_reaches
  parseLogicalAnd_reaches parseLogicalOr_reaches parseAssignment_reaches
  parseVarDeclaration_reaches parseBlock_loop_reaches
  parseIfStatement_reaches parseWhileStatement_reaches
  parseReturnStatement_reaches parseSayStatement_reaches
  parseGotoStatement_reaches parseExpressionStatement_reaches
  parseStatement_body_reaches : trace.

(** ** Code that reads a token or reports an error *)

Lemma bind_moves_l {A B} (m : M A) (k : A -> M B) :
  returns moves m -> (forall a, outcome reaches (k a)) ->
  returns moves (bind m k).
Proof.
  intros Hm Hk p. unfold bind. specialize (Hm p).
  destruct (m p) as [a p1|p1| |]; [|done..].
  specialize (Hk a p1). destruct (k a p1); eauto using moves_then.
Qed.

Lemma bind_moves_r {A B} (m : M A) (k : A -> M B) :
  outcome reaches m -> (forall a, returns moves (k a)) ->
  returns moves (bind m k).
Proof.
  intros Hm Hk p. unfold bind. specialize (Hm p).
  destruct (m p) as [a p1|p1| |]; [|done..].
  specialize (Hk a p1). destruct (k a p1); eauto using then_moves.
Qed.

Lemma match__moves {B} ty (k : bool -> M B) :
  outcome reaches (k true) -> returns moves (k false) ->
  returns moves (bind (match_ ty) k).
Proof.
  intros Ht Hf p. unfold bind at 1, match_, bind, check, get, advance, ret.
  destruct (TokenType_eqb _ _).
  - specialize (Ht (advanced p)). destruct (k true (advanced p)); [|done..].
    eapply moves_then; [apply moves_advanced|done].
  - apply Hf.
Qed.

Lemma match_any_result types p :
  match_any types p = Ok true (advanced p) \/ match_any types p = Ok false p.
Proof.
  induction types as [|ty types IH]; [by right|].
  cbn [match_any]. unfold bind, check, get, advance, ret.
  destruct (TokenType_eqb _ _); [by left|exact IH].
Qed.

Lemma match_any_moves {B} types (k : bool -> M B) :
  outcome reaches (k true) -> returns moves (k false) ->
  returns moves (bind (match_any types) k).
Proof.
  intros Ht Hf p. unfold bind.
  destruct (match_any_result types p) as [-> | ->]; [|apply Hf].
  specialize (Ht (advanced p)). destruct (k true (advanced p)); [|done..].
  eapply moves_then; [apply moves_advanced|done].
Qed.

Lemma advance_moves : returns moves advance.
Proof. intros p. apply moves_advanced. Qed.

Lemma error_moves message : returns moves (error message).
Proof. intros p. apply (moves_record_error message). Qed.

Lemma consume_moves ty message : returns moves (consume ty message).
Proof.
  intros p. unfold consume, bind, check, get, advance, ret, error.
  destruct (TokenType_eqb _ _);
    [apply moves_advanced|apply (moves_record_error message)].
Qed.

Lemma try_catch_moves {A} (m h : M A) :
  returns moves m -> outcome reaches m -> returns moves h ->
  returns moves (try_catch m h).
Proof.
  intros Hm Hr Hh p. unfold try_catch. specialize (Hm p). specialize (Hr p).
  destruct (m p) as [a p1|p1| |]; [done| |done..].
  specialize (Hh p1). destruct (h p1); eauto using then_moves.
Qed.

Ltac descend :=
  repeat (apply match__moves; [cbv beta iota; solve [trace]|cbv beta iota]).

Section ExpressionsMove.
Variable rec : M (option Expression).
Hypothesis Hrec : outcome reaches rec.

Lemma parsePrimary_moves : returns moves (parsePrimary rec).
Proof using Hrec.
  unfold parsePrimary. apply bind_moves_r; [trace|intros location].
  descend. apply bind_moves_l; [apply error_moves|intros; trace].
Qed.

Lemma parseCall_moves n : returns moves (parseCall rec n).
Proof using Hrec.
  unfold parseCall.
  apply bind_moves_l; [apply parsePrimary_moves|intros; trace].
Qed.

Lemma parseUnary_moves n : returns moves (parseUnary rec n).
Proof using Hrec.
  destruct n; cbn [parseUnary];
    (apply match_any_moves;
     [cbv beta iota; trace|cbv beta iota; apply parseCall_moves]).
Qed.

Lemma parseFactor_moves n : returns moves (parseFactor rec n).
Proof using Hrec.
  unfold parseFactor.
  apply bind_moves_l; [apply parseUnary_moves|intros; trace].
Qed.

Lemma parseTerm_moves n : returns moves (parseTerm rec n).
Proof using Hrec.
  unfold parseTerm.
  apply bind_moves_l; [apply parseFactor_moves|intros; trace].
Qed.

Lemma parseComparison_moves n : returns moves (parseComparison rec n).
Proof using Hrec.
  unfold parseComparison.
  apply bind_moves_l; [apply parseTerm_moves|intros; trace].
Qed.

Lemma parseEquality_moves n : returns moves (parseEquality rec n).
Proof using Hrec.
  unfold parseEquality.
  apply bind_moves_l; [apply parseComparison_moves|intros; trace].
Qed.

Lemma parseLogicalAnd_moves n : returns moves (parseLogicalAnd rec n).
Proof using Hrec.
  unfold parseLogicalAnd.
  apply bind_moves_l; [apply parseEquality_moves|intros; trace].
Qed.

Lemma parseLogicalOr_moves n : returns moves (parseLogicalOr rec n).
Proof using Hrec.
  unfold parseLogicalOr.
  apply bind_moves_l; [apply parseLogicalAnd_moves|intros; trace].
Qed.

Lemma parseAssignment_moves n : returns moves (parseAssignment rec n).
Proof using Hrec.
  destruct n; cbn [parseAssignment];
    (apply bind_moves_l; [apply parseLogicalOr_moves|intros; trace]).
Qed.
End ExpressionsMove.

Lemma parseExpression_moves n : returns moves (parseExpression n).
Proof.
  destruct n; cbn [parseExpression]; apply parseAssignment_moves;
    eauto with trace.
Qed.

Lemma parseStatement_body_moves rec n :
  outcome reaches rec -> returns moves (parseStatement_body rec n).
Proof.
  intros Hrec. unfold parseStatement_body. descend.
  unfold parseExpressionStatement.
  apply bind_moves_r; [trace|intros location].
  apply bind_moves_l; [apply parseExpression_moves|intros; trace].
Qed.

Lemma parseStatement_moves n : returns moves (parseStatement n).
Proof.
  destruct n; cbn [parseStatement]; apply parseStatement_body_moves;
    eauto with trace.
Qed.

Lemma synchronize_moves n : returns moves (synchronize n).
Proof.
  unfold synchronize. apply bind_moves_l; [apply advance_moves|intros; trace].
Qed.

Lemma parseProgram_item_moves n program :
  returns moves (parseProgram_item n program).
Proof.
  unfold parseProgram_item. descend.
  apply bind_moves_l; [apply parseStatement_moves|intros; trace].
Qed.

(** ** Exceptions *)

Lemma catches_ret {A} (a : A) : catches (ret a).
Proof. done. Qed.

Lemma catches_get {A} (f : Parser -> A) : catches (get f).
Proof. done. Qed.

Lemma catches_advance : catches advance.
Proof. done. Qed.

Lemma catches_outOfFuel {A} : catches (@outOfFuel A).
Proof. done. Qed.

Lemma catches_bind {A B} (m : M A) (k : A -> M B) :
  catches m -> (forall a, catches (k a)) -> catches (bind m k).
Proof.
  intros Hm Hk p p'. unfold bind. specialize (Hm p).
  destruct (m p) as [a p1|p1| |]; [apply Hk|by destruct (Hm p1)|done..].
Qed.

Lemma catches_try_catch {A} (m h : M A) : catches h -> catches (try_catch m h).
Proof.
  intros Hh p p'. unfold try_catch. destruct (m p); [done|apply Hh|done..].
Qed.

Lemma synchronize_loop_catches n : catches (synchronize_loop n).
Proof.
  induction n as [|n IH]; cbn [synchronize_loop];
    repeat first
      [ apply catches_bind; [|intros ?]
      | apply catches_get | apply catches_ret | apply catches_outOfFuel
      | apply catches_advance | exact IH
      | lazymatch goal with
        | |- catches (if ?b then _ else _) => destruct b
        end ].
Qed.

Lemma synchronize_catches n : catches (synchronize n).
Proof.
  unfold synchronize. apply catches_bind; [apply catches_advance|intros _].
  apply synchronize_loop_catches.
Qed.

Lemma parseProgram_loop_catches n program :
  catches (parseProgram_loop n program).
Proof.
  revert program. induction n as [|n IH]; intros program;
    cbn [parseProgram_loop];
    (apply catches_bind; [apply catches_get|intros [|]; [apply catches_ret|]]);
    [apply catches_outOfFuel|].
  apply catches_bind; [|intros ?; apply IH].
  apply catches_try_catch, catches_bind;
    [apply synchronize_catches|intros _; apply catches_ret].
Qed.

(** ** Where the top-level loop stops *)

Lemma parseProgram_loop_eof n program p program' p' :
  parseProgram_loop n program p = Ok program' p' ->
  Token.type (current p') = EOF_TOKEN.
Proof.
  revert program p. induction n as [|n IH]; intros program p;
    cbn [parseProgram_loop]; unfold bind at 1, check, get;
    destruct (TokenType_eqb _ _) eqn:E.
  - intros [= <- <-]. by apply LexerMore.TokenType_eqb_eq in E.
  - done.
  - intros [= <- <-]. by apply LexerMore.TokenType_eqb_eq in E.
  - unfold bind.
    destruct (try_catch _ _ p) as [program1 p1|p1| |]; [|done..].
    apply IH.
Qed.

(** ** Code that reads a token *)

Lemma eats_then p p' p'' : eats p p' -> reaches p' p'' -> eats p p''.
Proof.
  intros (k1 & n1 & H1 & Hm) (k2 & n2 & H2).
  exists (k1 + k2), (n1 ++ n2)%list. split; [by eapply effect_trans|lia].
Qed.

Lemma then_eats p p' p'' : reaches p p' -> eats p' p'' -> eats p p''.
Proof.
  intros (k1 & n1 & H1) (k2 & n2 & H2 & Hm).
  exists (k1 + k2), (n1 ++ n2)%list. split; [by eapply effect_trans|lia].
Qed.

Lemma eats_advanced p : eats p (advanced p).
Proof. exists 1, []. split; [apply effect_advanced|lia]. Qed.

Lemma bind_assoc {A B C} (m : M A) (k1 : A -> M B) (k : B -> M C) q :
  bind (bind m k1) k q = bind m (fun a => bind (k1 a) k) q.
Proof. unfold bind. by destruct (m q). Qed.

Lemma bind_ret_r {A} (m : M A) q : bind m ret q = m q.
Proof. unfold bind, ret. by destruct (m q). Qed.

Section Eats.
Context {A B C : Type}.
Variables q0 q : Parser.

Lemma E_tail (m : M A) : eats_from q0 (bind m ret) q -> eats_from q0 m q.
Proof. unfold eats_from. by rewrite bind_ret_r. Qed.

Lemma E_assoc (m : M A) (k1 : A -> M B) (k : B -> M C) :
  eats_from q0 (bind m (fun a => bind (k1 a) k)) q ->
  eats_from q0 (bind (bind m k1) k) q.
Proof. unfold eats_from. by rewrite bind_assoc. Qed.

Lemma E_ret (a : A) (k : A -> M B) :
  eats_from q0 (k a) q -> eats_from q0 (bind (ret a) k) q.
Proof. done. Qed.

Lemma E_get (f : Parser -> A) (k : A -> M B) :
  eats_from q0 (k (f q)) q -> eats_from q0 (bind (get f) k) q.
Proof. done. Qed.

Lemma E_error message (k : unit -> M B) :
  eats_from q0 (k tt) (record_error message q) ->
  eats_from q0 (bind (error message) k) q.
Proof.
  intros H Hr. apply H.
  eapply reaches_trans; [exact Hr|].
  apply moves_reaches, moves_record_error.
Qed.

Lemma E_advance (k : unit -> M B) :
  outcome reaches (k tt) -> eats_from q0 (bind advance k) q.
Proof.
  intros Hk Hr. unfold bind, advance.
  specialize (Hk (advanced q)). destruct (k tt (advanced q)); [|done..].
  eapply eats_then; [|exact Hk].
  eapply then_eats; [exact Hr|apply eats_advanced].
Qed.

Lemma E_bind (m : M A) (k : A -> M B) :
  eats_from q0 m q -> (forall a, outcome reaches (k a)) ->
  eats_from q0 (bind m k) q.
Proof.
  intros Hm Hk Hr. unfold bind. specialize (Hm Hr).
  destruct (m q) as [a p1|p1| |]; [|done..].
  specialize (Hk a p1). destruct (k a p1); eauto using eats_then.
Qed.

Lemma E_outOfFuel (k : A -> M B) : eats_from q0 (bind outOfFuel k) q.
Proof. by intros _. Qed.

Lemma E_crash (k : A -> M B) : eats_from q0 (bind crash k) q.
Proof. by intros _. Qed.

Lemma E_throw (k : A -> M B) : eats_from q0 (bind throw k) q.
Proof. by intros _. Qed.

End Eats.

(** As [trace], for code in which the loops are unfolded. *)
Ltac trace_open :=
  repeat first
    [ solve [eauto 3 with trace]
    | apply bind_reaches; [|intros ?]
    | apply binary_loop_reaches
    | apply parseCall_loop_reaches
    | apply try_catch_reaches
    | lazymatch goal with
      | |- outcome _ (if ?b then _ else _) => destruct b
      | |- outcome _ (match ?x with _ => _ end) => destruct x
      | |- outcome _ (let '(_, _) := ?x in _) => destruct x
      end ].

(** Runs the code at a token of a known kind up to the first [advance]. *)
Ltac eat_step :=
  lazymatch goal with
  | |- eats_from _ (bind (bind _ _) _) _ => apply E_assoc
  | |- eats_from _ (bind (ret _) _) _ => apply E_ret; cbv beta iota
  | |- eats_from _ (bind (get _) _) _ =>
      apply E_get;
      cbn [record_error current previous lexer Token.type TokenType_eqb
           TokenType_index Nat.eqb negb andb]
  | |- eats_from _ (bind (error _) _) _ =>
      apply E_error; cbn [record_error current previous lexer]
  | |- eats_from _ (bind advance _) _ =>
      apply E_advance; solve [trace_open]
  | |- eats_from _ (bind outOfFuel _) _ => apply E_outOfFuel
  | |- eats_from _ (bind crash _) _ => apply E_crash
  | |- eats_from _ (bind throw _) _ => apply E_throw
  | |- eats_from _ (bind (check _) _) _ => unfold check at 1
  | |- eats_from _ (bind getCurrentLocation _) _ =>
      unfold getCurrentLocation at 1
  | |- eats_from _ (bind (match_ _) _) _ => unfold match_ at 1
  | |- eats_from _ (bind (match_any _) _) _ => cbn [match_any]
  | |- eats_from _ (bind (consume _ _) _) _ => unfold consume at 1
  | |- eats_from _ (bind (parseProgram_item _ _) _) _ =>
      unfold parseProgram_item at 1
  | |- eats_from _ (bind (parseStatement _) _) _ => cbn [parseStatement]
  | |- eats_from _ (bind (parseStatement_body _ _) _) _ =>
      unfold parseStatement_body at 1
  | |- eats_from _ (bind (parseExpressionStatement _) _) _ =>
      unfold parseExpressionStatement at 1
  | |- eats_from _ (bind (parseExpression _) _) _ => cbn [parseExpression]
  | |- eats_from _ (bind (parseAssignment _ _) _) _ => cbn [parseAssignment]
  | |- eats_from _ (bind (parseLogicalOr _ _) _) _ =>
      unfold parseLogicalOr at 1
  | |- eats_from _ (bind (parseLogicalAnd _ _) _) _ =>
      unfold parseLogicalAnd at 1
  | |- eats_from _ (bind (parseEquality _ _) _) _ =>
      unfold parseEquality at 1
  | |- eats_from _ (bind (parseComparison _ _) _) _ =>
      unfold parseComparison at 1
  | |- eats_from _ (bind (parseTerm _ _) _) _ => unfold parseTerm at 1
  | |- eats_from _ (bind (parseFactor _ _) _) _ => unfold parseFactor at 1
  | |- eats_from _ (bind (parseUnary _ _) _) _ => cbn [parseUnary]
  | |- eats_from _ (bind (parseCall _ _) _) _ => unfold parseCall at 1
  | |- eats_from _ (bind (parsePrimary _) _) _ => unfold parsePrimary at 1
  | |- eats_from _ (bind (parseCall_loop _ _ _) _) _ =>
      cbn [parseCall_loop]
  | |- eats_from _ (bind (binary_loop _ _ _ _) _) _ => cbn [binary_loop]
  | |- eats_from _ (bind _ _) _ => fail "no rule"
  | |- eats_from _ _ _ => apply E_tail
  end.

Ltac eat := repeat eat_step.

Lemma parseStatement_eats fuel p :
  no_progress (Token.type (current p)) = false ->
  eats_from p (parseStatement fuel) p.
Proof.
  destruct p as [lx [ty lex ln col] prev eo ce]. cbn [current Token.type].
  intros H. destruct ty; try discriminate H; destruct fuel; eat.
Qed.

Lemma parseProgram_item_eats fuel program p :
  blocks_program (Token.type (current p)) = false ->
  Token.type (current p) <> EOF_TOKEN ->
  eats_from p (parseProgram_item fuel program) p.
Proof.
  destruct p as [lx [ty lex ln col] prev eo ce]. cbn [current Token.type].
  intros H He. unfold parseProgram_item.
  destruct ty; try discriminate H; try done;
    repeat (progress eat_step);
    (apply E_bind; [by apply parseStatement_eats|intros; trace]).
Qed.

Lemma synchronize_eats fuel p p' :
  synchronize fuel p = Ok tt p' -> eats p p'.
Proof.
  unfold synchronize, bind at 1, advance. intros H.
  pose proof (synchronize_loop_reaches fuel (advanced p)) as Hr.
  rewrite H in Hr. eapply eats_then; [apply eats_advanced|exact Hr].
Qed.

End ParserTraceFacts.

Module ParserMore.
Import Parser ParserSpec ParserFacts ParserTrace ParserTraceFacts.
Import Lexer(run, nth_token, nextToken, remaining).

Lemma bind_Crash {A B} (m : M A) (k : A -> M B) p :
  m p = Crash -> bind m k p = Crash.
Proof. unfold bind. by intros ->. Qed.

Lemma try_catch_Crash {A} (m h : M A) p :
  m p = Crash -> try_catch m h p = Crash.
Proof. unfold try_catch. by intros ->. Qed.

Lemma bind_not_Ok {A B} (m : M A) (k : A -> M B) p :
  (forall a p', m p <> Ok a p') -> forall b p', bind m k p <> Ok b p'.
Proof.
  intros H b p'. unfold bind. destruct (m p) as [a p1| | |]; [|done..].
  by destruct (H a p1).
Qed.

(** ** [synchronize] *)

Lemma synchronize_loop_at_eof fuel p :
  Token.type (current p) = EOF_TOKEN -> synchronize_loop fuel p = Ok tt p.
Proof.
  intros H. destruct fuel; cbn [synchronize_loop];
    unfold bind, check, get; by rewrite H.
Qed.

Lemma advanced_remaining p :
  Token.type (current (advanced p)) <> EOF_TOKEN ->
  remaining (lexer (advanced p)) < remaining (lexer p).
Proof.
  unfold advanced. destruct (nextToken (lexer p)) as [t l'] eqn:E.
  cbn [current lexer]. by apply LexerMore.nextToken_progress.
Qed.

Lemma advanced_cerr p :
  cerr (advanced p) = cerr p /\ errorOccurred (advanced p) = errorOccurred p.
Proof. unfold advanced. by destruct (nextToken (lexer p)). Qed.

Lemma synchronize_loop_stops fuel p :
  Token.type (current p) = EOF_TOKEN \/ remaining (lexer p) < fuel ->
  exists p',
    synchronize_loop fuel p = Ok tt p' /\ synchronized p'
    /\ cerr p' = cerr p /\ errorOccurred p' = errorOccurred p.
Proof.
  revert p. induction fuel as [|fuel IH]; intros p [He|Hr];
    try (exists p; rewrite synchronize_loop_at_eof by done;
         repeat split; by left);
    [unfold remaining in Hr; lia|].
  cbn [synchronize_loop]. unfold bind at 1, check, get.
  destruct (TokenType_eqb (Token.type (current p)) EOF_TOKEN) eqn:E1.
  { apply LexerMore.TokenType_eqb_eq in E1. exists p.
    repeat split; by left. }
  unfold bind at 1.
  destruct (TokenType_eqb (Token.type (previous p)) SEMICOLON) eqn:E2.
  { apply LexerMore.TokenType_eqb_eq in E2. exists p.
    repeat split. right. by left. }
  unfold bind at 1.
  destruct (is_sync_point (Token.type (current p))) eqn:E3.
  { exists p. repeat split. right. by right. }
  unfold bind, advance.
  destruct (IH (advanced p)) as (p' & H1 & H2 & H3 & H4).
  { destruct (TokenType_eqb (Token.type (current (advanced p))) EOF_TOKEN)
      eqn:E4; [left; by apply LexerMore.TokenType_eqb_eq|right].
    assert (Token.type (current (advanced p)) <> EOF_TOKEN) as Hne
      by (intros Heq%LexerMore.TokenType_eqb_eq; congruence).
    pose proof (advanced_remaining p Hne). lia. }
  exists p'. destruct (advanced_cerr p) as [Hc Hf].
  rewrite H1. repeat split; [done|congruence|congruence].
Qed.

(** ** Operators without an operand *)

Section Operands.
Variable rec : M (option Expression).

Lemma parseUnary_none fuel p :
  starts_operand (Token.type (current p)) = false ->
  parseUnary rec fuel p = Ok None (record_error "Expected expression." p).
Proof.
  destruct p as [lx [ty lex ln col] prev eo ce]. cbn [current Token.type].
  intros H. destruct ty; try discriminate H; destruct fuel; reflexivity.
Qed.

Lemma current_advanced p : current (advanced p) = nth_token 0 (lexer p).
Proof.
  unfold advanced, nth_token. cbn [run].
  by destruct (nextToken (lexer p)).
Qed.

Lemma previous_advanced p : previous (advanced p) = current p.
Proof. unfold advanced. by destruct (nextToken (lexer p)). Qed.

Lemma parseUnary_crash fuel p :
  Token.type (current p) = MINUS \/ Token.type (current p) = NOT ->
  starts_operand (Token.type (nth_token 0 (lexer p))) = false ->
  parseUnary rec (S fuel) p = Crash.
Proof.
  intros Hop Hnext. cbn [parseUnary].
  assert (match_any [MINUS; NOT] p = Ok true (advanced p)) as Hm.
  { clear Hnext. destruct p as [lx [ty lex ln col] prev eo ce].
    cbn [current Token.type] in Hop. destruct Hop as [-> | ->]; reflexivity. }
  rewrite (bind_Ok _ _ _ _ _ Hm). unfold bind at 1, get.
  rewrite <- current_advanced in Hnext.
  by rewrite (bind_Ok _ _ _ _ _ (parseUnary_none fuel _ Hnext)).
Qed.

Lemma parseAssignment_crash fuel p :
  Token.type (current p) = MINUS \/ Token.type (current p) = NOT ->
  starts_operand (Token.type (nth_token 0 (lexer p))) = false ->
  parseAssignment rec (S fuel) p = Crash.
Proof.
  intros Hop Hnext. cbn [parseAssignment].
  unfold parseLogicalOr, parseLogicalAnd, parseEquality, parseComparison,
    parseTerm, parseFactor.
  do 7 apply bind_Crash. by apply parseUnary_crash.
Qed.

(** A binary level whose left operand is null. *)
Lemma binary_loop_null matches operand fuel p p1 :
  matches p = Ok true p1 ->
  forall e p', binary_loop matches operand fuel None p <> Ok e p'.
Proof.
  intros Hm e p'. destruct fuel; cbn [binary_loop];
    rewrite (bind_Ok _ _ _ _ _ Hm); [done|].
  unfold bind at 1, get. unfold bind. by destruct (operand p1).
Qed.

Lemma binary_loop_skips matches operand fuel expr p :
  matches p = Ok false p ->
  binary_loop matches operand fuel expr p = Ok expr p.
Proof.
  intros Hm. destruct fuel; cbn [binary_loop];
    by rewrite (bind_Ok _ _ _ _ _ Hm).
Qed.

Ltac level lower :=
  let H := fresh in
  let L := fresh in
  intros H;
  lazymatch goal with
  | |- stuck_or_null _ _ ?p =>
      pose proof (lower p H) as L;
      destruct p as [? [? ? ? ?] ? ? ?]
  end;
  unfold stuck_or_null in *; cbn [current Token.type] in *;
  lazymatch type of H with
  | binary_operator ?t = true => destruct t
  end; try discriminate H; cbn iota beta in *;
  first
    [ by apply bind_not_Ok
    | rewrite (bind_Ok _ _ _ _ _ L);
      first [ by apply binary_loop_skips
            | by eapply binary_loop_null ] ].

Lemma parseUnary_operator fuel p :
  binary_operator (Token.type (current p)) = true ->
  stuck_or_null (fun _ => true) (parseUnary rec fuel) p.
Proof.
  intros H. apply parseUnary_none. by destruct (Token.type (current p)).
Qed.

Lemma parseFactor_operator fuel p :
  binary_operator (Token.type (current p)) = true ->
  stuck_or_null
    (fun ty => match ty with MULTIPLY | DIVIDE | MODULO => false | _ => true end)
    (parseFactor rec fuel) p.
Proof. unfold parseFactor. level (parseUnary_operator fuel). Qed.

Lemma parseTerm_operator fuel p :
  binary_operator (Token.type (current p)) = true ->
  stuck_or_null
    (fun ty => match ty with
               | MULTIPLY | DIVIDE | MODULO | PLUS => false
               | _ => true
               end)
    (parseTerm rec fuel) p.
Proof. unfold parseTerm. level (parseFactor_operator fuel). Qed.

Lemma parseComparison_operator fuel p :
  binary_operator (Token.type (current p)) = true ->
  stuck_or_null
    (fun ty => match ty with EQ | NEQ | AND | OR => true | _ => false end)
    (parseComparison rec fuel) p.
Proof. unfold parseComparison. level (parseTerm_operator fuel). Qed.

Lemma parseEquality_operator fuel p :
  binary_operator (Token.type (current p)) = true ->
  stuck_or_null
    (fun ty => match ty with AND | OR => true | _ => false end)
    (parseEquality rec fuel) p.
Proof. unfold parseEquality. level (parseComparison_operator fuel). Qed.

Lemma parseLogicalAnd_operator fuel p :
  binary_operator (Token.type (current p)) = true ->
  stuck_or_null
    (fun ty => match ty with OR => true | _ => false end)
    (parseLogicalAnd rec fuel) p.
Proof. unfold parseLogicalAnd. level (parseEquality_operator fuel). Qed.

Lemma parseLogicalOr_operator fuel p :
  binary_operator (Token.type (current p)) = true ->
  stuck_or_null (fun _ => false) (parseLogicalOr rec fuel) p.
Proof. unfold parseLogicalOr. level (parseLogicalAnd_operator fuel). Qed.

Lemma parseAssignment_operator fuel p :
  binary_operator (Token.type (current p)) = true ->
  forall e p', parseAssignment rec fuel p <> Ok e p'.
Proof.
  intros H. destruct fuel; cbn [parseAssignment];
    apply bind_not_Ok, (parseLogicalOr_operator _ p H).
Qed.

End Operands.

End ParserMore.

Import ParserSpec ParserFacts ParserTrace ParserTraceFacts ParserMore.

(** X10.  When [parse] returns on a new parser, the parser has read the
    tokens of the lexer in order up to an end-of-input token, which is the
    current token, and the lexer is at the end of the source. *)
Theorem parse_stops_at_end_of_input fuel l program p' :
  Parser.parse fuel (Parser.new l) = Parser.Ok program p' ->
  exists n,
    Parser.lexer p' = Lexer.run (S n) l
    /\ Parser.current p' = Lexer.nth_token n l
    /\ Token.type (Parser.current p') = EOF_TOKEN
    /\ Lexer.isAtEnd (Parser.lexer p') = true.
Proof.
  intros H.
  assert (Token.type (Parser.current p') = EOF_TOKEN) as Heof.
  { revert H. unfold Parser.parse, Parser.parseProgram.
    unfold Parser.bind at 1, Parser.getCurrentLocation, Parser.get.
    apply parseProgram_loop_eof. }
  pose proof (parse_reaches fuel (Parser.new l)) as Hr. rewrite H in Hr.
  destruct Hr as (k & new & [HL HC _ _]).
  assert (Parser.lexer (Parser.new l) = Lexer.run 1 l
          /\ Parser.current (Parser.new l) = Lexer.nth_token 0 l) as [Hl0 Hc0].
  { unfold Parser.new, Parser.advanced, Lexer.nth_token.
    cbn [Parser.lexer Parser.current Lexer.run].
    by destruct (Lexer.nextToken l). }
  assert (Parser.lexer p' = Lexer.run (S k) l
          /\ Parser.current p' = Lexer.nth_token k l) as [HL' HC'].
  { split.
    - rewrite HL, Hl0. by rewrite <- (run_add 1 k).
    - rewrite HC. destruct k as [|j]; [done|].
      rewrite Hl0. unfold Lexer.nth_token.
      by rewrite <- (run_add 1 j). }
  exists k. repeat split; try done.
  rewrite HC' in Heof. rewrite HL', run_S.
  unfold Lexer.nth_token in Heof.
  destruct (Lexer.nextToken (Lexer.run k l)) as [t l1] eqn:E.
  cbn [fst snd] in *.
  destruct (nextToken_spans _ _ _ E) as (e & _ & _ & _ & He & _).
  by destruct (He Heof) as [-> ?].
Qed.

Lemma parse_stops_at_end_of_input_witness :
  exists program p',
    Parser.parse 4 (Parser.new (script "say x;")) = Parser.Ok program p'
    /\ exists n,
         Parser.lexer p' = Lexer.run (S n) (script "say x;")
         /\ Parser.current p' = Lexer.nth_token n (script "say x;")
         /\ Token.type (Parser.current p') = EOF_TOKEN
         /\ Lexer.isAtEnd (Parser.lexer p') = true.
Proof.
  eexists _, _. split; [vm_compute; reflexivity|].
  eapply (parse_stops_at_end_of_input 4 (script "say x;")).
  vm_compute. reflexivity.
Defined.

(** X11.  [parse] only appends to the diagnostics, and when it returns
    the error flag is set exactly when it was set before or a diagnostic
    was written: on a new parser, [hadError] tells whether any diagnostic
    was written. *)
Theorem parse_diagnostics fuel p program p' :
  Parser.parse fuel p = Parser.Ok program p' ->
  (exists new,
     Parser.cerr p' = (Parser.cerr p ++ new)%list
     /\ Parser.hadError p' = Parser.hadError p || nonempty new)
  /\ (forall l, p = Parser.new l ->
      Parser.hadError p' = nonempty (Parser.cerr p')).
Proof.
  intros H.
  pose proof (parse_reaches fuel p) as Hr. rewrite H in Hr.
  destruct Hr as (k & new & [_ _ HE HF]).
  split; [by exists new|].
  intros l ->. unfold Parser.hadError. rewrite HF, HE.
  unfold Parser.new.
  by destruct (advanced_cerr
                 (Parser.mk l Parser.placeholder Parser.placeholder false []))
    as [-> ->].
Qed.

Lemma parse_diagnostics_witness :
  exists program p',
    Parser.parse 4 (Parser.new (script "say ;")) = Parser.Ok program p'
    /\ (exists new,
          Parser.cerr p'
          = (Parser.cerr (Parser.new (script "say ;")) ++ new)%list
          /\ Parser.hadError p'
             = Parser.hadError (Parser.new (script "say ;")) || nonempty new)
    /\ (forall l, Parser.new (script "say ;") = Parser.new l ->
        Parser.hadError p' = nonempty (Parser.cerr p')).
Proof.
  eexists _, _. split; [vm_compute; reflexivity|].
  eapply (parse_diagnostics 4 (Parser.new (script "say ;"))).
  vm_compute. reflexivity.
Defined.

(** X12.  [parseExpression] and [parseStatement] never return without
    having read a token or written a diagnostic. *)
Theorem statement_reads_or_reports fuel p :
  (forall e p', Parser.parseExpression fuel p = Parser.Ok e p' ->
     exists k new, effect k new p p' /\ (0 < k \/ new <> []))
  /\ (forall s p', Parser.parseStatement fuel p = Parser.Ok s p' ->
        exists k new, effect k new p p' /\ (0 < k \/ new <> [])).
Proof.
  split.
  - intros e p' H. pose proof (parseExpression_moves fuel p) as Hm.
    by rewrite H in Hm.
  - intros s p' H. pose proof (parseStatement_moves fuel p) as Hm.
    by rewrite H in Hm.
Qed.

Lemma statement_reads_or_reports_witness :
  exists s p',
    Parser.parseStatement 3 (Parser.new (script ";")) = Parser.Ok s p'
    /\ exists k new,
         effect k new (Parser.new (script ";")) p' /\ (0 < k \/ new <> []).
Proof.
  eexists _, _. split; [vm_compute; reflexivity|].
  eapply (proj2 (statement_reads_or_reports 3 (Parser.new (script ";")))).
  vm_compute. reflexivity.
Defined.

(** X13.  No exception leaves [parse]: what [std::stod] throws inside a
    top-level item is caught by [parseProgram], and [synchronize] throws
    nothing. *)
Theorem parse_never_throws fuel p p' :
  Parser.parse fuel p <> Parser.Throw p'.
Proof.
  unfold Parser.parse, Parser.parseProgram.
  apply catches_bind; [apply catches_get|intros location].
  apply parseProgram_loop_catches.
Qed.

(** X14.  [synchronize] returns once it has more fuel than there are
    characters left in the source; it then stands at the end of the input,
    after a semicolon, or before a keyword that starts a declaration or a
    statement, and it has written no diagnostic. *)
Theorem synchronize_stops fuel p :
  Lexer.remaining (Parser.lexer p) < fuel ->
  exists p',
    Parser.synchronize fuel p = Parser.Ok tt p'
    /\ synchronized p'
    /\ Parser.cerr p' = Parser.cerr p
    /\ Parser.hadError p' = Parser.hadError p.
Proof.
  intros Hr. unfold Parser.synchronize, Parser.bind at 1, Parser.advance.
  destruct (synchronize_loop_stops fuel (Parser.advanced p))
    as (p' & H1 & H2 & H3 & H4).
  { destruct (TokenType_eqb
                (Token.type (Parser.current (Parser.advanced p))) EOF_TOKEN)
      eqn:E; [left; by apply TokenType_eqb_eq|right].
    assert (Token.type (Parser.current (Parser.advanced p)) <> EOF_TOKEN)
      as Hne by (intros Heq%TokenType_eqb_eq; congruence).
    pose proof (advanced_remaining p Hne). lia. }
  exists p'. destruct (advanced_cerr p) as [Hc Hf].
  unfold Parser.hadError. rewrite H1. repeat split; [done|congruence..].
Qed.

Lemma synchronize_stops_witness :
  exists p',
    Parser.synchronize 9 (Parser.new (script ") x; say"))
    = Parser.Ok tt p'
    /\ synchronized p'
    /\ Parser.cerr p' = Parser.cerr (Parser.new (script ") x; say"))
    /\ Parser.hadError p' = Parser.hadError (Parser.new (script ") x; say")).
Proof.
  apply (synchronize_stops 9 (Parser.new (script ") x; say"))).
  vm_compute. lia.
Defined.

(** X15.  [parse] does not terminate from a state whose current token is
    one that no top-level item consumes: [item], [else], [for], [when],
    [entered], a closing parenthesis or brace, a colon, a comma, or a
    lex-error token. *)
Theorem parse_spins_on_stray_token fuel p :
  blocks_program (Token.type (Parser.current p)) = true ->
  Parser.parse fuel p = Parser.OutOfFuel.
Proof.
  intros H. unfold Parser.parse, Parser.parseProgram.
  unfold Parser.bind at 1, Parser.getCurrentLocation, Parser.get.
  by apply parseProgram_loop_spins.
Qed.

Lemma parse_spins_on_stray_token_witness :
  Parser.parse 100 (Parser.new (script "} say x;")) = Parser.OutOfFuel.
Proof.
  apply (parse_spins_on_stray_token 100 (Parser.new (script "} say x;"))).
  vm_compute. reflexivity.
Defined.

(** X16.  A prefix operator [-] or [!] (or [not]) followed by a token that
    cannot start an operand makes the parser dereference a null pointer:
    [parseUnary] reads the location of the operand that [parsePrimary]
    returned as null. *)
Theorem prefix_operator_without_operand_crashes fuel p :
  Token.type (Parser.current p) = MINUS
  \/ Token.type (Parser.current p) = NOT ->
  starts_operand (Token.type (Lexer.nth_token 0 (Parser.lexer p))) = false ->
  Parser.parseExpression (S fuel) p = Parser.Crash
  /\ Parser.parse (S (S fuel)) p = Parser.Crash.
Proof.
  intros Hop Hnext.
  assert (Parser.parseExpression (S fuel) p = Parser.Crash) as He
    by (cbn [Parser.parseExpression]; by apply parseAssignment_crash).
  split; [done|].
  destruct p as [lx [ty lex ln col] prev eo ce].
  cbn [Parser.current Token.type] in Hop.
  unfold Parser.parse, Parser.parseProgram.
  unfold Parser.bind at 1, Parser.getCurrentLocation, Parser.get.
  rewrite parseProgram_loop_S.
  assert (Parser.parseStatement (S fuel)
            (Parser.mk lx (Token.mk ty lex ln col) prev eo ce)
          = Parser.Crash) as Hs.
  { cbn [Parser.parseStatement]. unfold Parser.parseStatement_body.
    destruct Hop as [-> | ->];
      (do 7 (unfold Parser.bind at 1;
             match goal with
             | |- context [Parser.match_ ?k ?q] =>
                 change (Parser.match_ k q) with (Parser.Ok false q)
             end; cbv iota beta);
       unfold Parser.parseExpressionStatement;
       unfold Parser.bind at 1, Parser.getCurrentLocation, Parser.get;
       by rewrite (bind_Crash _ _ _ He)). }
  destruct Hop as [-> | ->];
    (unfold Parser.bind at 1;
     change (Parser.check EOF_TOKEN ?q) with (Parser.Ok false q);
     cbv iota beta;
     apply bind_Crash, try_catch_Crash;
     unfold Parser.parseProgram_item;
     do 2 (unfold Parser.bind at 1;
           match goal with
           | |- context [Parser.match_ ?k ?q] =>
               change (Parser.match_ k q) with (Parser.Ok false q)
           end; cbv iota beta);
     by rewrite (bind_Crash _ _ _ Hs)).
Qed.

Lemma prefix_operator_without_operand_crashes_witness :
  Parser.parseExpression 3 (Parser.new (script "-;")) = Parser.Crash
  /\ Parser.parse 4 (Parser.new (script "-;")) = Parser.Crash.
Proof.
  apply (prefix_operator_without_operand_crashes 2
           (Parser.new (script "-;")));
    [left; vm_compute; reflexivity|vm_compute; reflexivity].
Defined.

(** X17.  At a binary operator other than [-] no fuel makes
    [parseExpression] or [parseStatement] return: the left operand is null,
    and once the right operand is parsed the location of the left one is
    read through the null pointer. *)
Theorem leading_binary_operator_never_parses fuel p :
  binary_operator (Token.type (Parser.current p)) = true ->
  (forall e p', Parser.parseExpression fuel p <> Parser.Ok e p')
  /\ (forall s p', Parser.parseStatement fuel p <> Parser.Ok s p').
Proof.
  intros H.
  assert (forall fuel e p', Parser.parseExpression fuel p <> Parser.Ok e p')
    as He.
  { intros [|f];
      cbn [Parser.parseExpression]; by apply parseAssignment_operator. }
  split; [apply He|].
  specialize (He fuel). revert He.
  destruct p as [lx [ty lex ln col] prev eo ce].
  cbn [Parser.current Token.type] in H.
  intros He s p'.
  destruct fuel; cbn [Parser.parseStatement];
    unfold Parser.parseStatement_body;
    (destruct ty; try discriminate H;
     do 7 (unfold Parser.bind at 1;
           match goal with
           | |- context [Parser.match_ ?k ?q] =>
               change (Parser.match_ k q) with (Parser.Ok false q)
           end; cbv iota beta);
     unfold Parser.parseExpressionStatement;
     unfold Parser.bind at 1, Parser.getCurrentLocation, Parser.get;
     by apply bind_not_Ok).
Qed.

Lemma leading_binary_operator_never_parses_witness :
  (forall e p',
     Parser.parseExpression 5 (Parser.new (script "* 2;")) <> Parser.Ok e p')
  /\ (forall s p',
        Parser.parseStatement 5 (Parser.new (script "* 2;"))
        <> Parser.Ok s p').
Proof.
  apply (leading_binary_operator_never_parses 5
           (Parser.new (script "* 2;"))).
  vm_compute. reflexivity.
Defined.

(** X18.  A property access discards its object: at a dot the result of
    the loop of [parseCall] does not depend on the expression parsed so
    far, and when a name follows the dot the loop goes on with a variable
    reference to that name alone. *)
Theorem property_access_drops_object rec fuel p :
  Token.type (Parser.current p) = DOT ->
  (forall e1 e2,
     Parser.parseCall_loop rec fuel e1 p = Parser.parseCall_loop rec fuel e2 p)
  /\ (Token.type (Lexer.nth_token 0 (Parser.lexer p)) = IDENTIFIER ->
      forall e,
        Parser.parseCall_loop rec (S fuel) e p
        = Parser.parseCall_loop rec fuel
            (Some (VariableExpr
                     (Lexer.getCurrentLocation
                        (Parser.lexer (Parser.advanced (Parser.advanced p))))
                     (Lexer.nth_token 0 (Parser.lexer p))))
            (Parser.advanced (Parser.advanced p))).
Proof.
  intros H.
  assert (Parser.match_ LPAREN p = Parser.Ok false p) as HL.
  { apply match__false. by rewrite H. }
  assert (Parser.match_ DOT p = Parser.Ok true (Parser.advanced p)) as HD.
  { unfold Parser.match_, Parser.bind, Parser.check, Parser.get.
    by rewrite H. }
  split.
  - intros e1 e2. destruct fuel; cbn [Parser.parseCall_loop];
      rewrite !(bind_Ok _ _ _ _ _ HL); cbv iota beta;
      by rewrite !(bind_Ok _ _ _ _ _ HD).
  - intros Hid e. cbn [Parser.parseCall_loop].
    rewrite (bind_Ok _ _ _ _ _ HL). cbv iota beta.
    rewrite (bind_Ok _ _ _ _ _ HD). cbv iota beta.
    rewrite <- current_advanced in Hid.
    assert (Parser.consume IDENTIFIER "Expected property name after '.'."
              (Parser.advanced p)
            = Parser.Ok (Parser.current (Parser.advanced p))
                (Parser.advanced (Parser.advanced p))) as HC.
    { unfold Parser.consume, Parser.bind, Parser.check, Parser.get,
        Parser.advance. rewrite Hid. cbv iota beta.
      change (TokenType_eqb IDENTIFIER IDENTIFIER) with true. cbv iota beta.
      by rewrite previous_advanced. }
    rewrite (bind_Ok _ _ _ _ _ HC).
    unfold Parser.bind at 1, Parser.getCurrentLocation, Parser.get.
    by rewrite current_advanced.
Qed.

Lemma property_access_drops_object_witness :
  (forall e1 e2,
     Parser.parseCall_loop Parser.outOfFuel 3 e1
       (Parser.advanced (Parser.new (script "a.b")))
     = Parser.parseCall_loop Parser.outOfFuel 3 e2
         (Parser.advanced (Parser.new (script "a.b"))))
  /\ (Token.type
        (Lexer.nth_token 0
           (Parser.lexer (Parser.advanced (Parser.new (script "a.b")))))
      = IDENTIFIER ->
      forall e,
        Parser.parseCall_loop Parser.outOfFuel 4 e
          (Parser.advanced (Parser.new (script "a.b")))
        = Parser.parseCall_loop Parser.outOfFuel 3
            (Some (VariableExpr
                     (Lexer.getCurrentLocation
                        (Parser.lexer
                           (Parser.advanced
                              (Parser.advanced
                                 (Parser.advanced
                                    (Parser.new (script "a.b")))))))
                     (Lexer.nth_token 0
                        (Parser.lexer
                           (Parser.advanced (Parser.new (script "a.b")))))))
            (Parser.advanced
               (Parser.advanced
                  (Parser.advanced (Parser.new (script "a.b")))))).
Proof.
  apply (property_access_drops_object Parser.outOfFuel 3
           (Parser.advanced (Parser.new (script "a.b")))).
  vm_compute. reflexivity.
Defined.

Module BlankFacts.
Import Lexer LexerSpec LexerFacts LexerScan LexerCases.

Lemma string_forall_char_at p s i :
  string_forall p s = true -> i < String.length s -> p (char_at s i) = true.
Proof.
  revert i. induction s as [|c s IH]; intros i Hs Hi; [cbn in Hi; lia|].
  cbn [string_forall] in Hs. apply andb_true_iff in Hs as [Hc Hs].
  destruct i as [|i]; [done|]. rewrite char_at_cons.
  apply IH; [done|]. cbn in Hi. lia.
Qed.

Lemma nextToken_at_entry_end l t l' :
  nextToken l = (t, l') -> isAtEnd (entry l) = true ->
  Token.type t = EOF_TOKEN.
Proof.
  apply (nextToken_cases
           (fun l t _ => isAtEnd (entry l) = true ->
                         Token.type t = EOF_TOKEN));
    clear; intros; first [reflexivity|congruence].
Qed.

Lemma blank_entry_at_end l :
  string_forall is_space (source l) = true -> isAtEnd (entry l) = true.
Proof.
  intros Hs. unfold entry.
  change (isAtEnd (mark_start (skipWhitespace l)))
    with (isAtEnd (skipWhitespace l)).
  destruct (isAtEnd (skipWhitespace l)) eqn:He; [done|].
  pose proof (skipWhitespace_exit l) as Hx.
  unfold peek in Hx. rewrite He in Hx.
  destruct (steps_source _ _ (skipWhitespace_steps l)) as [Hsrc _].
  apply not_at_end in He. rewrite Hsrc in *.
  by rewrite (string_forall_char_at _ _ _ Hs He) in Hx.
Qed.

End BlankFacts.

Import BlankFacts.

(** X19.  A source that holds nothing but spaces, tabs, carriage returns
    and newlines (or nothing at all) parses, with any fuel, to a program
    without rooms, statements or functions, and no diagnostic is
    written. *)
Theorem blank_source_gives_empty_program src fname fuel :
  string_forall is_space src = true ->
  let p := Parser.new (Lexer.new src fname) in
  Parser.parse fuel p
  = Parser.Ok (mkProgram (Lexer.getCurrentLocation (Parser.lexer p)) [] [] [])
      p
  /\ Parser.hadError p = false /\ Parser.cerr p = [].
Proof.
  intros Hs p.
  assert (Token.type (Parser.current p) = EOF_TOKEN) as He.
  { unfold p, Parser.new, Parser.advanced. cbn [Parser.lexer].
    destruct (Lexer.nextToken (Lexer.new src fname)) as [t l'] eqn:E.
    cbn [Parser.current].
    apply (nextToken_at_entry_end _ _ _ E), blank_entry_at_end, Hs. }
  split.
  - unfold Parser.parse, Parser.parseProgram.
    unfold Parser.bind at 1, Parser.getCurrentLocation, Parser.get.
    destruct fuel; cbn [Parser.parseProgram_loop];
      unfold Parser.bind, Parser.check, Parser.get; by rewrite He.
  - unfold p, Parser.new, Parser.hadError.
    by destruct (advanced_cerr
                   (Parser.mk (Lexer.new src fname) Parser.placeholder
                      Parser.placeholder false [])) as [-> ->].
Qed.

Lemma blank_source_gives_empty_program_witness :
  let p := Parser.new (Lexer.new (String "010" "  ") "script.story") in
  Parser.parse 0 p
  = Parser.Ok (mkProgram (Lexer.getCurrentLocation (Parser.lexer p)) [] [] [])
      p
  /\ Parser.hadError p = false /\ Parser.cerr p = [].
Proof.
  apply (blank_source_gives_empty_program (String "010" "  ")
           "script.story" 0).
  vm_compute. reflexivity.
Defined.

(** X20.  [TokenTypeStrings] has a name for every token kind, so
    [Token::toString] never reads outside the table; the names of two
    different kinds differ; and the name of every keyword kind is the
    upper-case form of the keyword that the lexer maps to it. *)
Theorem token_names_match_kinds :
  (forall t, Token_toString t <> None)
  /\ (forall ty ty',
        nth_error TokenTypeStrings (TokenType_index ty)
        = nth_error TokenTypeStrings (TokenType_index ty') -> ty = ty')
  /\ (forall text ty,
        Lexer.keywords !! text = Some ty ->
        nth_error TokenTypeStrings (TokenType_index ty)
        = Some (uppercase text)).
Proof.
  split; [|split].
  - intros [ty lex ln col]. unfold Token_toString. cbn [Token.type].
    by destruct ty.
  - intros ty ty'.
    destruct ty; cbn [TokenType_index nth_error TokenTypeStrings];
      destruct ty'; cbn [TokenType_index nth_error TokenTypeStrings];
      intros H; first [reflexivity|discriminate H].
  - intros text ty. unfold Lexer.keywords, Lexer.initKeywords. intros H.
    repeat (apply lookup_insert_Some in H as [[<- <-]|[_ H]];
            [reflexivity|]).
    by rewrite lookup_empty in H.
Qed.

Module SpinFacts.
Import Parser ParserSpec ParserFacts ParserTrace.




End SpinFacts.

Import SpinFacts.



(** * The driver *)

Module MainFacts.
Import Main.

Lemma Token_toString_total t : exists line, Token_toString t = Some line.
Proof.
  destruct t as [ty lex ln col]. unfold Token_toString. cbn [Token.type].
  destruct ty; by eexists.
Qed.

Lemma printTokens_total tokens :
  exists lines,
    printTokens tokens = Some lines /\ length lines = length tokens.
Proof.
  induction tokens as [|t tokens (lines & E & Hlen)]; [by exists []|].
  cbn [printTokens]. destruct (Token_toString_total t) as [line ->].
  rewrite E. exists (line :: lines). cbn [length]. by rewrite Hlen.
Qed.

Lemma tokenize_total fuel src fname :
  String.length src < fuel ->
  exists tokens l',
    Lexer.tokenize fuel (Lexer.new src fname) = Some (tokens, l')
    /\ length tokens <= String.length src + 1.
Proof.
  intros Hf. unfold Lexer.tokenize.
  destruct (LexerMore.tokenize_loop_spec fuel (Lexer.new src fname) [])
    as (k & -> & Hk & _);
    [unfold Lexer.remaining; cbn [Lexer.new Lexer.source Lexer.position]; lia|].
  eexists _, _. split; [done|].
  cbn [app]. rewrite length_map, length_seq.
  unfold Lexer.remaining in Hk.
  cbn [Lexer.new Lexer.source Lexer.position] in Hk. lia.
Qed.

Lemma parse_new_flag fuel l program p' :
  Parser.parse fuel (Parser.new l) = Parser.Ok program p' ->
  Parser.hadError p' = nonempty (Parser.cerr p').
Proof.
  intros H.
  pose proof (parse_reaches fuel (Parser.new l)) as Hr. rewrite H in Hr.
  destruct Hr as (k & new & [_ _ HE HF]).
  unfold Parser.hadError. rewrite HF, HE. unfold Parser.new.
  by destruct (advanced_cerr
                 (Parser.mk l Parser.placeholder Parser.placeholder false []))
    as [-> ->].
Qed.

Lemma eqb_empty s : String.eqb s "" = true <-> s = "".
Proof. apply String.eqb_eq. Qed.

End MainFacts.

Import MainFacts.

(** X22.  [main] returns 0 or 1.  It returns 0 only when nothing was
    written to the standard error, after the token listing and the line
    that reports success.  When it returns 1 it has written a message to
    the standard error, except for a file that exists and is empty: then
    it returns 1 and writes nothing at all. *)
Theorem main_exit_code fuel fs argv0 args code out err :
  Main.main fuel fs argv0 args = Main.Exit code out err ->
  (code = 0%Z /\ err = []
   /\ exists lines,
        out = ("===== Tokens =====" :: lines
               ++ [""; "===== Parsing =====";
                   "Parsing completed successfully!"])%list)
  \/ (code = 1%Z /\ err <> [])
  \/ (code = 1%Z /\ err = [] /\ out = []
      /\ exists path rest, args = path :: rest /\ fs path = Some "").
Proof.
  unfold Main.main, Main.readFile.
  destruct args as [|path rest]; [intros [= <- <- <-]; right; by left|].
  destruct (fs path) as [content|] eqn:Hfs;
    [|cbn; intros [= <- <- <-]; right; by left].
  destruct (String.eqb content "") eqn:Hempty.
  { apply eqb_empty in Hempty as ->. intros [= <- <- <-].
    right; right. repeat split. by exists path, rest. }
  destruct (Lexer.tokenize _ _) as [[tokens l']|]; [|done].
  destruct (Main.printTokens tokens) as [lines|]; [|done].
  destruct (Parser.parse _ _) as [program p| | |] eqn:Hparse; try done.
  pose proof (parse_new_flag _ _ _ _ Hparse) as Hflag.
  destruct (Parser.hadError p); intros [= <- <- <-].
  - right; left. split; [done|].
    cbn [app]. by destruct (Parser.cerr p).
  - left. split; [done|]. split.
    + cbn [app]. by destruct (Parser.cerr p).
    + exists lines. cbn [app]. f_equal. by rewrite <- app_assoc.
Qed.

Lemma main_exit_code_witness :
  exists code out err,
    Main.main 9 (fun _ => Some "say 1;") "storyscript" ["a.story"]
    = Main.Exit code out err
    /\ ((code = 0%Z /\ err = []
         /\ exists lines,
              out = ("===== Tokens =====" :: lines
                     ++ [""; "===== Parsing =====";
                         "Parsing completed successfully!"])%list)
        \/ (code = 1%Z /\ err <> [])
        \/ (code = 1%Z /\ err = [] /\ out = []
            /\ exists path rest,
                 ["a.story"] = path :: rest
                 /\ (fun _ : String.string => Some "say 1;") path = Some "")).
Proof.
  eexists _, _, _. split; [vm_compute; reflexivity|].
  eapply (main_exit_code 9 (fun _ => Some "say 1;") "storyscript"
            ["a.story"]).
  vm_compute. reflexivity.
Defined.

(** X23.  On a file that is not empty, with more fuel than the file has
    characters, the token listing of [main] always completes, with at most
    one line per character and one more, and the run ends as [parse] does:
    exit code 1 with the diagnostics of the parser when it reported an
    error, exit code 0 when it did not, and no normal end when the parser
    crashes or does not return. *)
Theorem main_follows_parse fuel fs argv0 path rest src :
  fs path = Some src -> src <> "" -> String.length src < fuel ->
  exists lines,
    length lines <= String.length src + 1
    /\ Main.main fuel fs argv0 (path :: rest)
       = match Parser.parse fuel (Parser.new (Lexer.new src path)) with
         | Parser.Ok _ p =>
             Main.Exit (if Parser.hadError p then 1 else 0)%Z
               ("===== Tokens =====" :: lines
                ++ [""; "===== Parsing =====";
                    if Parser.hadError p
                    then "Parsing failed with errors."
                    else "Parsing completed successfully!"])%list
               (map Main.Diagnostic_line (Parser.cerr p))
         | Parser.Throw _ | Parser.Crash => Main.Crashed
         | Parser.OutOfFuel => Main.Unfinished
         end.
Proof.
  intros Hfs Hne Hfuel. unfold Main.main, Main.readFile. rewrite Hfs.
  destruct (String.eqb src "") eqn:Hempty;
    [by apply eqb_empty in Hempty|].
  destruct (tokenize_total fuel src path Hfuel) as (tokens & l' & -> & Hlen).
  destruct (printTokens_total tokens) as (lines & -> & Hlines).
  exists lines. split; [lia|].
  destruct (Parser.parse _ _) as [program p| | |]; try done.
  destruct (Parser.hadError p); cbn [app]; f_equal;
    by rewrite <- app_assoc.
Qed.

Lemma main_follows_parse_witness :
  exists lines,
    length lines <= String.length "say ;" + 1
    /\ Main.main 9 (fun _ => Some "say ;") "storyscript" ["a.story"]
       = match Parser.parse 9 (Parser.new (Lexer.new "say ;" "a.story")) with
         | Parser.Ok _ p =>
             Main.Exit (if Parser.hadError p then 1 else 0)%Z
               ("===== Tokens =====" :: lines
                ++ [""; "===== Parsing =====";
                    if Parser.hadError p
                    then "Parsing failed with errors."
                    else "Parsing completed successfully!"])%list
               (map Main.Diagnostic_line (Parser.cerr p))
         | Parser.Throw _ | Parser.Crash => Main.Crashed
         | Parser.OutOfFuel => Main.Unfinished
         end.
Proof.
  apply (main_follows_parse 9 (fun _ => Some "say ;") "storyscript"
           "a.story" [] "say ;");
    [reflexivity|discriminate|vm_compute; lia].
Defined.

(** X25.  A statement that returns at a token of any kind other than those
    on which [parseStatement] stays in place has read at least one token,
    and so has an iteration of the top-level loop, with its recovery, at
    any token other than the kinds on which that loop spins: those kinds
    are the only ones at which the parser makes no progress. *)
Theorem statement_reads_a_token fuel p :
  (no_progress (Token.type (Parser.current p)) = false ->
   forall s p',
     Parser.parseStatement fuel p = Parser.Ok s p' ->
     exists k new, effect k new p p' /\ 0 < k)
  /\ (blocks_program (Token.type (Parser.current p)) = false ->
      Token.type (Parser.current p) <> EOF_TOKEN ->
      forall program program' p',
        Parser.try_catch (Parser.parseProgram_item fuel program)
          (Parser.bind (Parser.synchronize fuel)
             (fun _ => Parser.ret program)) p
        = Parser.Ok program' p' ->
        exists k new, effect k new p p' /\ 0 < k).
Proof.
  split.
  - intros H s p' E.
    pose proof (parseStatement_eats fuel p H (reaches_refl p)) as He.
    by rewrite E in He.
  - intros H Hne program program' p'. unfold Parser.try_catch.
    pose proof (parseProgram_item_eats fuel program p H Hne (reaches_refl p))
      as He.
    pose proof (parseProgram_item_reaches fuel program p) as Hr.
    destruct (Parser.parseProgram_item fuel program p)
      as [program1 p1|p1| |]; try done.
    + by intros [= <- <-].
    + unfold Parser.bind.
      destruct (Parser.synchronize fuel p1) as [[] p2| | |] eqn:Es; try done.
      intros [= <- <-]. eapply then_eats; [exact Hr|].
      by eapply synchronize_eats.
Qed.

Lemma statement_reads_a_token_witness :
  (forall s p',
     Parser.parseStatement 3 (Parser.new (script "x;")) = Parser.Ok s p' ->
     exists k new, effect k new (Parser.new (script "x;")) p' /\ 0 < k)
  /\ (forall program program' p',
        Parser.try_catch (Parser.parseProgram_item 3 program)
          (Parser.bind (Parser.synchronize 3)
             (fun _ => Parser.ret program)) (Parser.new (script "x;"))
        = Parser.Ok program' p' ->
        exists k new, effect k new (Parser.new (script "x;")) p' /\ 0 < k).
Proof.
  destruct (statement_reads_a_token 3 (Parser.new (script "x;")))
    as [H1 H2].
  split.
  - apply H1. vm_compute. reflexivity.
  - apply H2; [vm_compute; reflexivity|vm_compute; discriminate].
Defined.

(** * Termination of the expression parser *)

Module EndFacts.
Import Parser ParserSpec ParserFacts ParserTrace ParserMore.
Import Lexer(run, nth_token, nextToken, remaining).

Create HintDb ends.

Lemma tokens_ahead_advanced p :
  Token.type (current p) <> EOF_TOKEN ->
  tokens_ahead (advanced p) < tokens_ahead p.
Proof.
  intros Hne. unfold tokens_ahead at 2.
  destruct (TokenType_eqb (Token.type (current p)) EOF_TOKEN) eqn:E;
    [by apply LexerMore.TokenType_eqb_eq in E|].
  unfold tokens_ahead.
  destruct (TokenType_eqb (Token.type (current (advanced p))) EOF_TOKEN)
    eqn:E'; [lia|].
  assert (Token.type (current (advanced p)) <> EOF_TOKEN) as Hne'
    by (intros Heq%LexerMore.TokenType_eqb_eq; congruence).
  pose proof (advanced_remaining p Hne'). lia.
Qed.

Lemma tokens_ahead_record_error message p :
  tokens_ahead (record_error message p) = tokens_ahead p.
Proof. reflexivity. Qed.

Lemma ends_0 {A} (m : M A) : ends 0 m.
Proof. intros p Hp. lia. Qed.

Lemma ends_weaken {A} n n' (m : M A) : n <= n' -> ends n' m -> ends n m.
Proof. intros Hle H p Hp. apply H. lia. Qed.

Lemma ends_ret {A} n (a : A) : ends n (ret a).
Proof. intros p _. exact (Nat.le_refl _). Qed.

Lemma ends_get {A} n (f : Parser -> A) : ends n (get f).
Proof. intros p _. exact (Nat.le_refl _). Qed.

Lemma ends_throw {A} n : ends n (@throw A).
Proof. intros p _. exact (Nat.le_refl _). Qed.

Lemma ends_crash {A} n : ends n (@crash A).
Proof. by intros p _. Qed.

Lemma ends_error n message : ends n (error message).
Proof. intros p _. exact (Nat.le_refl _). Qed.

Lemma ends_check n ty : ends n (check ty).
Proof. apply ends_get. Qed.

Lemma ends_getCurrentLocation n : ends n getCurrentLocation.
Proof. apply ends_get. Qed.

Lemma ends_bind {A B} n (m : M A) (k : A -> M B) :
  ends n m -> (forall a, ends n (k a)) -> ends n (bind m k).
Proof.
  intros Hm Hk p Hp. unfold bind. specialize (Hm p Hp).
  destruct (m p) as [a p1|p1| |]; [|done..].
  specialize (Hk a p1 ltac:(lia)). destruct (k a p1); try done; lia.
Qed.

Lemma guard_match_ ty : ty <> EOF_TOKEN -> guard (match_ ty).
Proof.
  intros Hty p. unfold match_, bind, check, get, advance, ret.
  destruct (TokenType_eqb _ _) eqn:E; [left|by right].
  apply LexerMore.TokenType_eqb_eq in E. split; [done|congruence].
Qed.

Lemma guard_match_any types :
  Forall (fun ty => ty <> EOF_TOKEN) types -> guard (match_any types).
Proof.
  induction 1 as [|ty types Hty _ IH]; intros p; [by right|].
  cbn [match_any]. unfold bind, check, get, advance, ret.
  destruct (TokenType_eqb _ _) eqn:E; [left|apply IH].
  apply LexerMore.TokenType_eqb_eq in E. split; [done|congruence].
Qed.

Lemma ends_guard {B} n (matches : M bool) (K K' : M B) :
  guard matches -> ends (n - 1) K -> ends n K' ->
  ends n (bind matches (fun b => if b then K else K')).
Proof.
  intros Hg HK HK' p Hp. unfold bind.
  destruct (Hg p) as [[-> Hne]| ->]; [|by apply HK'].
  pose proof (tokens_ahead_advanced p Hne) as Hlt.
  specialize (HK (advanced p) ltac:(lia)).
  destruct (K (advanced p)); try done; lia.
Qed.

Lemma ends_consume n ty message :
  ty <> EOF_TOKEN -> ends n (consume ty message).
Proof.
  intros Hty p _. unfold consume, bind, check, get, advance, error.
  destruct (TokenType_eqb _ _) eqn:E; [|exact (Nat.le_refl _)].
  apply LexerMore.TokenType_eqb_eq in E.
  assert (Token.type (current p) <> EOF_TOKEN) as Hne by congruence.
  pose proof (tokens_ahead_advanced p Hne). lia.
Qed.

#[local] Hint Resolve ends_0 ends_ret ends_get ends_throw ends_crash
  ends_error ends_check ends_getCurrentLocation : ends.
#[local] Hint Extern 1 (guard (match_ _)) =>
  apply guard_match_; discriminate : ends.
#[local] Hint Extern 1 (guard (match_any _)) =>
  apply guard_match_any; repeat constructor; discriminate : ends.
#[local] Hint Extern 1 (ends _ (consume _ _)) =>
  apply ends_consume; discriminate : ends.
#[local] Hint Extern 2 (ends _ _) =>
  (eapply ends_weaken; [|eassumption]; lia) : ends.

(** Walks through the code, spending one unit of the bound at every
    token that a test reads. *)
Ltac finish :=
  repeat first
    [ solve [eauto 3 with ends]
    | apply ends_guard;
      [solve [eauto 3 with ends]
      |cbn [Nat.sub]; rewrite ?Nat.sub_0_r
      |]
    | apply ends_bind; [|intros ?]
    | lazymatch goal with
      | |- ends _ (if ?b then _ else _) => destruct b
      | |- ends _ (match ?x with _ => _ end) => destruct x
      end ].

Section Expressions.
Variable rec : M (option Expression).
Variable fuel : nat.
Hypothesis Hrec : ends (fuel - 1) rec.

Lemma parsePrimary_ends n : n <= fuel -> ends n (parsePrimary rec).
Proof using Hrec.
  intros Hn. unfold parsePrimary.
  assert (ends (n - 1) rec) as Hrec'
    by (eapply ends_weaken; [|exact Hrec]; lia).
  finish.
Qed.

Lemma finishCall_arguments_ends n arguments :
  n <= fuel - 1 -> ends n (finishCall_arguments rec n arguments).
Proof using Hrec.
  revert arguments. induction n as [|n IH]; intros arguments Hn;
    [apply ends_0|].
  cbn [finishCall_arguments].
  assert (ends (S n) rec) as Hrec'
    by (eapply ends_weaken; [|exact Hrec]; lia).
  assert (forall a, ends n (finishCall_arguments rec n a)) as IH'
    by (intros a; apply IH; lia).
  finish.
Qed.

Lemma finishCall_ends n callee :
  n <= fuel - 1 -> ends n (finishCall rec n callee).
Proof using Hrec.
  intros Hn. unfold finishCall.
  pose proof (finishCall_arguments_ends n [] Hn). finish.
Qed.

Lemma parseCall_loop_ends n expr :
  n <= fuel -> ends n (parseCall_loop rec n expr).
Proof using Hrec.
  revert expr. induction n as [|n IH]; intros expr Hn; [apply ends_0|].
  cbn [parseCall_loop].
  assert (forall e, ends n (parseCall_loop rec n e)) as IH'
    by (intros e; apply IH; lia).
  assert (forall c, ends n (finishCall rec n c)) as Hf
    by (intros c; apply finishCall_ends; lia).
  finish.
Qed.

Lemma parseCall_ends n : n <= fuel -> ends n (parseCall rec n).
Proof using Hrec.
  intros Hn. unfold parseCall.
  pose proof (parsePrimary_ends n Hn).
  assert (forall e, ends n (parseCall_loop rec n e)) as Hl
    by (intros e; by apply parseCall_loop_ends).
  finish.
Qed.

Lemma parseUnary_ends n : n <= fuel -> ends n (parseUnary rec n).
Proof using Hrec.
  induction n as [|n IH]; intros Hn; [apply ends_0|].
  cbn [parseUnary].
  pose proof (parseCall_ends (S n) Hn).
  assert (ends n (parseUnary rec n)) as IH' by (apply IH; lia).
  finish.
Qed.

Lemma binary_loop_ends matches operand n expr :
  guard matches -> ends n operand ->
  ends n (binary_loop matches operand n expr).
Proof.
  intros Hg. revert expr. induction n as [|n IH]; intros expr Ho;
    [apply ends_0|].
  cbn [binary_loop].
  assert (ends n operand) as Ho'
    by (eapply ends_weaken; [|exact Ho]; lia).
  assert (forall e, ends n (binary_loop matches operand n e)) as IH'
    by (intros e; by apply IH).
  finish.
Qed.

Lemma parseFactor_ends n : n <= fuel -> ends n (parseFactor rec n).
Proof using Hrec.
  intros Hn. unfold parseFactor. pose proof (parseUnary_ends n Hn).
  apply ends_bind; [done|intros e].
  apply binary_loop_ends; eauto with ends.
Qed.

Lemma parseTerm_ends n : n <= fuel -> ends n (parseTerm rec n).
Proof using Hrec.
  intros Hn. unfold parseTerm. pose proof (parseFactor_ends n Hn).
  apply ends_bind; [done|intros e].
  apply binary_loop_ends; eauto with ends.
Qed.

Lemma parseComparison_ends n : n <= fuel -> ends n (parseComparison rec n).
Proof using Hrec.
  intros Hn. unfold parseComparison. pose proof (parseTerm_ends n Hn).
  apply ends_bind; [done|intros e].
  apply binary_loop_ends; eauto with ends.
Qed.

Lemma parseEquality_ends n : n <= fuel -> ends n (parseEquality rec n).
Proof using Hrec.
  intros Hn. unfold parseEquality. pose proof (parseComparison_ends n Hn).
  apply ends_bind; [done|intros e].
  apply binary_loop_ends; eauto with ends.
Qed.

Lemma parseLogicalAnd_ends n : n <= fuel -> ends n (parseLogicalAnd rec n).
Proof using Hrec.
  intros Hn. unfold parseLogicalAnd. pose proof (parseEquality_ends n Hn).
  apply ends_bind; [done|intros e].
  apply binary_loop_ends; eauto with ends.
Qed.

Lemma parseLogicalOr_ends n : n <= fuel -> ends n (parseLogicalOr rec n).
Proof using Hrec.
  intros Hn. unfold parseLogicalOr. pose proof (parseLogicalAnd_ends n Hn).
  apply ends_bind; [done|intros e].
  apply binary_loop_ends; eauto with ends.
Qed.

Lemma parseAssignment_ends n : n <= fuel -> ends n (parseAssignment rec n).
Proof using Hrec.
  induction n as [|n IH]; intros Hn; [apply ends_0|].
  cbn [parseAssignment].
  pose proof (parseLogicalOr_ends (S n) Hn).
  assert (ends n (parseAssignment rec n)) as IH' by (apply IH; lia).
  finish.
Qed.

End Expressions.

Lemma parseExpression_ends n : ends n (parseExpression n).
Proof.
  induction n as [|n IH]; [apply ends_0|].
  cbn [parseExpression].
  apply (parseAssignment_ends _ (S n)); [|lia].
  cbn [Nat.sub]. by rewrite Nat.sub_0_r.
Qed.

End EndFacts.

Import EndFacts.

(** X26.  The expression parser always comes to an end: with more fuel
    than there are characters left in the source plus one,
    [parseExpression] returns, throws or crashes, and it does so without
    reading past an end-of-input token. *)
Theorem parseExpression_terminates fuel p :
  S (Lexer.remaining (Parser.lexer p)) < fuel ->
  Parser.parseExpression fuel p <> Parser.OutOfFuel
  /\ forall e p',
       Parser.parseExpression fuel p = Parser.Ok e p' ->
       tokens_ahead p' <= tokens_ahead p.
Proof.
  intros Hf.
  assert (tokens_ahead p < fuel) as Hp
    by (unfold tokens_ahead; destruct (TokenType_eqb _ _); lia).
  pose proof (parseExpression_ends fuel p Hp) as H.
  split.
  - intros E. by rewrite E in H.
  - intros e p' E. by rewrite E in H.
Qed.

Lemma parseExpression_terminates_witness :
  Parser.parseExpression 12 (Parser.new (script "f(1, -x)"))
  <> Parser.OutOfFuel
  /\ forall e p',
       Parser.parseExpression 12 (Parser.new (script "f(1, -x)"))
       = Parser.Ok e p' ->
       tokens_ahead p' <= tokens_ahead (Parser.new (script "f(1, -x)")).
Proof.
  apply (parseExpression_terminates 12 (Parser.new (script "f(1, -x)"))).
  vm_compute. lia.
Defined.
